(** * Toronto 2.0: provision segmentation, index store and query planner

    A shallow embedding of [codes-db.js], [ingest-codes.js] and the
    term-expansion function of [server.js], with the properties of the
    natural-language specification stated and settled against it.

    JavaScript strings are sequences of UTF-16 code units; they are
    modelled as lists of code units ([N]), so that [length] is the
    JavaScript [.length] and the characters of the source's patterns
    that lie outside ASCII (the section sign, the en dash) are ordinary
    values. *)

From Stdlib Require Import List NArith ZArith Lia Bool String Ascii.
From Stdlib Require Decimal DecimalNat.
Import ListNotations.

Set Implicit Arguments.

#[local] Abbreviation length := Datatypes.length.

(* ================================================================== *)
(** * JavaScript strings *)
(* ================================================================== *)

Module JS.

Definition jsstring : Type := list N.

(** An ASCII literal as a JavaScript string. *)
Definition js (s : string) : jsstring :=
  map N_of_ascii (list_ascii_of_string s).
Arguments js s%_string.

Definition eqb (a b : jsstring) : bool :=
  if list_eq_dec N.eq_dec a b then true else false.

Definition between (lo hi c : N) : bool := ((lo <=? c) && (c <=? hi))%N.

(** [\s] and the characters removed by [trim]: WhiteSpace and
    LineTerminator of ECMAScript. *)
Definition isSpace (c : N) : bool :=
  between 9 13 c || (c =? 32)%N || (c =? 160)%N || (c =? 5760)%N
  || between 8192 8202 c || (c =? 8232)%N || (c =? 8233)%N
  || (c =? 8239)%N || (c =? 8287)%N || (c =? 12288)%N || (c =? 65279)%N.

(** [\d] *)
Definition isDigit (c : N) : bool := between 48 57 c.

Definition isUpper (c : N) : bool := between 65 90 c.
Definition isLower (c : N) : bool := between 97 122 c.

(** [\w] *)
Definition isWord (c : N) : bool :=
  isDigit c || isUpper c || isLower c || (c =? 95)%N.

Definition isAscii (c : N) : bool := (c <? 128)%N.

(** The ASCII part of the case mappings. *)
Definition lowerAscii (c : N) : N := if isUpper c then (c + 32)%N else c.
Definition upperAscii (c : N) : N := if isLower c then (c - 32)%N else c.

Fixpoint dropWhile (p : N -> bool) (s : jsstring) : jsstring :=
  match s with
  | c :: s' => if p c then dropWhile p s' else s
  | [] => []
  end.

Definition trimStart (s : jsstring) : jsstring := dropWhile isSpace s.
Definition trimEnd (s : jsstring) : jsstring :=
  rev (dropWhile isSpace (rev s)).
Definition trim (s : jsstring) : jsstring := trimEnd (trimStart s).

(** [s.slice(b, e)] with the relative indexing of negative arguments. *)
Definition clampIndex (len i : Z) : Z :=
  if (i <? 0)%Z then Z.max (len + i) 0 else Z.min i len.

Definition slice (s : jsstring) (b e : Z) : jsstring :=
  let len := Z.of_nat (length s) in
  let from := clampIndex len b in
  let to := clampIndex len e in
  firstn (Z.to_nat (to - from)) (skipn (Z.to_nat from) s).

(** [s.split(sep)] for a one-character separator string. *)
Fixpoint splitChar_go (sep : N) (cur : jsstring) (s : jsstring)
  : list jsstring :=
  match s with
  | [] => [rev cur]
  | c :: s' =>
      if (c =? sep)%N then rev cur :: splitChar_go sep [] s'
      else splitChar_go sep (c :: cur) s'
  end.

Definition splitChar (sep : N) (s : jsstring) : list jsstring :=
  splitChar_go sep [] s.

(** [l.join(sep)] *)
Fixpoint join (sep : jsstring) (l : list jsstring) : jsstring :=
  match l with
  | [] => []
  | [x] => x
  | x :: l' => x ++ sep ++ join sep l'
  end.

(** An insertion-ordered [Set] of strings: [add] keeps the first
    occurrence, [[...set]] is the list itself. *)
Definition setAdd (t : jsstring) (set : list jsstring) : list jsstring :=
  if existsb (eqb t) set then set else set ++ [t].

(** Decimal digits of a number, most significant first. *)
Fixpoint digits (d : Decimal.uint) : jsstring :=
  match d with
  | Decimal.Nil => []
  | Decimal.D0 d => 48%N :: digits d
  | Decimal.D1 d => 49%N :: digits d
  | Decimal.D2 d => 50%N :: digits d
  | Decimal.D3 d => 51%N :: digits d
  | Decimal.D4 d => 52%N :: digits d
  | Decimal.D5 d => 53%N :: digits d
  | Decimal.D6 d => 54%N :: digits d
  | Decimal.D7 d => 55%N :: digits d
  | Decimal.D8 d => 56%N :: digits d
  | Decimal.D9 d => 57%N :: digits d
  end.

(** What a template literal prints for a natural number. *)
Definition numberToString (n : nat) : jsstring := digits (Nat.to_uint n).

(** Truthiness of a string-or-null value: [null] and the empty string
    are falsy. *)
Definition truthy (v : option jsstring) : bool :=
  match v with
  | Some (_ :: _) => true
  | _ => false
  end.

(** [v || null] *)
Definition orNull (v : option jsstring) : option jsstring :=
  if truthy v then v else None.

(** [mapi f l] is [l.map((x, i) => f i x)]. *)
Fixpoint mapi_from {A B} (f : nat -> A -> B) (i : nat) (l : list A)
  : list B :=
  match l with
  | [] => []
  | x :: l' => f i x :: mapi_from f (S i) l'
  end.

Definition mapi {A B} (f : nat -> A -> B) (l : list A) : list B :=
  mapi_from f 0 l.

End JS.

Import JS.

(* ================================================================== *)
(** * Regular expressions *)
(* ================================================================== *)

(** The fragment of ECMAScript regular expressions the program uses:
    character classes, sequence, ordered alternation, greedy repetition
    of a class, lookahead and the word boundary.  [exec] is the
    backtracking matcher in continuation-passing style: alternatives are
    tried in order, repetition tries the longest run first. *)

Module Regex.

Inductive regex : Type :=
| Eps
| Cls (p : N -> bool)
| Seq (a b : regex)
| Alt (a b : regex)
| Star (p : N -> bool)
| Look (a : regex)
| WordB.

Definition Plus (p : N -> bool) : regex := Seq (Cls p) (Star p).
Definition Opt (a : regex) : regex := Alt a Eps.

Definition chr (c : N) : N -> bool := fun d => (d =? c)%N.

(** A pattern character under the [i] flag.  Every pattern character
    of this program is ASCII, and Canonicalize relates an ASCII
    character to its two ASCII cases only. *)
Definition chr_i (c : N) : N -> bool :=
  fun d => (upperAscii d =? upperAscii c)%N.

Definition oneOf (cs : jsstring) : N -> bool :=
  fun d => existsb (fun c => (d =? c)%N) cs.
Definition oneOf_i (cs : jsstring) : N -> bool :=
  fun d => existsb (fun c => chr_i c d) cs.

Fixpoint seqs (l : list regex) : regex :=
  match l with
  | [] => Eps
  | r :: l' => Seq r (seqs l')
  end.

Fixpoint alts (l : list regex) : regex :=
  match l with
  | [] => Eps
  | [r] => r
  | r :: l' => Alt r (alts l')
  end.

Definition lit (w : jsstring) : regex := seqs (map (fun c => Cls (chr c)) w).
Definition lit_i (w : jsstring) : regex :=
  seqs (map (fun c => Cls (chr_i c)) w).

(** [new RegExp(src, 'i')] for a source made of plain characters and
    [|], which is what the keyword and expansion tables contain. *)
Definition RegExp_i (src : jsstring) : regex :=
  alts (map lit_i (splitChar 124 src)).

Definition isWordAt (c : option N) : bool :=
  match c with
  | Some c => isWord c
  | None => false
  end.

Section Exec.
Variable R : Type.

Fixpoint star_loop (p : N -> bool) (k : option N -> jsstring -> option R)
         (prev : option N) (s : jsstring) : option R :=
  match s with
  | c :: s' =>
      if p c then
        match star_loop p k (Some c) s' with
        | Some r => Some r
        | None => k prev s
        end
      else k prev s
  | [] => k prev s
  end.
End Exec.

(** [exec r prev s k]: match [r] at the start of [s], the character
    before it being [prev], and continue with [k] on what is left. *)
Fixpoint exec (R : Type) (r : regex) (prev : option N) (s : jsstring)
         (k : option N -> jsstring -> option R) {struct r} : option R :=
  match r with
  | Eps => k prev s
  | Cls p =>
      match s with
      | c :: s' => if p c then k (Some c) s' else None
      | [] => None
      end
  | Seq a b => exec a prev s (fun prev' s' => exec b prev' s' k)
  | Alt a b =>
      match exec a prev s k with
      | Some r => Some r
      | None => exec b prev s k
      end
  | Star p => star_loop p k prev s
  | Look a =>
      match exec a prev s (fun _ _ => Some tt) with
      | Some _ => k prev s
      | None => None
      end
  | WordB =>
      if xorb (isWordAt prev) (isWordAt (hd_error s)) then k prev s
      else None
  end.

(** The remainder of the input after the first match at this position. *)
Definition matchAt (r : regex) (prev : option N) (s : jsstring)
  : option jsstring :=
  exec r prev s (fun _ rest => Some rest).

Definition matchesAt (r : regex) (prev : option N) (s : jsstring) : bool :=
  match matchAt r prev s with
  | Some _ => true
  | None => false
  end.

(** [r.test(s)]: a match at some position, the end included. *)
Fixpoint test_from (r : regex) (prev : option N) (s : jsstring) : bool :=
  matchesAt r prev s
  || match s with
     | [] => false
     | c :: s' => test_from r (Some c) s'
     end.

Definition test (r : regex) (s : jsstring) : bool := test_from r None s.

(** [s.match(r)] with the [g] flag: the matched substrings from left to
    right, empty for [null].  [skip] counts the characters of the last
    match still to be passed over. *)
Fixpoint matchAll_go (r : regex) (skip : nat) (prev : option N)
         (s : jsstring) : list jsstring :=
  match s with
  | [] =>
      match skip, matchAt r prev [] with
      | O, Some _ => [[]]
      | _, _ => []
      end
  | c :: s' =>
      match skip with
      | S n => matchAll_go r n (Some c) s'
      | O =>
          match matchAt r prev s with
          | Some rest =>
              let n := length s - length rest in
              firstn n s :: matchAll_go r (n - 1) (Some c) s'
          | None => matchAll_go r 0 (Some c) s'
          end
      end
  end.

Definition matchAll (r : regex) (s : jsstring) : list jsstring :=
  matchAll_go r 0 None s.

(** [s.split(r)], the SplitMatcher loop of ECMAScript: [cur] holds,
    reversed, the characters since the end of the last separator; a
    match is tried at every position not inside a separator; an empty
    match at the position where the last separator ended is ignored. *)
Fixpoint split_go (r : regex) (cur : jsstring) (skip : nat)
         (prev : option N) (s : jsstring) : list jsstring :=
  match s with
  | [] => [rev cur]
  | c :: s' =>
      match skip with
      | S n => split_go r cur n (Some c) s'
      | O =>
          match matchAt r prev s with
          | None => split_go r (c :: cur) 0 (Some c) s'
          | Some rest =>
              match length s - length rest, cur with
              | O, [] => split_go r [c] 0 (Some c) s'
              | O, _ :: _ => rev cur :: split_go r [c] 0 (Some c) s'
              | S n, _ => rev cur :: split_go r [] n (Some c) s'
              end
          end
      end
  end.

Definition split (r : regex) (s : jsstring) : list jsstring :=
  match s with
  | [] => if matchesAt r None [] then [] else [[]]
  | _ => split_go r [] 0 None s
  end.

End Regex.

Import Regex.

(* ================================================================== *)
(** * The storage engine as the program uses it *)
(* ================================================================== *)

(** A call either returns or throws. *)
Inductive result (A : Type) : Type :=
| Ok (a : A)
| Throw (e : jsstring).
Arguments Ok {A} a.
Arguments Throw {A} e.

(** The value of the [limit] option.  The callers pass 5 (the
    default), 8 and [Math.min(parseInt(limit), 20)]: an integer, or
    [NaN] when the text given to [parseInt] does not start with a
    number.  [Int z] is an integer that the engine holds in its 64
    bits.  An integer stands for itself where a limit is expected. *)
Inductive jsnumber : Type :=
| Int (z : Z)
| NaN.
Coercion Int : Z >-> jsnumber.
Bind Scope Z_scope with jsnumber.

Module Sql.

(** SQL truth values: [None] is NULL. *)
Definition tri : Type := option bool.

Definition or3 (a b : tri) : tri :=
  match a, b with
  | Some true, _ | _, Some true => Some true
  | Some false, Some false => Some false
  | _, _ => None
  end.

Definition and3 (a b : tri) : tri :=
  match a, b with
  | Some false, _ | _, Some false => Some false
  | Some true, Some true => Some true
  | _, _ => None
  end.

(** A WHERE clause keeps the rows on which it is true. *)
Definition holds (v : tri) : bool :=
  match v with
  | Some true => true
  | _ => false
  end.

Definition isHighSurrogate (c : N) : bool := between 55296 56319 c.
Definition isLowSurrogate (c : N) : bool := between 56320 57343 c.

(** The comparison of LIKE without ESCAPE: [%] stands for any
    sequence, [_] for one character (a surrogate pair is one
    character), any other character for itself up to ASCII case. *)
Fixpoint patternCompare (pattern text : jsstring) : bool :=
  match pattern with
  | [] => match text with [] => true | _ :: _ => false end
  | c :: pattern' =>
      if (c =? 37)%N then
        (fix any (t : jsstring) : bool :=
           patternCompare pattern' t
           || match t with
              | [] => false
              | _ :: t' => any t'
              end) text
      else if (c =? 95)%N then
        match text with
        | [] => false
        | h :: l :: text' =>
            if isHighSurrogate h && isLowSurrogate l
            then patternCompare pattern' text'
            else patternCompare pattern' (l :: text')
        | _ :: text' => patternCompare pattern' text'
        end
      else
        match text with
        | [] => false
        | d :: text' =>
            (upperAscii d =? upperAscii c)%N && patternCompare pattern' text'
        end
  end.

(** A string as the LIKE function reads it, a C string: the characters
    before the first U+0000. *)
Fixpoint cstring (s : jsstring) : jsstring :=
  match s with
  | [] => []
  | c :: s' => if (c =? 0)%N then [] else c :: cstring s'
  end.

(** [text LIKE pattern]: both operands end at their first U+0000. *)
Definition like (pattern text : jsstring) : bool :=
  patternCompare (cstring pattern) (cstring text).

(** [column LIKE ?] on a nullable column. *)
Definition like3 (column : option jsstring) (pattern : jsstring) : tri :=
  match column with
  | Some text => Some (like pattern text)
  | None => None
  end.

(** [LIMIT ?]: a negative bound is no bound. *)
Definition limit {A} (n : Z) (rows : list A) : list A :=
  if (n <? 0)%Z then rows else firstn (Z.to_nat n) rows.

(** The value bound to [LIMIT ?].  An integer is taken as it is.  [NaN]
    is bound as NULL, which LIMIT refuses: the statement throws when it
    is run. *)
Definition bindLimit (n : jsnumber) : result Z :=
  match n with
  | Int z => Ok z
  | NaN => Throw (js "datatype mismatch")
  end.

End Sql.

(* ================================================================== *)
(** * codes-db.js *)
(* ================================================================== *)

Module CodesDb.

(** A row of table [provisions] (the two timestamp columns, which no
    operation reads, are left out). *)
Record row : Type := mkRow {
  id : Z;
  source : jsstring;
  chapter : option jsstring;
  chapter_title : option jsstring;
  section : option jsstring;
  section_title : option jsstring;
  content : jsstring;
  summary : option jsstring;
  pdf_url : option jsstring;
  keywords : option jsstring
}.

(** A row of the virtual table [provisions_fts]. *)
Record fts_row : Type := mkFts {
  rowid : Z;
  fts_chapter_title : option jsstring;
  fts_section_title : option jsstring;
  fts_content : jsstring;
  fts_summary : option jsstring;
  fts_keywords : option jsstring
}.

(** A row of table [ingestion_log]. *)
Record log_row : Type := mkLog {
  log_id : Z;
  log_source : jsstring;
  log_chapter : option jsstring;
  log_status : jsstring;
  provisions_count : nat
}.

(** The database: the three tables in rowid order and the two
    AUTOINCREMENT counters. *)
Record store : Type := mkStore {
  provisions : list row;
  provisions_fts : list fts_row;
  ingestion_log : list log_row;
  seq_provisions : Z;
  seq_log : Z
}.

Definition emptyStore : store := mkStore [] [] [] 0 0.

(** A provision object as the JavaScript code passes it around; [None]
    is [null]. *)
Record provision : Type := mkProvision {
  p_source : option jsstring;
  p_chapter : option jsstring;
  p_chapter_title : option jsstring;
  p_section : option jsstring;
  p_section_title : option jsstring;
  p_content : option jsstring;
  p_summary : option jsstring;
  p_pdf_url : option jsstring;
  p_keywords : option jsstring
}.

(** Statements that write: a state transformer that may throw.  The
    state at the throw is kept, as it is inside an open transaction. *)
Definition M (A : Type) : Type := store -> result A * store.

Definition ret {A} (a : A) : M A := fun st => (Ok a, st).
Definition throw {A} (e : jsstring) : M A := fun st => (Throw e, st).
Definition bind {A B} (m : M A) (f : A -> M B) : M B :=
  fun st =>
    match m st with
    | (Ok a, st') => f a st'
    | (Throw e, st') => (Throw e, st')
    end.

Declare Scope db_scope.
Delimit Scope db_scope with db.
Notation "x <- m ;; k" := (bind m (fun x => k))
  (at level 61, m at next level, right associativity) : db_scope.
Notation "m ;; k" := (bind m (fun _ => k))
  (at level 61, right associativity) : db_scope.

(** [for (const item of items) body(item)] *)
Fixpoint forOf {A} (items : list A) (body : A -> M unit) : M unit :=
  match items with
  | [] => ret tt
  | item :: items' => (body item ;; forOf items' body)%db
  end.

(** [db.transaction(f)(...)]: commit when [f] returns, roll back and
    rethrow when it throws. *)
Definition transaction {A} (f : M A) : M A :=
  fun st =>
    match f st with
    | (Ok a, st') => (Ok a, st')
    | (Throw e, _) => (Throw e, st)
    end.

Definition maxId (rows : list row) : Z :=
  fold_right (fun r m => Z.max (id r) m) 0%Z rows.

(** [INSERT INTO provisions (...) VALUES (...)] with its AFTER INSERT
    trigger.  [source] and [content] are NOT NULL. *)
Definition insert_run (v : provision) : M Z :=
  fun st =>
    match p_source v, p_content v with
    | Some src, Some body =>
        let i := (Z.max (maxId (provisions st)) (seq_provisions st) + 1)%Z in
        let r := mkRow i src (p_chapter v) (p_chapter_title v) (p_section v)
                       (p_section_title v) body (p_summary v) (p_pdf_url v)
                       (p_keywords v) in
        let f := mkFts i (p_chapter_title v) (p_section_title v) body
                       (p_summary v) (p_keywords v) in
        (Ok i, mkStore (provisions st ++ [r]) (provisions_fts st ++ [f])
                       (ingestion_log st) i (seq_log st))
    | None, _ => (Throw (js "NOT NULL constraint failed: provisions.source"), st)
    | _, None => (Throw (js "NOT NULL constraint failed: provisions.content"), st)
    end.

Definition insertProvision (v : provision) : M Z :=
  insert_run
    (mkProvision (p_source v) (p_chapter v) (p_chapter_title v) (p_section v)
                 (p_section_title v) (p_content v) (orNull (p_summary v))
                 (orNull (p_pdf_url v)) (orNull (p_keywords v))).

Definition bulkInsert (items : list provision) : M nat :=
  (transaction
     (forOf items (fun item =>
        _ <- insert_run
               (mkProvision (p_source item) (p_chapter item)
                  (p_chapter_title item) (orNull (p_section item))
                  (orNull (p_section_title item)) (p_content item)
                  (orNull (p_summary item)) (orNull (p_pdf_url item))
                  (orNull (p_keywords item))) ;;
        ret tt)) ;;
   ret (length items))%db.

(** [SELECT id FROM ingestion_log WHERE source = ? AND chapter = ?] *)
Definition isIngested (src chap : jsstring) (st : store) : bool :=
  existsb (fun l =>
             eqb (log_source l) src
             && match log_chapter l with
                | Some c => eqb c chap
                | None => false
                end)
          (ingestion_log st).

Definition logIngestion (src chap : jsstring) (count : nat) : M unit :=
  fun st =>
    let i := (seq_log st + 1)%Z in
    (Ok tt, mkStore (provisions st) (provisions_fts st)
                    (ingestion_log st
                     ++ [mkLog i src (Some chap) (js "completed") count])
                    (seq_provisions st) i).

(** [SELECT COUNT( * ) FROM provisions] of [getCodeStats]. *)
Definition total_provisions (st : store) : nat := length (provisions st).

(** ** Search *)

Definition whitespace : regex := Plus isSpace.

(** A word between double quotes. *)
Definition quote (w : jsstring) : jsstring := 34%N :: w ++ [34%N].

(** The words of the query handed to FTS5: every character that is
    neither a word character nor white space becomes a space. *)
Definition cleanWords (query : jsstring) : list jsstring :=
  filter (fun w => 2 <? length w)
         (Regex.split whitespace
            (trim (map (fun c => if isWord c || isSpace c then c else 32%N)
                       query))).

Definition cleanQuery (query : jsstring) : jsstring :=
  join (js " OR ") (map quote (cleanWords query)).

(** The terms of the LIKE search. *)
Definition fallbackTerms (query : jsstring) : list jsstring :=
  filter (fun w => 2 <? length w) (Regex.split whitespace query).

Definition wrapPercent (t : jsstring) : jsstring := js "%" ++ t ++ js "%".

(** The WHERE clause of [fallbackSearch] as the sequence of operands
    and operators the code concatenates. *)
Inductive token : Type :=
| LikeAny (t : jsstring)   (* (p.content LIKE ? OR p.chapter_title LIKE ? OR p.section_title LIKE ?) *)
| SourceIs (s : jsstring)  (* p.source = ? *)
| OR
| AND.

Definition evalOperand (t : token) (r : row) : Sql.tri :=
  match t with
  | LikeAny t =>
      Sql.or3 (Sql.or3 (Sql.like3 (Some (content r)) (wrapPercent t))
                       (Sql.like3 (chapter_title r) (wrapPercent t)))
              (Sql.like3 (section_title r) (wrapPercent t))
  | SourceIs s => Some (eqb (source r) s)
  | OR | AND => None
  end.

(** Evaluation of [operand (OR|AND operand)*] by SQL's grammar, in
    which AND binds tighter than OR: [conj] is the value of the
    conjunction being read, [disj] of the disjuncts already closed. *)
Fixpoint evalWhere_go (disj conj : Sql.tri) (ts : list token) (r : row)
  : Sql.tri :=
  match ts with
  | OR :: t :: ts' => evalWhere_go (Sql.or3 disj conj) (evalOperand t r) ts' r
  | AND :: t :: ts' => evalWhere_go disj (Sql.and3 conj (evalOperand t r)) ts' r
  | _ => Sql.or3 disj conj
  end.

Definition evalWhere (ts : list token) (r : row) : Sql.tri :=
  match ts with
  | t :: ts' => evalWhere_go (Some false) (evalOperand t r) ts' r
  | [] => None
  end.

(** [conditions.join(' OR ')] *)
Fixpoint joinOr (conditions : list token) : list token :=
  match conditions with
  | [] => []
  | [c] => [c]
  | c :: cs => c :: OR :: joinOr cs
  end.

Definition fallbackWhere (terms : list jsstring) (src : option jsstring)
  : list token :=
  joinOr (map LikeAny terms)
  ++ match src with
     | Some s => if truthy src then [AND; SourceIs s] else []
     | None => []
     end.

(** [fallbackSearch]: without terms it returns before any statement;
    otherwise it runs its SELECT, which throws to the caller when the
    limit is refused and else reads the table and compares strings. *)
Definition fallbackSearch (query : jsstring) (lim : jsnumber)
           (src : option jsstring) (st : store) : result (list row) :=
  let terms := fallbackTerms query in
  match terms with
  | [] => Ok []
  | _ =>
      match Sql.bindLimit lim with
      | Throw e => Throw e
      | Ok n =>
          Ok (Sql.limit n
                (filter (fun r => Sql.holds
                                    (evalWhere (fallbackWhere terms src) r))
                        (provisions st)))
      end
  end.

Section Search.

(** The FTS5 engine: for the rows of the index and a MATCH
    expression, the matching rowids best rank first, or the error
    it raises on an expression it rejects. *)
Variable fts5_match : list fts_row -> jsstring -> result (list Z).

(** [SELECT ... FROM provisions_fts fts JOIN provisions p
     ON p.id = fts.rowid WHERE provisions_fts MATCH ?
     [AND p.source = ?] ORDER BY rank LIMIT ?] *)
Definition rankedSelect (expr : jsstring) (src : option jsstring)
           (lim : jsnumber) (st : store) : result (list row) :=
  match Sql.bindLimit lim with
  | Throw e => Throw e
  | Ok n =>
      match fts5_match (provisions_fts st) expr with
      | Throw e => Throw e
      | Ok rowids =>
          let joined :=
            flat_map (fun i => filter (fun p => (id p =? i)%Z) (provisions st))
                     rowids in
          Ok (Sql.limit n
                (filter (fun p => match src with
                                  | Some s => if truthy src
                                              then eqb (source p) s
                                              else true
                                  | None => true
                                  end)
                        joined))
      end
  end.

(** [searchProvisions(query, { limit, source })]; the rows stand for
    the objects returned, which carry their columns.  What the ranked
    statement throws is caught; what [fallbackSearch] throws is not. *)
Definition searchProvisions (query : jsstring) (lim : jsnumber)
           (src : option jsstring) (st : store) : result (list row) :=
  let q := cleanQuery query in
  match q with
  | [] => Ok []
  | _ =>
      match rankedSelect q src lim st with
      | Ok rows => Ok rows
      | Throw _ => fallbackSearch query lim src st
      end
  end.

End Search.

End CodesDb.

(* ================================================================== *)
(** * ingest-codes.js: the download cache *)
(* ================================================================== *)

Module Buffer.

(** The UTF-8 bytes of one code point. *)
Definition utf8CodePoint (cp : N) : list N :=
  if (cp <? 128)%N then [cp]
  else if (cp <? 2048)%N then [192 + cp / 64; 128 + cp mod 64]%N
  else if (cp <? 65536)%N then
    [224 + cp / 4096; 128 + (cp / 64) mod 64; 128 + cp mod 64]%N
  else
    [240 + cp / 262144; 128 + (cp / 4096) mod 64; 128 + (cp / 64) mod 64;
     128 + cp mod 64]%N.

Definition isSurrogate (c : N) : bool := between 55296 57343 c.

(** [Buffer.from(s)]: the UTF-8 encoding of a string; a surrogate pair
    is one code point, a surrogate alone becomes U+FFFD. *)
Fixpoint from (s : jsstring) : list N :=
  match s with
  | [] => []
  | h :: t =>
      match t with
      | l :: s' =>
          if Sql.isHighSurrogate h && Sql.isLowSurrogate l
          then utf8CodePoint (65536 + (h - 55296) * 1024 + (l - 56320)) ++ from s'
          else (if isSurrogate h then [239; 191; 189]%N else utf8CodePoint h)
               ++ from t
      | [] => if isSurrogate h then [239; 191; 189]%N else utf8CodePoint h
      end
  end.

(** The character of a 6-bit value in the base64 alphabet. *)
Definition base64Char (n : N) : N :=
  if (n <? 26)%N then (65 + n)%N
  else if (n <? 52)%N then (97 + (n - 26))%N
  else if (n <? 62)%N then (48 + (n - 52))%N
  else if (n =? 62)%N then 43%N
  else 47%N.

(** [buffer.toString('base64')] *)
Fixpoint toBase64 (bytes : list N) : jsstring :=
  match bytes with
  | [] => []
  | [a] => [base64Char (a / 4); base64Char ((a mod 4) * 16); 61; 61]%N
  | [a; b] =>
      [base64Char (a / 4); base64Char ((a mod 4) * 16 + b / 16);
       base64Char ((b mod 16) * 4); 61]%N
  | a :: b :: c :: rest =>
      [base64Char (a / 4); base64Char ((a mod 4) * 16 + b / 16);
       base64Char ((b mod 16) * 4 + c / 64); base64Char (c mod 64)]%N
      ++ toBase64 rest
  end.

End Buffer.

Module Fetch.

(** [Buffer.from(url).toString('base64').slice(0, 60)] *)
Definition cacheKey (url : jsstring) : jsstring :=
  slice (Buffer.toBase64 (Buffer.from url)) 0 60.

(** [path.join(CACHE_DIR, name)] below the cache directory: the
    non-empty segments of [name] between slashes. *)
Definition cachePath (name : jsstring) : list jsstring :=
  filter (fun seg => match seg with [] => false | _ :: _ => true end)
         (splitChar 47 name).

(** What [fetch] resolves to, with its body already read. *)
Record response (A : Type) : Type := mkResponse {
  ok : bool;
  status : nat;
  body : A
}.
Arguments mkResponse {A} ok status body.
Arguments ok {A} r.
Arguments status {A} r.
Arguments body {A} r.

Section Cache.

(** [A] is what a file holds: the text of a page or the bytes of a
    PDF.  The files of the cache directory are a partial map from
    paths; [writable] tells the paths [writeFileSync] can create. *)
Variable A : Type.
Variable writable : list jsstring -> bool.

Definition files : Type := list jsstring -> option A.

Definition pathEqb (p q : list jsstring) : bool :=
  if list_eq_dec (list_eq_dec N.eq_dec) p q then true else false.

Definition writeFile (fs : files) (p : list jsstring) (data : A) : files :=
  fun q => if pathEqb q p then Some data else fs q.

(** The network: [fetch(url)] and the reading of the body, or what
    they throw. *)
Variable httpGet : jsstring -> result (response A).

Definition httpError (res : response A) (url : jsstring) : jsstring :=
  js "HTTP " ++ numberToString (status res) ++ js " for " ++ url.

Definition fetchPage (url : jsstring) (fs : files) : result A * files :=
  let cachePath := cachePath (cacheKey url ++ js ".html") in
  match fs cachePath with
  | Some text => (Ok text, fs)
  | None =>
      match httpGet url with
      | Throw e => (Throw e, fs)
      | Ok res =>
          if negb (ok res) then (Throw (httpError res url), fs)
          else if writable cachePath
               then (Ok (body res), writeFile fs cachePath (body res))
               else (Throw (js "ENOENT"), fs)
      end
  end.

Definition fetchPdf (url : jsstring) (fs : files) : result A * files :=
  let cachePath := cachePath (cacheKey url ++ js ".pdf") in
  match fs cachePath with
  | Some buffer => (Ok buffer, fs)
  | None =>
      match httpGet url with
      | Throw e => (Throw e, fs)
      | Ok res =>
          if negb (ok res) then (Throw (httpError res url), fs)
          else if writable cachePath
               then (Ok (body res), writeFile fs cachePath (body res))
               else (Throw (js "ENOENT"), fs)
      end
  end.

End Cache.

End Fetch.

(* ================================================================== *)
(** * ingest-codes.js *)
(* ================================================================== *)

Module IngestCodes.

Import CodesDb.

(** ** Segmentation *)

Definition sectionSign : N := 167.
Definition enDash : N := 8211.
Definition emDash : N := 8212.

(** The four boundary patterns, in the order of the source. *)
Definition sectionPatterns : list regex :=
  [ (* (?=§\s*\d+[\-–]\d+) *)
    Look (seqs [Cls (chr sectionSign); Star isSpace; Plus isDigit;
                Cls (oneOf [45%N; enDash]); Plus isDigit]);
    (* (?=ARTICLE\s+[IVXLC]+), flag i *)
    Look (seqs [lit_i (js "ARTICLE"); Plus isSpace;
                Plus (oneOf_i (js "IVXLC"))]);
    (* (?=\d+\.\d+\.\d+) *)
    Look (seqs [Plus isDigit; Cls (chr 46); Plus isDigit; Cls (chr 46);
                Plus isDigit]);
    (* (?=\n\s*\(\d+\)\s+[A-Z]) *)
    Look (seqs [Cls (chr 10); Star isSpace; Cls (chr 40); Plus isDigit;
                Cls (chr 41); Plus isSpace; Cls isUpper]) ].

(** [text.split(pattern).filter(s => s.trim().length > 30)] *)
Definition validSplits (pattern : regex) (text : jsstring) : list jsstring :=
  filter (fun s => 30 <? length (trim s)) (Regex.split pattern text).

(** One turn of the loop over the patterns. *)
Definition tryPattern (text : jsstring) (sections : list jsstring)
           (pattern : regex) : list jsstring :=
  let splits := validSplits pattern text in
  if (length sections <? length splits) && (length splits <? 200)
  then splits else sections.

(** [sections] after the loop over the patterns. *)
Definition selectSections (text : jsstring) : list jsstring :=
  fold_left (tryPattern text) sectionPatterns [text].

(** The [while] loop of [chunkBySize]; [fuel] bounds its turns. *)
Fixpoint chunk_loop (fuel : nat) (text : jsstring) (chunkSize overlap : Z)
         (start : Z) : list jsstring :=
  match fuel with
  | O => []
  | S fuel' =>
      let len := Z.of_nat (length text) in
      if (start <? len)%Z then
        let end_ := Z.min (start + chunkSize) len in
        let chunk := slice text start end_ in
        let start' := (end_ - overlap)%Z in
        if (start' >=? len - overlap)%Z then [chunk]
        else chunk :: chunk_loop fuel' text chunkSize overlap start'
      else []
  end.

(** With [overlap < chunkSize] the loop leaves by its own tests within
    [length text + 1] turns (lemma [chunk_loop_fuel] below). *)
Definition chunkBySize (text : jsstring) (chunkSize overlap : Z)
  : list jsstring :=
  chunk_loop (S (length text)) text chunkSize overlap 0.

(** [sections] as the [map] receives it. *)
Definition segment (text : jsstring) : list jsstring :=
  let sections := selectSections text in
  if (length sections <=? 1) && (2000 <? length text)
  then chunkBySize text 1500 200 else sections.

(** Group 1 of [content.match(/^§?\s*([\d\-–.]+)/)]. *)
Definition sectionMatch (content : jsstring) : option jsstring :=
  exec (Seq (Opt (Cls (chr sectionSign))) (Star isSpace)) None content
       (fun prev rest =>
          exec (Plus (fun c => isDigit c || oneOf [45%N; enDash; 46%N] c))
               prev rest
               (fun _ rest' =>
                  Some (firstn (length rest - length rest') rest))).

Definition keywordPatterns : list (jsstring * jsstring) :=
  [ (js "parking", js "parking|garage|vehicle storage");
    (js "noise", js "noise|sound|decibel|quiet");
    (js "height", js "height|storey|angular plane|setback");
    (js "density", js "density|floor area|FSI|units per");
    (js "transit", js "transit|TTC|streetcar|bus|subway|LRT");
    (js "cycling", js "bicycle|cycling|bike lane|bike parking");
    (js "pedestrian", js "pedestrian|sidewalk|crosswalk|walkway");
    (js "snow", js "snow|ice|winter|plow|windrow");
    (js "fence", js "fence|enclosure|barrier");
    (js "tree", js "tree|canopy|urban forest");
    (js "heritage", js "heritage|conservation|historic");
    (js "sign", js "sign|billboard|advertising");
    (js "waste", js "waste|garbage|recycling|bin");
    (js "water", js "water|sewer|drainage|stormwater");
    (js "housing", js "housing|dwelling|residential|apartment|multiplex");
    (js "commercial", js "commercial|retail|restaurant|business");
    (js "property", js "property|land|lot|zoning");
    (js "permit", js "permit|licence|license|application");
    (js "construction", js "construction|demolition|building");
    (js "accessibility", js "accessibility|accessible|barrier-free");
    (js "fire", js "fire|safety|emergency|smoke");
    (js "boulevard", js "boulevard|right-of-way|road allowance");
    (js "animal", js "animal|dog|pet|cat");
    (js "food", js "food|restaurant|patio|cafe");
    (js "rental", js "rental|tenant|landlord|eviction");
    (js "development", js "development|site plan|subdivision");
    (js "setback", js "setback|yard|front yard|rear yard|side yard");
    (js "laneway", js "laneway|lane|alley|rear lane") ].

Record chapterLink : Type := mkChapter {
  number : nat;
  title : jsstring;
  url : jsstring
}.

Record pdfItem : Type := mkItem {
  item_url : jsstring;
  item_chapter : jsstring;
  item_title : jsstring
}.

Definition priorityChapters : list nat :=
  [349; 354; 363; 395; 415; 441; 447; 459; 469; 489; 492;
   510; 517; 523; 545; 547; 548; 553; 555; 591; 608; 611;
   612; 615; 629; 632; 636; 658; 673; 681; 693; 694; 719;
   738; 743; 767; 813; 841; 844; 849; 851; 880; 886; 903;
   910; 915; 918; 919; 925; 937; 950].

Definition zoningPdfUrls : list pdfItem :=
  [ mkItem (js "https://www.toronto.ca/legdocs/bylaws/2013/law0569-schedule-a-vol1-ch1-800.pdf")
           (js "Zoning By-law 569-2013 Vol. 1")
           (js "Chapters 1-800 (Administration, Zones, Parking, General Provisions, Definitions)");
    mkItem (js "https://www.toronto.ca/legdocs/bylaws/2013/law0569-schedule-a-vol2-ch900-part1.pdf")
           (js "Zoning By-law 569-2013 Vol. 2")
           (js "Exceptions Part 1");
    mkItem (js "https://www.toronto.ca/wp-content/uploads/2018/07/97ec-City-Planning-Zoning-Zoning-By-law-Part-1.pdf")
           (js "Zoning By-law 569-2013 Consolidated")
           (js "Office Consolidation (Chapters 1-80)") ].

Definition officialPlanPdfUrls : list pdfItem :=
  [ mkItem (js "https://www.toronto.ca/wp-content/uploads/2019/06/8f06-OfficialPlanAODA_Compiled-3.0.pdf")
           (js "Official Plan")
           (js "Consolidated Official Plan") ].

Section Host.

(** What the program takes from its runtime and its libraries:
    [String.prototype.toLowerCase], [pdf-parse] (the [text] of the
    parsed document, [None] when it has none), the paths of the cache
    directory that can be written and the network. *)
Variable toLowerCase : jsstring -> jsstring.
Variable pdf : Type.
Variable pdfParse : pdf -> result (option jsstring).
Variable writable : list jsstring -> bool.
Variable httpGet : jsstring -> result (Fetch.response pdf).

Definition extractKeywords (text : jsstring) : jsstring :=
  let t := toLowerCase text in
  join (js ", ")
       (fold_left (fun keywords kp =>
                     if Regex.test (RegExp_i (snd kp)) t
                     then setAdd (fst kp) keywords else keywords)
                  keywordPatterns []).

(** The body of [sections.map((content, i) => ...)]. *)
Definition toProvision (src chap chapterTitle pdfUrl : jsstring)
           (i : nat) (content : jsstring) : provision :=
  let sect :=
    match sectionMatch content with
    | Some g => Some (trim g)
    | None => None
    end in
  let lines := splitChar 10 (trim content) in
  let firstLine :=
    match lines with
    | l :: _ => Some (trim l)
    | [] => None
    end in
  let sectionTitle :=
    match firstLine with
    | Some l => if truthy firstLine && (length l <? 120) then Some l
                else None
    | None => None
    end in
  mkProvision
    (Some src)
    (Some chap)
    (Some chapterTitle)
    (Some match sect with
          | Some sec => if truthy sect then chap ++ js "-" ++ sec
                        else chap ++ js " (Part " ++ numberToString (i + 1)
                                  ++ js ")"
          | None => chap ++ js " (Part " ++ numberToString (i + 1) ++ js ")"
          end)
    sectionTitle
    (Some (slice (trim content) 0 3000))
    None
    (Some pdfUrl)
    (Some (extractKeywords content)).

Definition contentLength (p : provision) : nat :=
  match p_content p with
  | Some c => length c
  | None => 0
  end.

Definition extractAndChunk (pdfBuffer : pdf)
           (src chap chapterTitle pdfUrl : jsstring) : list provision :=
  match pdfParse pdfBuffer with
  | Throw _ => []
  | Ok None => []
  | Ok (Some text) =>
      if negb (truthy (Some text)) || (length text <? 50) then []
      else
        filter (fun p => 50 <? contentLength p)
               (mapi (toProvision src chap chapterTitle pdfUrl)
                     (segment text))
  end.

(** ** Ingestion *)

(** What follows the segmentation inside the [try] block: insert,
    then record. *)
Definition indexChapter (src chapterRef : jsstring)
           (found : list provision) : M nat :=
  if 0 <? length found then
    (_ <- bulkInsert found ;;
     _ <- logIngestion src chapterRef (length found) ;;
     ret (length found))%db
  else ret 0.

(** An ingestion works on the database and on the files of the cache
    directory; [progress] adds the running total. *)
Definition progress : Type := nat * store * Fetch.files pdf.

(** The [try] block of the loops: [fetchPdf] reads the cache or the
    network and may write the cache, then the document is segmented
    and indexed. *)
Definition tryChapter (src chapterRef chapterTitle pdfUrl : jsstring)
           (st : store) (fs : Fetch.files pdf)
  : result nat * store * Fetch.files pdf :=
  match Fetch.fetchPdf writable httpGet pdfUrl fs with
  | (Throw e, fs') => (Throw e, st, fs')
  | (Ok pdfBuffer, fs') =>
      (indexChapter src chapterRef
         (extractAndChunk pdfBuffer src chapterRef chapterTitle pdfUrl) st,
       fs')
  end.

(** One turn of an ingestion loop on the running total, the store and
    the cache: skip a recorded unit, catch what the [try] block
    throws.  The pause between two units touches neither and is left
    out. *)
Definition ingestChapter (src chapterRef chapterTitle pdfUrl : jsstring)
           (acc : progress) : progress :=
  let '(totalProvisions, st, fs) := acc in
  if isIngested src chapterRef st then acc
  else
    match tryChapter src chapterRef chapterTitle pdfUrl st fs with
    | (Ok n, st', fs') => (totalProvisions + n, st', fs')
    | (Throw _, st', fs') => (totalProvisions, st', fs')
    end.

Definition chapterRefOf (ch : chapterLink) : jsstring :=
  js "Chapter " ++ numberToString (number ch).

(** [ingestMunicipalCode], from the chapter links scraped off the
    index page; [doAll] is the [--all-chapters] flag.  The index page
    goes through [fetchPage], whose cache file ends in [.html] and is
    no file [fetchPdf] reads. *)
Definition ingestMunicipalCode (chapters : list chapterLink) (doAll : bool)
           (st : store) (fs : Fetch.files pdf) : progress :=
  let toIngest :=
    if doAll then chapters
    else filter (fun c => existsb (Nat.eqb (number c)) priorityChapters)
                chapters in
  fold_left (fun acc ch =>
               ingestChapter (js "municipal_code") (chapterRefOf ch)
                             (title ch) (url ch) acc)
            toIngest (0, st, fs).

Definition ingestZoningBylaw (st : store) (fs : Fetch.files pdf) : progress :=
  fold_left (fun acc item =>
               ingestChapter (js "zoning_bylaw") (item_chapter item)
                 (js "Zoning By-law 569-2013 " ++ [emDash] ++ js " "
                     ++ item_title item)
                 (item_url item) acc)
            zoningPdfUrls (0, st, fs).

Definition ingestOfficialPlan (st : store) (fs : Fetch.files pdf) : progress :=
  fold_left (fun acc item =>
               ingestChapter (js "official_plan") (item_chapter item)
                             (item_title item) (item_url item) acc)
            officialPlanPdfUrls (0, st, fs).

(** [main] with [--source=all]. *)
Definition main (chapters : list chapterLink) (doAll : bool) (st : store)
           (fs : Fetch.files pdf) : progress :=
  let '(a, st1, fs1) := ingestMunicipalCode chapters doAll st fs in
  let '(b, st2, fs2) := ingestZoningBylaw st1 fs1 in
  let '(c, st3, fs3) := ingestOfficialPlan st2 fs2 in
  (a + b + c, st3, fs3).

End Host.

End IngestCodes.

(* ================================================================== *)
(** * server.js: the term-expansion layer *)
(* ================================================================== *)

Module Server.

(** Citizen language to code concepts: trigger pattern, expansion. *)
Definition mappings : list (jsstring * jsstring) :=
  [ (js "late|commute|bus|streetcar|subway|ttc|train|transit|shuttle",
     js "transit TTC service streetcar bus");
    (js "traffic|congestion|gridlock|slow|stuck",
     js "traffic right-of-way road");
    (js "rent|apartment|condo|housing|afford|expensive|lease",
     js "housing residential dwelling density");
    (js "basement|suite|secondary|laneway|garden suite",
     js "laneway secondary suite dwelling additional");
    (js "build|construct|renovate|addition|permit",
     js "building permit construction site plan");
    (js "parking|park|car|drive|garage",
     js "parking minimum vehicle spaces");
    (js "noise|loud|music|construction noise|barking",
     js "noise sound prohibited");
    (js "fence|yard|garden|tree|property line",
     js "fence property boundary setback");
    (js "snow|plow|ice|winter|shovel|salt",
     js "snow ice removal clearing windrow");
    (js "garbage|waste|recycling|bin|collection",
     js "waste collection recycling");
    (js "restaurant|bar|cafe|patio|food|shop|store|business",
     js "commercial retail restaurant licence patio");
    (js "sign|billboard|awning",
     js "sign advertising display");
    (js "sidewalk|road|pothole|crosswalk|intersection",
     js "street sidewalk road maintenance");
    (js "bike|bicycle|cycling|cycle track",
     js "bicycle cycling lane");
    (js "pedestrian|walk|crossing",
     js "pedestrian crosswalk sidewalk");
    (js "development|tower|highrise|condo|new building",
     js "development height density setback angular");
    (js "heritage|old building|historic",
     js "heritage conservation designation");
    (js "safety|dangerous|hazard",
     js "safety property standard");
    (js "fire|smoke|alarm",
     js "fire safety building code");
    (js "dog|pet|animal|leash",
     js "animal dog pet");
    (js "licence|license|permit|application|wait",
     js "licence permit application") ].

(** The place-name pattern, flags [g] and [i]. *)
Definition locationPattern : regex :=
  seqs [ WordB;
         alts [ lit_i (js "queen"); lit_i (js "king"); lit_i (js "bloor");
                lit_i (js "dundas"); lit_i (js "yonge"); lit_i (js "spadina");
                lit_i (js "bathurst"); lit_i (js "ossington");
                lit_i (js "college");
                seqs [lit_i (js "st"); Opt (Cls (chr 46)); Star isSpace;
                      lit_i (js "clair")];
                lit_i (js "danforth"); lit_i (js "eglinton");
                lit_i (js "lawrence"); lit_i (js "sheppard");
                lit_i (js "finch"); lit_i (js "scarborough");
                lit_i (js "etobicoke"); lit_i (js "north york");
                lit_i (js "east york"); lit_i (js "leslieville");
                lit_i (js "parkdale"); lit_i (js "junction");
                lit_i (js "kensington"); lit_i (js "annex");
                lit_i (js "beaches"); lit_i (js "liberty");
                lit_i (js "distillery"); lit_i (js "corktown");
                lit_i (js "regent"); lit_i (js "moss park");
                seqs [lit_i (js "cabbage"); Opt (Cls (chr 32));
                      lit_i (js "town")];
                seqs [lit_i (js "river"); Opt (Cls (chr 32));
                      lit_i (js "dale")] ];
         WordB ].

Section Host.

Variable toLowerCase : jsstring -> jsstring.

(** [searchTerms.split(' ').forEach(t => terms.add(t))] *)
Definition addAll (searchTerms : jsstring) (terms : list jsstring)
  : list jsstring :=
  fold_left (fun ts t => setAdd t ts) (splitChar 32 searchTerms) terms.

(** The loop over the entries of [mappings]. *)
Definition expandMappings (s : jsstring) (table : list (jsstring * jsstring))
           (terms : list jsstring) : list jsstring :=
  fold_left (fun ts m =>
               if Regex.test (RegExp_i (fst m)) s then addAll (snd m) ts
               else ts)
            table terms.

(** The set [terms] when the function returns. *)
Definition searchTermSet (story : jsstring) : list jsstring :=
  let s := toLowerCase story in
  let terms := expandMappings s mappings [] in
  fold_left (fun ts l => setAdd (toLowerCase l) ts)
            (matchAll locationPattern s) terms.

Definition extractSearchTerms (story : jsstring) : jsstring :=
  join (js " ") (searchTermSet story).

End Host.

End Server.

(* ================================================================== *)
(** * Notions used in the statements *)
(* ================================================================== *)

Import CodesDb.

(** A row matches a term when [%term%] is LIKE its content, its chapter
    title or its section title. *)
Definition likeField (column : option jsstring) (t : jsstring) : bool :=
  match column with
  | Some text => Sql.like (wrapPercent t) text
  | None => false
  end.

Definition matchesTerm (r : row) (t : jsstring) : bool :=
  Sql.like (wrapPercent t) (content r)
  || likeField (chapter_title r) t
  || likeField (section_title r) t.


(** [OR c1 OR c2 ...], what [joinOr] puts after the first condition. *)
Definition orTail (cs : list token) : list token :=
  flat_map (fun c => [OR; c]) cs.

(** An engine that rejects every expression. *)
Definition rejecting : list fts_row -> jsstring -> result (list Z) :=
  fun _ _ => Throw (js "fts5: syntax error").

Definition noiseRow : row :=
  mkRow 1 (js "municipal_code") (Some (js "Chapter 591")) (Some (js "Noise"))
        (Some (js "Chapter 591-591-2.2"))
        (Some (js "Construction"))
        (js "Construction noise is prohibited before 7am on any weekday.")
        None (Some (js "https://www.toronto.ca/legdocs/municode/1184_591.pdf"))
        (Some (js "noise, construction")).

Definition parkingRow : row :=
  mkRow 2 (js "zoning_bylaw") (Some (js "Zoning By-law 569-2013 Vol. 1"))
        (Some (js "Parking")) (Some (js "Zoning By-law 569-2013 Vol. 1-200.5.10"))
        (Some (js "Parking rates"))
        (js "A parking space must be provided for each dwelling unit in the building.")
        None None (Some (js "parking, housing")).

Definition sampleStore : store :=
  mkStore [noiseRow; parkingRow]
          [mkFts 1 (chapter_title noiseRow) (section_title noiseRow)
                 (content noiseRow) (summary noiseRow) (keywords noiseRow);
           mkFts 2 (chapter_title parkingRow) (section_title parkingRow)
                 (content parkingRow) (summary parkingRow) (keywords parkingRow)]
          [] 2 0.


Import IngestCodes Server.

(** The two forms of a section reference. *)
Definition partReference (chap : jsstring) (n : nat) : jsstring :=
  chap ++ js " (Part " ++ numberToString n ++ js ")".

Definition recoveredReference (chap sec : jsstring) : jsstring :=
  chap ++ js "-" ++ sec.

(** [toLowerCase] on ASCII text, and a parser for documents that are
    their own text: the host used in the examples. *)
Definition asciiLower (s : jsstring) : jsstring := map lowerAscii s.

Definition parsedAs (document : jsstring) : result (option jsstring) :=
  Ok (Some document).

(** A chapter with two section signs and two dotted paragraph numbers. *)
Definition mixedChapter : jsstring :=
  [sectionSign]
  ++ js " 591-2.1 No person shall make or permit noise after 11pm on any day. "
  ++ js "2.1.1 Amplified sound within a park is prohibited at all times of the day. "
  ++ [sectionSign]
  ++ js " 591-2.2 Construction noise is prohibited before 7am on a weekday. "
  ++ js "2.2.1 Power tools count as construction equipment under this section.".

(** A chapter divided into articles, none with a section number. *)
Definition articleChapter : jsstring :=
  js "ARTICLE I General provisions apply to every person within the city limits. "
  ++ js "ARTICLE II No person shall keep more than three dogs in a dwelling unit. "
  ++ js "ARTICLE III Offences under this chapter are subject to a set fine.".

(** The map of [extractAndChunk] for the chapter on animals. *)
Definition animalsProvision (toLowerCase : jsstring -> jsstring)
  : nat -> jsstring -> provision :=
  toProvision toLowerCase (js "municipal_code") (js "Chapter 349")
              (js "Animals")
              (js "https://www.toronto.ca/legdocs/municode/1184_349.pdf").

(** A provision object the INSERT statement accepts: its two NOT NULL
    columns are given. *)
Definition insertable (v : provision) : bool :=
  match p_source v, p_content v with
  | Some _, Some _ => true
  | _, _ => false
  end.

(** Every unit recorded in [st] is recorded in [st']. *)
Definition recordsKept (st st' : store) : Prop :=
  forall src chap, isIngested src chap st = true -> isIngested src chap st' = true.

(** A provision object without content, and a batch that holds it. *)
Definition goodProvision : provision :=
  mkProvision (Some (js "municipal_code")) (Some (js "Chapter 591"))
              (Some (js "Noise")) (Some (js "Chapter 591-591-2.2"))
              (Some (js "Construction"))
              (Some (js "Construction noise is prohibited before 7am on any weekday."))
              None None (Some (js "noise, construction")).

Definition badProvision : provision :=
  mkProvision (Some (js "municipal_code")) (Some (js "Chapter 591"))
              (Some (js "Noise")) (Some (js "Chapter 591 (Part 2)"))
              None None None None None.

Definition badBatch : list provision :=
  [goodProvision; badProvision; goodProvision].

(** The parts of the state of an ingestion. *)
Definition total_of {A B} (p : nat * A * B) : nat := fst (fst p).
Definition store_of {A B} (p : nat * A * B) : A := snd (fst p).
Definition files_of {A B} (p : nat * A * B) : B := snd p.

(** A network that knows one document and answers 404 for every other
    address, a cache directory in which every file can be written, and
    an empty cache. *)
Definition noiseUrl : jsstring :=
  js "https://www.toronto.ca/legdocs/municode/1184_591.pdf".

Definition animalsUrl : jsstring :=
  js "https://www.toronto.ca/legdocs/municode/1184_349.pdf".

Definition noiseOnly (u : jsstring) : result (Fetch.response jsstring) :=
  if eqb u noiseUrl then Ok (Fetch.mkResponse true 200 mixedChapter)
  else Ok (Fetch.mkResponse false 404 []).

Definition anyPath : list jsstring -> bool := fun _ => true.

Definition noFiles : Fetch.files jsstring := fun _ => None.

(** The two chapters in the order of the index page. *)
Definition listedChapters : list chapterLink :=
  [ mkChapter 349 (js "Animals") animalsUrl;
    mkChapter 591 (js "Noise") noiseUrl ].

Definition scrapedChapters : list chapterLink :=
  [ mkChapter 591 (js "Noise") noiseUrl;
    mkChapter 349 (js "Animals")
              (js "https://www.toronto.ca/legdocs/municode/1184_349.pdf") ].

(** What the statements below need of [toLowerCase]: a run of ASCII
    characters is lowered in place, character by character, whatever
    surrounds it. *)
Definition lowersAsciiRuns (toLowerCase : jsstring -> jsstring) : Prop :=
  forall a w b,
    forallb isAscii w = true ->
    exists a' b', toLowerCase (a ++ w ++ b) = a' ++ map lowerAscii w ++ b'.

(** The trigger phrases and the expansion terms of an entry. *)
Definition triggerPhrases (m : jsstring * jsstring) : list jsstring :=
  splitChar 124 (fst m).

Definition expansionTerms (m : jsstring * jsstring) : list jsstring :=
  splitChar 32 (snd m).

Definition nonEmpty (s : jsstring) : bool :=
  match s with
  | [] => false
  | _ :: _ => true
  end.

(** An entry whose phrases are lower-case ASCII and whose expansion is
    a non-empty list of non-empty terms. *)
Definition entryWellFormed (m : jsstring * jsstring) : bool :=
  forallb (fun p => forallb isAscii p && eqb (map lowerAscii p) p)
          (triggerPhrases m)
  && forallb nonEmpty (expansionTerms m)
  && match expansionTerms m with
     | [] => false
     | _ :: _ => true
     end.

Definition streetcarStory : jsstring :=
  js "I was late because the streetcar did not come on Queen Street".


(* ================================================================== *)
(** * Further notions used in the statements *)
(* ================================================================== *)

(** The index entry the AFTER INSERT trigger writes for a row. *)
Definition ftsOf (r : row) : fts_row :=
  mkFts (id r) (chapter_title r) (section_title r) (content r) (summary r)
        (keywords r).

(** The index holds exactly one entry for every row, in the same order. *)
Definition indexInSync (st : store) : Prop :=
  provisions_fts st = map ftsOf (provisions st).

(** Row [r] holds what [bulkInsert] binds for [item]. *)
Definition storedAs (item : provision) (r : row) : Prop :=
  p_source item = Some (source r)
  /\ p_content item = Some (content r)
  /\ chapter r = p_chapter item
  /\ chapter_title r = p_chapter_title item
  /\ section r = orNull (p_section item)
  /\ section_title r = orNull (p_section_title item)
  /\ summary r = orNull (p_summary item)
  /\ pdf_url r = orNull (p_pdf_url item)
  /\ keywords r = orNull (p_keywords item).

(** The [n] ids after [base]. *)
Definition idsFrom (base : Z) (n : nat) : list Z :=
  map (fun k => (base + 1 + Z.of_nat k)%Z) (seq 0 n).

(** The id below which AUTOINCREMENT never goes. *)
Definition idBase (st : store) : Z :=
  Z.max (maxId (provisions st)) (seq_provisions st).

(** One chapter indexed and recorded: its rows, their index entries
    and its record are added at the end of the three tables. *)
Definition chapterAdded (src chapterRef : jsstring) (rows : list row)
           (st st' : store) : Prop :=
  isIngested src chapterRef st = false
  /\ rows <> []
  /\ provisions st' = provisions st ++ rows
  /\ provisions_fts st' = provisions_fts st ++ map ftsOf rows
  /\ ingestion_log st'
     = ingestion_log st
       ++ [mkLog (seq_log st + 1) src (Some chapterRef) (js "completed")
                 (length rows)]
  /\ Forall (fun r => source r = src /\ chapter r = Some chapterRef) rows
  /\ map id rows = idsFrom (idBase st) (length rows).

(** [ingested st n st']: [st'] comes from [st] by indexing chapters,
    [n] provisions in all. *)
Inductive ingested (st : store) : nat -> store -> Prop :=
| ingested_none : ingested st 0 st
| ingested_chapter (n : nat) (mid st' : store) (src chapterRef : jsstring)
                   (rows : list row) :
    ingested st n mid ->
    chapterAdded src chapterRef rows mid st' ->
    ingested st (n + length rows) st'.

(** The key of a record of the ingestion log. *)
Definition logKey (l : log_row) : jsstring * option jsstring :=
  (log_source l, log_chapter l).

(** The provisions of a (source, chapter). *)
Definition inChapter (src chapterRef : jsstring) (r : row) : bool :=
  eqb (source r) src
  && match chapter r with
     | Some c => eqb c chapterRef
     | None => false
     end.

Definition chapterCount (src chapterRef : jsstring) (st : store) : nat :=
  length (filter (inChapter src chapterRef) (provisions st)).

(** Log and provisions tell the same story: one record for each
    (source, chapter), every record counts the provisions of its
    chapter, and every provision belongs to a recorded chapter. *)
Definition logConsistent (st : store) : Prop :=
  NoDup (map logKey (ingestion_log st))
  /\ (forall l, In l (ingestion_log st) ->
        exists chapterRef,
          log_chapter l = Some chapterRef
          /\ provisions_count l = chapterCount (log_source l) chapterRef st)
  /\ (forall r, In r (provisions st) ->
        exists chapterRef,
          chapter r = Some chapterRef
          /\ isIngested (source r) chapterRef st = true).

(** A network that serves one body for every URL, and an empty cache. *)
Definition serveAll (document : jsstring) (url : jsstring)
  : result (Fetch.response jsstring) :=
  Ok (Fetch.mkResponse true 200 document).

Definition zoningVol1Url : jsstring := item_url (nth 0 zoningPdfUrls (mkItem [] [] [])).
Definition zoningVol2Url : jsstring := item_url (nth 1 zoningPdfUrls (mkItem [] [] [])).

(** A provision object whose keyword string is empty. *)
Definition emptyKeywords : provision :=
  mkProvision (Some (js "zoning_bylaw")) (Some (js "Official Plan"))
              (Some (js "Consolidated Official Plan")) (Some (js ""))
              None (Some (js "Policies for the downtown are set out here."))
              None None (Some (js "")).

(** An engine that matches every indexed row, the last one first. *)
Definition answering : list fts_row -> jsstring -> result (list Z) :=
  fun entries _ => Ok (rev (map rowid entries)).

(** The characters a regular expression can consume. *)
Fixpoint consumes (r : regex) (c : N) : Prop :=
  match r with
  | Cls p | Star p => p c = true
  | Seq a b | Alt a b => consumes a c \/ consumes b c
  | Eps | Look _ | WordB => False
  end.

(** The characters of a recovered section identifier: [[\d\-–.]]. *)
Definition isIdChar (c : N) : bool :=
  isDigit c || oneOf [45%N; enDash; 46%N] c.

(** The text the chunks of [chunkBySize] stand for: the first [step]
    characters of every chunk but the last, and the last chunk. *)
Fixpoint stitch (step : nat) (chunks : list jsstring) : jsstring :=
  match chunks with
  | [] => []
  | [c] => c
  | c :: rest => firstn step c ++ stitch step rest
  end.

Definition longText : jsstring := repeat 65%N 3000.

(** Two strings with the same letters, whatever their case. *)
Definition sameLetters (w p : jsstring) : Prop :=
  map upperAscii w = map upperAscii p.

(** A text in which a phrase stands, in any letter case. *)
Definition occursIn (phrase text : jsstring) : Prop :=
  exists a w b, text = a ++ w ++ b /\ sameLetters w phrase.

(** The set [keywords] of [extractKeywords] when the loop over the
    vocabulary ends. *)
Definition keywordSet (toLowerCase : jsstring -> jsstring) (text : jsstring)
  : list jsstring :=
  fold_left (fun keywords kp =>
               if Regex.test (RegExp_i (snd kp)) (toLowerCase text)
               then setAdd (fst kp) keywords else keywords)
            keywordPatterns [].

(** The keywords of the vocabulary whose pattern matches the lowered
    text, in the order of the vocabulary. *)
Definition matchingKeywords (toLowerCase : jsstring -> jsstring)
           (text : jsstring) : list jsstring :=
  map fst (filter (fun kp => Regex.test (RegExp_i (snd kp)) (toLowerCase text))
                  keywordPatterns).

Definition transitNotice : jsstring :=
  js "The TTC runs a shuttle Bus while the Subway is closed".

(** No string stands twice in the list. *)
Fixpoint distinct (l : list jsstring) : bool :=
  match l with
  | [] => true
  | x :: l' => negb (existsb (eqb x) l') && distinct l'
  end.

Definition weatherStory : jsstring := js "Hello, what a lovely day".


(** Row [r] holds what [insertProvision] binds for [v]. *)
Definition insertedAs (v : provision) (r : row) : Prop :=
  p_source v = Some (source r)
  /\ p_content v = Some (content r)
  /\ chapter r = p_chapter v
  /\ chapter_title r = p_chapter_title v
  /\ section r = p_section v
  /\ section_title r = p_section_title v
  /\ summary r = orNull (p_summary v)
  /\ pdf_url r = orNull (p_pdf_url v)
  /\ keywords r = orNull (p_keywords v).

(** Every file of [fs] is in [fs'], unchanged. *)
Definition cacheKept {A} (fs fs' : Fetch.files A) : Prop :=
  forall p d, fs p = Some d -> fs' p = Some d.
(* ================================================================== *)
(** * Properties of the search path *)
(* ================================================================== *)

Lemma holds_or3 (a b : Sql.tri) :
  Sql.holds (Sql.or3 a b) = Sql.holds a || Sql.holds b.
Proof. destruct a as [[|]|], b as [[|]|]; reflexivity. Qed.

Lemma holds_and3 (a b : Sql.tri) :
  Sql.holds (Sql.and3 a b) = Sql.holds a && Sql.holds b.
Proof. destruct a as [[|]|], b as [[|]|]; reflexivity. Qed.

Lemma holds_LikeAny (t : jsstring) (r : row) :
  Sql.holds (evalOperand (LikeAny t) r) = matchesTerm r t.
Proof.
  unfold matchesTerm, likeField, evalOperand, Sql.like3.
  rewrite !holds_or3.
  destruct (chapter_title r), (section_title r); cbn [Sql.holds];
    repeat match goal with |- context [Sql.like ?p ?x] =>
      destruct (Sql.like p x) end; reflexivity.
Qed.

Lemma joinOr_cons (c : token) (cs : list token) :
  joinOr (c :: cs) = c :: orTail cs.
Proof.
  revert c; induction cs as [|d cs IH]; intros c; [reflexivity|].
  change (joinOr (c :: d :: cs)) with (c :: OR :: joinOr (d :: cs)).
  now rewrite IH.
Qed.





(** With a source filter and two terms or more, the WHERE clause is
    [c1 OR ... OR (cn AND p.source = ?)]: only the last term is tied
    to the source. *)
Lemma evalWhere_go_source_last (r : row) (s last : jsstring)
      (middle : list jsstring) :
  forall disj conj,
    Sql.holds (evalWhere_go disj conj
                 (orTail (map LikeAny (middle ++ [last])) ++ [AND; SourceIs s])
                 r)
    = Sql.holds disj || Sql.holds conj || existsb (matchesTerm r) middle
      || (matchesTerm r last && eqb (source r) s).
Proof.
  induction middle as [|t ts IH]; intros disj conj.
  - cbn [map orTail flat_map app evalWhere_go].
    rewrite !holds_or3, holds_and3, holds_LikeAny.
    cbn [evalOperand existsb]. rewrite orb_false_r.
    destruct (eqb (source r) s); reflexivity.
  - cbn [map orTail flat_map app evalWhere_go].
    change (flat_map (fun c => [OR; c]) (map LikeAny (ts ++ [last])))
      with (orTail (map LikeAny (ts ++ [last]))).
    rewrite IH, holds_or3, holds_LikeAny. cbn [existsb].
    now rewrite !orb_assoc.
Qed.

Lemma fallbackWhere_source_last (first last s : jsstring)
      (middle : list jsstring) (r : row) :
  s <> [] ->
  Sql.holds (evalWhere (fallbackWhere (first :: middle ++ [last]) (Some s)) r)
  = matchesTerm r first || existsb (matchesTerm r) middle
    || (matchesTerm r last && eqb (source r) s).
Proof.
  intros Hs. unfold fallbackWhere.
  replace (truthy (Some s)) with true by (now destruct s).
  change (map LikeAny (first :: middle ++ [last]))
    with (LikeAny first :: map LikeAny (middle ++ [last])).
  rewrite joinOr_cons. cbn [app evalWhere].
  now rewrite evalWhere_go_source_last, holds_LikeAny.
Qed.

Lemma In_limit {A} (n : Z) (l : list A) (x : A) :
  In x (Sql.limit n l) -> In x l.
Proof.
  unfold Sql.limit. destruct (n <? 0)%Z; [easy|].
  generalize (Z.to_nat n) as k. induction l as [|y l IH]; intros [|k]; cbn; try easy.
  intros [->|H]; [now left|right; eauto].
Qed.





Lemma star_loop_all (p : N -> bool) (s : jsstring) :
  forall prev,
    star_loop p (fun _ rest => Some rest) prev s = Some (dropWhile p s).
Proof.
  induction s as [|c s IH]; intros prev; [reflexivity|].
  cbn [star_loop dropWhile]. destruct (p c); [|reflexivity].
  now rewrite IH.
Qed.

(** White space matches where a white-space character stands, and
    takes the whole run. *)
Lemma matchAt_whitespace (prev : option N) (s : jsstring) :
  matchAt whitespace prev s
  = match s with
    | c :: s' => if isSpace c then Some (dropWhile isSpace s') else None
    | [] => None
    end.
Proof.
  unfold matchAt, whitespace, Plus. cbn [exec].
  destruct s as [|c s]; [reflexivity|].
  destruct (isSpace c); [apply star_loop_all|reflexivity].
Qed.

Lemma dropWhile_length (p : N -> bool) (s : jsstring) :
  length (dropWhile p s) <= length s.
Proof.
  induction s as [|c s IH]; [cbn; lia|]. cbn [dropWhile].
  destruct (p c); cbn [length]; lia.
Qed.

Lemma Forall_dropWhile (P : N -> Prop) (p : N -> bool) (s : jsstring) :
  Forall P s -> Forall P (dropWhile p s).
Proof.
  induction 1 as [|c s Hc Hs IH]; [constructor|]. cbn [dropWhile].
  destruct (p c); [exact IH|now constructor].
Qed.

Lemma Forall_trim (P : N -> Prop) (s : jsstring) :
  Forall P s -> Forall P (trim s).
Proof.
  intros H. unfold trim, trimEnd, trimStart.
  apply Forall_rev, Forall_dropWhile, Forall_rev, Forall_dropWhile, H.
Qed.

(** The pieces between runs of white space hold no white space and
    nothing that is not in the text. *)
Lemma split_whitespace_pieces (P : N -> Prop) (s : jsstring) :
  forall cur skip prev,
    Forall P s ->
    Forall (fun c => isSpace c = false /\ P c) cur ->
    Forall (Forall (fun c => isSpace c = false /\ P c))
           (split_go whitespace cur skip prev s).
Proof.
  induction s as [|c s IH]; intros cur skip prev Hs Hcur.
  - cbn. constructor; [now apply Forall_rev|constructor].
  - inversion Hs as [|? ? Hc Hs']; subst. cbn [split_go].
    destruct skip as [|n]; [|now apply IH].
    rewrite matchAt_whitespace. destruct (isSpace c) eqn:Ec.
    + pose proof (dropWhile_length isSpace s) as Hlen.
      replace (length (c :: s) - length (dropWhile isSpace s))
        with (S (length s - length (dropWhile isSpace s)))
        by (cbn [length]; lia).
      constructor; [now apply Forall_rev|]. apply IH; [exact Hs'|constructor].
    + apply IH; [exact Hs'|]. constructor; [now split|exact Hcur].
Qed.

Lemma split_whitespace_words (P : N -> Prop) (s w : jsstring) :
  Forall P s ->
  In w (Regex.split whitespace s) ->
  Forall (fun c => isSpace c = false /\ P c) w.
Proof.
  intros Hs Hw. unfold Regex.split in Hw. destruct s as [|c s].
  - unfold matchesAt in Hw. rewrite matchAt_whitespace in Hw.
    destruct Hw as [<-|[]]. constructor.
  - pose proof (@split_whitespace_pieces P (c :: s) [] 0 None Hs
                  (Forall_nil _)) as H.
    rewrite Forall_forall in H. now apply H.
Qed.

Lemma longest_run (p : N -> bool) (s : jsstring) :
  firstn (length s - length (dropWhile p s)) s ++ dropWhile p s = s
  /\ Forall (fun c => p c = true)
            (firstn (length s - length (dropWhile p s)) s)
  /\ match dropWhile p s with
     | c :: _ => p c = false
     | [] => True
     end.
Proof.
  induction s as [|c s (IH1 & IH2 & IH3)]; [now repeat split|].
  cbn [dropWhile]. destruct (p c) eqn:Ec.
  - pose proof (dropWhile_length p s).
    replace (length (c :: s) - length (dropWhile p s))
      with (S (length s - length (dropWhile p s))) by (cbn [length]; lia).
    cbn [firstn app]. rewrite IH1. repeat split; auto.
  - rewrite Nat.sub_diag. cbn [firstn app]. now repeat split.
Qed.










Section SearchProperties.

Variable fts5_match : list fts_row -> jsstring -> result (list Z).

(** The ranked statement applies the source filter to every row. *)
Lemma rankedSelect_source (expr s : jsstring) (lim : Z) (st : store)
      (rows : list row) (r : row) :
  s <> [] ->
  rankedSelect fts5_match expr (Some s) lim st = Ok rows ->
  In r rows -> source r = s.
Proof.
  intros Hs H Hin. unfold rankedSelect in H. cbn [Sql.bindLimit] in H.
  destruct (fts5_match (provisions_fts st) expr) as [ids|]; [|discriminate].
  injection H as <-. apply In_limit in Hin. apply filter_In in Hin as [_ Hr].
  destruct s; [easy|]. cbn in Hr. unfold eqb in Hr.
  now destruct (list_eq_dec N.eq_dec (source r) (n :: s)).
Qed.



End SearchProperties.





(** Claim C6 fails on the fallback path: asked for [zoning_bylaw]
    provisions only, with the ranked statement throwing, the query
    [noise parking] returns the [municipal_code] provision as well.  In
    [c1 OR c2 AND p.source = ?] the test of the source belongs to the
    last condition. *)
Lemma fallback_source_filter_leaks :
  searchProvisions rejecting (js "noise parking") 5 (Some (js "zoning_bylaw"))
                   sampleStore
  = Ok [noiseRow; parkingRow]
  /\ source noiseRow = js "municipal_code"
  /\ source noiseRow <> js "zoning_bylaw".
Proof.
  repeat split; try (vm_compute; reflexivity).
  vm_compute. discriminate.
Qed.

(* ================================================================== *)
(** * Properties of the segmenter *)
(* ================================================================== *)

Lemma In_mapi_from {A B} (f : nat -> A -> B) (l : list A) :
  forall i y, In y (mapi_from f i l) ->
              exists j x, y = f j x /\ In x l /\ i <= j.
Proof.
  induction l as [|a l IH]; intros i y H; [easy|].
  destruct H as [<-|H].
  - exists i, a. repeat split; [now left|lia].
  - apply IH in H as (j & x & -> & Hx & Hj).
    exists j, x. repeat split; [now right|lia].
Qed.

Lemma mapi_from_nth {A B} (f : nat -> A -> B) (l : list A) :
  forall i k x, nth_error l k = Some x ->
                nth_error (mapi_from f i l) k = Some (f (i + k) x).
Proof.
  induction l as [|a l IH]; intros i [|k] x H; try easy.
  - injection H as ->. cbn. now rewrite Nat.add_0_r.
  - cbn in *. rewrite (IH (S i) k x H). do 2 f_equal. lia.
Qed.

Lemma In_mapi_nth {A B} (f : nat -> A -> B) (l : list A) (y : B) :
  In y (mapi f l) -> exists k x, nth_error l k = Some x /\ y = f k x.
Proof.
  unfold mapi.
  assert (H : forall i, In y (mapi_from f i l) ->
                        exists k x, nth_error l k = Some x /\ y = f (i + k) x).
  { induction l as [|a l IH]; intros i Hy; [easy|].
    destruct Hy as [<-|Hy].
    - exists 0, a. split; [reflexivity|]. now rewrite Nat.add_0_r.
    - apply IH in Hy as (k & x & Hk & ->).
      exists (S k), x. split; [exact Hk|]. f_equal. lia. }
  intros Hy. destruct (H 0 Hy) as (k & x & Hk & ->). now exists k, x.
Qed.

Lemma filter_mapi_length {A B} (f : nat -> A -> B) (p : B -> bool)
      (q : A -> bool) (l : list A) :
  (forall i x, p (f i x) = q x) ->
  forall i, length (filter p (mapi_from f i l)) = length (filter q l).
Proof.
  intros Hpq. induction l as [|a l IH]; intros i; [reflexivity|].
  cbn. rewrite Hpq. destruct (q a); cbn; now rewrite IH.
Qed.

Lemma slice_prefix (s : jsstring) (n : nat) :
  slice s 0 (Z.of_nat n) = firstn n s.
Proof.
  unfold slice, clampIndex.
  replace (0 <? 0)%Z with false by reflexivity.
  destruct (Z.ltb_spec (Z.of_nat n) 0); [lia|].
  replace (Z.min 0 (Z.of_nat (length s))) with 0%Z by lia.
  cbn [Z.to_nat skipn]. rewrite Z.sub_0_r.
  destruct (Nat.le_gt_cases n (length s)).
  - now replace (Z.to_nat (Z.min (Z.of_nat n) (Z.of_nat (length s)))) with n
      by lia.
  - replace (Z.to_nat (Z.min (Z.of_nat n) (Z.of_nat (length s))))
      with (length s) by lia.
    rewrite !firstn_all2; [reflexivity|lia|lia].
Qed.

Lemma digits_inj (d d' : Decimal.uint) : digits d = digits d' -> d = d'.
Proof.
  revert d'. induction d; intros [] H; cbn in H; try discriminate;
    try reflexivity; injection H as H; f_equal; auto.
Qed.

Lemma numberToString_inj (n m : nat) :
  numberToString n = numberToString m -> n = m.
Proof.
  intros H. apply DecimalNat.Unsigned.to_uint_inj. now apply digits_inj.
Qed.

Lemma partReference_inj (chap : jsstring) (n m : nat) :
  partReference chap n = partReference chap m -> n = m.
Proof.
  unfold partReference. intros H.
  apply app_inv_head in H. apply app_inv_head in H.
  apply app_inv_tail in H. now apply numberToString_inj.
Qed.

Lemma NoDup_map_filter {A B} (g : A -> B) (f : A -> bool) (l : list A) :
  NoDup (map g l) -> NoDup (map g (filter f l)).
Proof.
  induction l as [|a l IH]; intros H; [constructor|].
  cbn in *. inversion H as [|? ? Hnot Hnd]; subst.
  destruct (f a); [|auto]. cbn. constructor; [|auto].
  intros Hin. apply Hnot. apply in_map_iff in Hin as (x & <- & Hx).
  apply in_map. now apply filter_In in Hx as [Hx _].
Qed.

Lemma NoDup_map_injective {A B} (f : A -> B) (l : list A) :
  (forall x y, f x = f y -> x = y) -> NoDup l -> NoDup (map f l).
Proof.
  intros Hinj. induction 1 as [|a l Hnot Hnd IH]; cbn; constructor; auto.
  intros Hin. apply in_map_iff in Hin as (x & Hx & Hxl).
  apply Hinj in Hx. now subst.
Qed.


Section SegmenterProperties.

Variable toLowerCase : jsstring -> jsstring.
Variable pdf : Type.
Variable pdfParse : pdf -> result (option jsstring).
Variables (src chap chapterTitle pdfUrl : jsstring).

#[local] Abbreviation provisionOf :=
  (toProvision toLowerCase src chap chapterTitle pdfUrl).

Lemma provision_content (i : nat) (c : jsstring) :
  p_content (provisionOf i c) = Some (firstn 3000 (trim c)).
Proof.
  unfold toProvision. cbn [p_content]. f_equal. apply (slice_prefix _ 3000).
Qed.

Lemma provision_section (i : nat) (c : jsstring) :
  p_section (provisionOf i c)
  = Some match sectionMatch c with
         | Some g => if truthy (Some (trim g))
                     then recoveredReference chap (trim g)
                     else partReference chap (i + 1)
         | None => partReference chap (i + 1)
         end.
Proof.
  unfold toProvision. cbn [p_section].
  destruct (sectionMatch c); reflexivity.
Qed.

Lemma extractAndChunk_inv (pdfBuffer : pdf) (p : provision) :
  In p (extractAndChunk toLowerCase pdfParse pdfBuffer src chap chapterTitle
                        pdfUrl) ->
  exists text i c,
    pdfParse pdfBuffer = Ok (Some text)
    /\ In c (segment text)
    /\ p = provisionOf i c
    /\ 50 < contentLength p.
Proof.
  unfold extractAndChunk. destruct (pdfParse pdfBuffer) as [[text|]|]; try easy.
  destruct (negb (truthy (Some text)) || (length text <? 50)); [easy|].
  intros H. apply filter_In in H as [H Hlen].
  apply In_mapi_from in H as (i & c & -> & Hc & _).
  exists text, i, c. repeat split; auto.
  now apply Nat.ltb_lt in Hlen.
Qed.

(** The filter of the last line lets through more than 50 characters. *)
Lemma provision_content_over_50 (pdfBuffer : pdf) (p : provision) :
  In p (extractAndChunk toLowerCase pdfParse pdfBuffer src chap chapterTitle
                        pdfUrl) ->
  exists c, p_content p = Some c /\ 50 < length c <= 3000.
Proof.
  intros H. apply extractAndChunk_inv in H as (text & i & c & _ & _ & -> & Hlen).
  unfold contentLength in Hlen. rewrite provision_content in *.
  eexists. split; [reflexivity|]. split; [exact Hlen|].
  apply firstn_le_length.
Qed.

(** Claim C3.  The content of every provision [extractAndChunk] emits
    is present, is not empty, and has at least 50 and at most 3000
    characters. *)
Theorem provision_content_bounds (pdfBuffer : pdf) (p : provision) :
  In p (extractAndChunk toLowerCase pdfParse pdfBuffer src chap chapterTitle
                        pdfUrl) ->
  exists c, p_content p = Some c /\ c <> [] /\ 50 <= length c <= 3000.
Proof.
  intros H. apply provision_content_over_50 in H as (c & Hc & Hlo & Hhi).
  exists c. repeat split; auto; [|lia].
  intros ->. cbn in Hlo. lia.
Qed.

(** Claim C10.  The section reference of every provision
    [extractAndChunk] emits is present, is not empty and begins with
    the chapter string: it is the chapter, a hyphen and a recovered
    non-empty identifier, or the chapter and [(Part n)] for a
    position [n] from 1 on. *)
Theorem provision_section_reference (pdfBuffer : pdf) (p : provision) :
  In p (extractAndChunk toLowerCase pdfParse pdfBuffer src chap chapterTitle
                        pdfUrl) ->
  exists s,
    p_section p = Some s
    /\ s <> []
    /\ firstn (length chap) s = chap
    /\ ((exists sec, sec <> [] /\ s = recoveredReference chap sec)
        \/ (exists n, 1 <= n /\ s = partReference chap n)).
Proof.
  intros H. apply extractAndChunk_inv in H as (text & i & c & _ & _ & -> & _).
  rewrite provision_section.
  assert (Hform :
    forall s,
      (exists sec, sec <> [] /\ s = recoveredReference chap sec)
      \/ (exists n, 1 <= n /\ s = partReference chap n) ->
      s <> [] /\ firstn (length chap) s = chap).
  { intros s [(sec & _ & ->)|(n & _ & ->)];
      unfold recoveredReference, partReference;
      (split; [destruct chap; discriminate|]);
      rewrite firstn_app, Nat.sub_diag, firstn_all; cbn [firstn];
      apply app_nil_r. }
  eexists. split; [reflexivity|].
  match goal with |- ?s <> [] /\ _ /\ ?F => assert (HF : F) end.
  { destruct (sectionMatch c) as [g|].
    - destruct (truthy (Some (trim g))) eqn:Et.
      + left. exists (trim g). split; [|reflexivity].
        destruct (trim g); [discriminate|discriminate].
      + right. exists (i + 1). split; [lia|reflexivity].
    - right. exists (i + 1). split; [lia|reflexivity]. }
  destruct (Hform _ HF). auto.
Qed.

(** A segment without a recoverable identifier is referred to by its
    position among all the segments of the chapter, counted from 1. *)
Lemma synthesized_reference_position (sections : list jsstring) (k : nat)
      (c : jsstring) :
  nth_error sections k = Some c ->
  sectionMatch c = None ->
  option_map p_section (nth_error (mapi provisionOf sections) k)
  = Some (Some (partReference chap (k + 1))).
Proof.
  intros Hk Hc. unfold mapi. rewrite (mapi_from_nth _ _ 0 _ Hk).
  cbn [option_map]. now rewrite provision_section, Hc.
Qed.

Lemma synthesized_references_from (sections : list jsstring) :
  (forall c, In c sections -> sectionMatch c = None) ->
  forall i,
    map p_section (mapi_from provisionOf i sections)
    = map (fun n => Some (partReference chap n)) (seq (i + 1) (length sections)).
Proof.
  induction sections as [|c l IH]; intros Hall i; [reflexivity|].
  cbn [mapi_from map length seq]. rewrite provision_section.
  rewrite (Hall c (or_introl eq_refl)). f_equal.
  apply (IH (fun c' H => Hall c' (or_intror H)) (S i)).
Qed.

(** What [extractAndChunk] does with a document that has a text of 50
    characters or more. *)
Lemma extractAndChunk_text (pdfBuffer : pdf) (text : jsstring) :
  pdfParse pdfBuffer = Ok (Some text) ->
  50 <= length text ->
  extractAndChunk toLowerCase pdfParse pdfBuffer src chap chapterTitle pdfUrl
  = filter (fun p => 50 <? contentLength p)
           (mapi provisionOf (segment text)).
Proof.
  intros Hparse Hlen. unfold extractAndChunk. rewrite Hparse.
  destruct text as [|c0 text]; [cbn in Hlen; lia|].
  cbn [truthy negb orb].
  now destruct (Nat.ltb_spec (length (c0 :: text)) 50); [lia|].
Qed.

(** Claim C8.  For a chapter with a text, [extractAndChunk] emits the
    provisions of the segments of the text, in order, that pass the
    final filter.  An emitted provision whose segment has no
    recoverable section identifier has the reference
    [{chapter} (Part n)], [n] being the position of the segment among
    all the segments of the chapter counted from 1, and two segments
    without identifier at different positions get different
    references.  When none of the [n] segments of the chapter has a
    recoverable identifier, the references are [{chapter} (Part 1)] to
    [{chapter} (Part n)] in this order, and those of the provisions
    emitted are pairwise distinct. *)
Theorem synthesized_references_distinct (pdfBuffer : pdf) (text : jsstring) :
  pdfParse pdfBuffer = Ok (Some text) ->
  50 <= length text ->
  extractAndChunk toLowerCase pdfParse pdfBuffer src chap chapterTitle pdfUrl
  = filter (fun p => 50 <? contentLength p)
           (mapi provisionOf (segment text))
  /\ (forall p,
        In p (extractAndChunk toLowerCase pdfParse pdfBuffer src chap
                              chapterTitle pdfUrl) ->
        exists i c,
          nth_error (segment text) i = Some c
          /\ p = provisionOf i c
          /\ (sectionMatch c = None ->
              p_section p = Some (partReference chap (i + 1))))
  /\ (forall i j ci cj,
        nth_error (segment text) i = Some ci ->
        nth_error (segment text) j = Some cj ->
        sectionMatch ci = None ->
        sectionMatch cj = None ->
        i <> j ->
        p_section (provisionOf i ci) <> p_section (provisionOf j cj))
  /\ ((forall c, In c (segment text) -> sectionMatch c = None) ->
      map p_section (mapi provisionOf (segment text))
      = map (fun n => Some (partReference chap n))
            (seq 1 (length (segment text)))
      /\ NoDup (map p_section
                  (extractAndChunk toLowerCase pdfParse pdfBuffer src chap
                                   chapterTitle pdfUrl))).
Proof.
  intros Hparse Hlen. rewrite (extractAndChunk_text Hparse Hlen).
  split; [reflexivity|]. split; [|split].
  - intros p Hp. apply filter_In in Hp as [Hp _].
    apply In_mapi_nth in Hp as (i & c & Hi & ->).
    exists i, c. split; [exact Hi|]. split; [reflexivity|].
    intros Hc. now rewrite provision_section, Hc.
  - intros i j ci cj _ _ Hci Hcj Hij.
    rewrite !provision_section, Hci, Hcj.
    intros E. injection E as E. apply partReference_inj in E. lia.
  - intros Hall.
    assert (E := synthesized_references_from (segment text) Hall 0).
    cbn [Nat.add] in E.
    change (mapi_from provisionOf 0 (segment text))
      with (mapi provisionOf (segment text)) in E.
    split; [exact E|]. apply NoDup_map_filter. rewrite E.
    apply NoDup_map_injective; [|apply seq_NoDup].
    intros n m H. injection H as H. now apply partReference_inj in H.
Qed.

(** What [extractAndChunk] emits for a document with text: the
    segments whose trimmed text is longer than 50 characters. *)
Lemma extractAndChunk_count (pdfBuffer : pdf) (text : jsstring) :
  pdfParse pdfBuffer = Ok (Some text) ->
  50 <= length text ->
  length (extractAndChunk toLowerCase pdfParse pdfBuffer src chap
                          chapterTitle pdfUrl)
  = length (filter (fun s => 50 <? length (trim s)) (segment text)).
Proof.
  intros Hparse Hlen. rewrite (extractAndChunk_text Hparse Hlen).
  unfold mapi. apply filter_mapi_length. intros i x.
  unfold contentLength. rewrite provision_content.
  rewrite length_firstn.
  destruct (Nat.ltb_spec 50 (length (trim x)));
    destruct (Nat.ltb_spec 50 (Nat.min 3000 (length (trim x)))); auto; lia.
Qed.

End SegmenterProperties.




(** Claim C3 on the first provision of [mixedChapter]. *)
Lemma provision_content_bounds_witness :
  exists p c,
    In p (extractAndChunk asciiLower parsedAs mixedChapter
            (js "municipal_code") (js "Chapter 591") (js "Noise") (js "u"))
    /\ p_content p = Some c /\ c <> [] /\ 50 <= length c <= 3000.
Proof.
  pose (ps := extractAndChunk asciiLower parsedAs mixedChapter
                (js "municipal_code") (js "Chapter 591") (js "Noise") (js "u")).
  pose (p := nth 0 ps (mkProvision None None None None None None None None None)).
  assert (Hin : In p ps) by (vm_compute; left; reflexivity).
  destruct (@provision_content_bounds asciiLower jsstring parsedAs
              (js "municipal_code") (js "Chapter 591") (js "Noise") (js "u")
              mixedChapter p Hin) as (c & Hc).
  exists p, c. split; [exact Hin|exact Hc].
Defined.

(** Claim C10 on the first provision of [mixedChapter]. *)
Lemma provision_section_reference_witness :
  exists p s,
    In p (extractAndChunk asciiLower parsedAs mixedChapter
            (js "municipal_code") (js "Chapter 591") (js "Noise") (js "u"))
    /\ p_section p = Some s
    /\ s <> []
    /\ firstn (length (js "Chapter 591")) s = js "Chapter 591"
    /\ ((exists sec, sec <> [] /\ s = recoveredReference (js "Chapter 591") sec)
        \/ (exists n, 1 <= n /\ s = partReference (js "Chapter 591") n)).
Proof.
  pose (ps := extractAndChunk asciiLower parsedAs mixedChapter
                (js "municipal_code") (js "Chapter 591") (js "Noise") (js "u")).
  pose (p := nth 0 ps (mkProvision None None None None None None None None None)).
  assert (Hin : In p ps) by (vm_compute; left; reflexivity).
  destruct (@provision_section_reference asciiLower jsstring parsedAs
              (js "municipal_code") (js "Chapter 591") (js "Noise") (js "u")
              mixedChapter p Hin) as (s & Hs).
  exists p, s. split; [exact Hin|exact Hs].
Defined.

(** Claim C8 on the three articles of [articleChapter]. *)
Lemma synthesized_references_distinct_witness :
  (forall c, In c (segment articleChapter) -> sectionMatch c = None)
  /\ map p_section
         (extractAndChunk asciiLower parsedAs articleChapter
            (js "municipal_code") (js "Chapter 349") (js "Animals") animalsUrl)
     = [Some (js "Chapter 349 (Part 1)"); Some (js "Chapter 349 (Part 2)");
        Some (js "Chapter 349 (Part 3)")]
  /\ NoDup (map p_section
              (extractAndChunk asciiLower parsedAs articleChapter
                 (js "municipal_code") (js "Chapter 349") (js "Animals")
                 animalsUrl)).
Proof.
  assert (Hall : forall c, In c (segment articleChapter) ->
                           sectionMatch c = None).
  { intros c Hc.
    assert (E : segment articleChapter
                = [nth 0 (segment articleChapter) [];
                   nth 1 (segment articleChapter) [];
                   nth 2 (segment articleChapter) []])
      by (vm_compute; reflexivity).
    rewrite E in Hc.
    destruct Hc as [<-|[<-|[<-|[]]]]; vm_compute; reflexivity. }
  split; [exact Hall|]. split; [vm_compute; reflexivity|].
  assert (Hlen : 50 <= length articleChapter)
    by (apply Nat.leb_le; vm_compute; reflexivity).
  destruct (@synthesized_references_distinct asciiLower jsstring parsedAs
              (js "municipal_code") (js "Chapter 349") (js "Animals")
              animalsUrl articleChapter articleChapter eq_refl Hlen)
    as (_ & _ & _ & H).
  exact (proj2 (H Hall)).
Defined.

(* ================================================================== *)
(** * Properties of the index store and of ingestion *)
(* ================================================================== *)

Lemma insert_run_insertable (v : provision) (st : store) :
  insertable v = true ->
  exists i st',
    insert_run v st = (Ok i, st')
    /\ ingestion_log st' = ingestion_log st
    /\ seq_log st' = seq_log st
    /\ length (provisions st') = S (length (provisions st)).
Proof.
  unfold insertable, insert_run.
  destruct (p_source v), (p_content v); try discriminate. intros _.
  do 2 eexists. split; [reflexivity|]. cbn.
  rewrite length_app. cbn. repeat split. lia.
Qed.

Lemma insert_run_rejected (v : provision) (st : store) :
  insertable v = false -> exists e, insert_run v st = (Throw e, st).
Proof.
  unfold insertable, insert_run.
  destruct (p_source v), (p_content v); try discriminate; intros _;
    eexists; reflexivity.
Qed.

(** The record that [bulkInsert] binds for an item is accepted exactly
    when the item is. *)
Lemma insertable_bound (item : provision) :
  insertable
    (mkProvision (p_source item) (p_chapter item) (p_chapter_title item)
       (orNull (p_section item)) (orNull (p_section_title item))
       (p_content item) (orNull (p_summary item)) (orNull (p_pdf_url item))
       (orNull (p_keywords item)))
  = insertable item.
Proof. reflexivity. Qed.

Lemma forOf_cons {A} (x : A) (xs : list A) (body : A -> M unit) (st : store) :
  forOf (x :: xs) body st
  = match body x st with
    | (Ok _, st1) => forOf xs body st1
    | (Throw e, st1) => (Throw e, st1)
    end.
Proof. reflexivity. Qed.

(** The loop inside the transaction of [bulkInsert]. *)
Lemma bulkInsert_loop (items : list provision) :
  forall st,
    let loop :=
      forOf items (fun item =>
        (_ <- insert_run
                (mkProvision (p_source item) (p_chapter item)
                   (p_chapter_title item) (orNull (p_section item))
                   (orNull (p_section_title item)) (p_content item)
                   (orNull (p_summary item)) (orNull (p_pdf_url item))
                   (orNull (p_keywords item))) ;;
         ret tt)%db) in
    if forallb insertable items then
      exists st',
        loop st = (Ok tt, st')
        /\ ingestion_log st' = ingestion_log st
        /\ seq_log st' = seq_log st
        /\ length (provisions st') = length (provisions st) + length items
    else exists e st', loop st = (Throw e, st').
Proof.
  cbn zeta.
  set (body := fun item : provision =>
        (_ <- insert_run
                (mkProvision (p_source item) (p_chapter item)
                   (p_chapter_title item) (orNull (p_section item))
                   (orNull (p_section_title item)) (p_content item)
                   (orNull (p_summary item)) (orNull (p_pdf_url item))
                   (orNull (p_keywords item))) ;;
         ret tt)%db).
  assert (Hok : forall item st, insertable item = true ->
            exists st1, body item st = (Ok tt, st1)
                        /\ ingestion_log st1 = ingestion_log st
                        /\ seq_log st1 = seq_log st
                        /\ length (provisions st1) = S (length (provisions st))).
  { intros item st Hi. unfold body, bind.
    destruct (@insert_run_insertable _ st (eq_trans (insertable_bound item) Hi))
      as (i & st1 & -> & Hrest).
    exists st1. split; [reflexivity|exact Hrest]. }
  assert (Hbad : forall item st, insertable item = false ->
            exists e, body item st = (Throw e, st)).
  { intros item st Hi. unfold body, bind.
    destruct (@insert_run_rejected _ st (eq_trans (insertable_bound item) Hi))
      as (e & ->).
    now exists e. }
  clearbody body.
  induction items as [|item items IH]; intros st.
  - cbn. exists st. repeat split. lia.
  - cbn [forallb]. rewrite forOf_cons.
    destruct (insertable item) eqn:Ei; cbn [andb].
    + destruct (Hok item st Ei) as (st1 & -> & Hlog & Hseq & Hlen).
      specialize (IH st1).
      destruct (forallb insertable items).
      * destruct IH as (st' & -> & Hlog' & Hseq' & Hlen').
        exists st'. repeat split; try congruence. cbn [length]. lia.
      * exact IH.
    + destruct (Hbad item st Ei) as (e & ->).
      now exists e, st.
Qed.

(** [bulkInsert] is its loop with the store put back on a throw. *)
Lemma bulkInsert_unfold (items : list provision) (st : store) :
  bulkInsert items st
  = match forOf items (fun item =>
            (_ <- insert_run
                    (mkProvision (p_source item) (p_chapter item)
                       (p_chapter_title item) (orNull (p_section item))
                       (orNull (p_section_title item)) (p_content item)
                       (orNull (p_summary item)) (orNull (p_pdf_url item))
                       (orNull (p_keywords item))) ;;
             ret tt)%db) st with
    | (Ok _, st') => (Ok (length items), st')
    | (Throw e, _) => (Throw e, st)
    end.
Proof.
  unfold bulkInsert, transaction. unfold bind at 1.
  destruct (forOf _ _ _) as [[|] ?]; reflexivity.
Qed.

(** [bulkInsert] on a batch of acceptable records adds one row for each
    and leaves the ingestion log alone. *)
Lemma bulkInsert_accepted (items : list provision) (st : store) :
  forallb insertable items = true ->
  exists st',
    bulkInsert items st = (Ok (length items), st')
    /\ ingestion_log st' = ingestion_log st
    /\ seq_log st' = seq_log st
    /\ length (provisions st') = length (provisions st) + length items.
Proof.
  intros Hall. pose proof (bulkInsert_loop items st) as H. cbn zeta in H.
  rewrite Hall in H. destruct H as (st' & Hloop & Hrest).
  exists st'. split; [|exact Hrest].
  rewrite bulkInsert_unfold. now rewrite Hloop.
Qed.

Lemma bulkInsert_rejected (items : list provision) (st : store) :
  forallb insertable items = false ->
  exists e, bulkInsert items st = (Throw e, st).
Proof.
  intros Hall. pose proof (bulkInsert_loop items st) as H. cbn zeta in H.
  rewrite Hall in H. destruct H as (e & st' & Hloop).
  exists e. rewrite bulkInsert_unfold. now rewrite Hloop.
Qed.

(** Whatever makes [bulkInsert] throw, the store is as before. *)
Lemma bulkInsert_throw_unchanged (items : list provision) (st st' : store)
      (e : jsstring) :
  bulkInsert items st = (Throw e, st') -> st' = st.
Proof.
  destruct (forallb insertable items) eqn:Hall.
  - destruct (bulkInsert_accepted items st Hall) as (st1 & -> & _). discriminate.
  - destruct (bulkInsert_rejected items st Hall) as (e1 & ->). congruence.
Qed.

(** Claim C5.  If one record of the batch given to [bulkInsert] cannot
    be inserted (its source or its content is missing, the NOT NULL
    columns), the call throws and the store is the store before the
    call: no record of the batch is in it, whatever the position of the
    bad record. *)
Theorem bulkInsert_all_or_nothing
        (items : list provision) (item : provision) (st : store) :
  In item items ->
  insertable item = false ->
  exists e, bulkInsert items st = (Throw e, st).
Proof.
  intros Hin Hbad. apply bulkInsert_rejected.
  destruct (forallb insertable items) eqn:Hall; [|reflexivity].
  rewrite forallb_forall in Hall. rewrite (Hall item Hin) in Hbad.
  discriminate.
Qed.

(** Claim C5 on a batch whose second record has no content. *)
Lemma bulkInsert_all_or_nothing_witness :
  In badProvision badBatch
  /\ insertable badProvision = false
  /\ exists e, bulkInsert badBatch sampleStore = (Throw e, sampleStore).
Proof.
  split; [right; left; reflexivity|]. split; [reflexivity|].
  apply (@bulkInsert_all_or_nothing badBatch badProvision sampleStore).
  - right; left; reflexivity.
  - reflexivity.
Defined.

Lemma isIngested_app (src chap : jsstring) (st st' : store)
      (extra : list log_row) :
  ingestion_log st' = ingestion_log st ++ extra ->
  isIngested src chap st = true -> isIngested src chap st' = true.
Proof.
  unfold isIngested. intros ->. rewrite existsb_app. now intros ->.
Qed.

Lemma eqb_refl (s : jsstring) : eqb s s = true.
Proof. unfold eqb. now destruct (list_eq_dec N.eq_dec s s). Qed.

Lemma recordsKept_refl (st : store) : recordsKept st st.
Proof. now intros ? ?. Qed.

Lemma recordsKept_trans (a b c : store) :
  recordsKept a b -> recordsKept b c -> recordsKept a c.
Proof. intros H1 H2 s ch H. auto. Qed.

(** The three ways the part after the segmentation can end. *)
Lemma indexChapter_cases (src chapterRef : jsstring) (found : list provision)
      (st : store) :
  (found = [] /\ indexChapter src chapterRef found st = (Ok 0, st))
  \/ (found <> [] /\ forallb insertable found = false
      /\ exists e, indexChapter src chapterRef found st = (Throw e, st))
  \/ (found <> [] /\ forallb insertable found = true
      /\ exists mid st',
           bulkInsert found st = (Ok (length found), mid)
           /\ indexChapter src chapterRef found st = (Ok (length found), st')
           /\ provisions st' = provisions mid
           /\ ingestion_log st'
              = ingestion_log st
                ++ [mkLog (seq_log st + 1) src (Some chapterRef)
                          (js "completed") (length found)]).
Proof.
  destruct found as [|p found]; [left; now split|right].
  unfold indexChapter. cbn [length Nat.ltb Nat.leb].
  destruct (forallb insertable (p :: found)) eqn:Hall; [right|left].
  - split; [discriminate|]. split; [reflexivity|].
    destruct (bulkInsert_accepted (p :: found) st Hall)
      as (mid & Hins & Hlog & Hseq & _).
    exists mid. eexists. split; [exact Hins|].
    unfold bind at 1. rewrite Hins. unfold bind, logIngestion, ret.
    cbn [length]. split; [reflexivity|]. cbn. now rewrite Hlog, Hseq.
  - split; [discriminate|]. split; [reflexivity|].
    destruct (bulkInsert_rejected (p :: found) st Hall) as (e & Hins).
    exists e. unfold bind at 1. now rewrite Hins.
Qed.

(** Claim C4 fails.  The index page lists two chapters; the document
    of the first, chapter 349, cannot be downloaded, that of the
    second, chapter 591, can.  The first run indexes the three
    provisions of chapter 591 and leaves chapter 349 without record.
    The second run, over the same documents, does not return 0: the
    addresses of the two documents agree on their first 45 bytes and so
    share their cache file, [fetchPdf] serves chapter 349 the file that
    the first run stored for chapter 591, and three more provisions,
    with the text of chapter 591 under the name of chapter 349, are
    indexed and recorded. *)
Lemma ingestion_second_run_indexes_more :
  let first := main asciiLower parsedAs anyPath noiseOnly listedChapters
                    false emptyStore noFiles in
  let second := main asciiLower parsedAs anyPath noiseOnly listedChapters
                     false (store_of first) (files_of first) in
  total_of first = 3
  /\ total_provisions (store_of first) = 3
  /\ isIngested (js "municipal_code") (js "Chapter 591") (store_of first)
     = true
  /\ isIngested (js "municipal_code") (js "Chapter 349") (store_of first)
     = false
  /\ animalsUrl <> noiseUrl
  /\ Fetch.cacheKey animalsUrl = Fetch.cacheKey noiseUrl
  /\ total_of second = 3
  /\ total_provisions (store_of second) = 6
  /\ store_of second <> store_of first
  /\ map chapter (skipn 3 (provisions (store_of second)))
     = [Some (js "Chapter 349"); Some (js "Chapter 349");
        Some (js "Chapter 349")]
  /\ map content (skipn 3 (provisions (store_of second)))
     = map content (provisions (store_of first)).
Proof.
  cbn zeta.
  repeat match goal with |- _ /\ _ => split end;
    try (vm_compute; reflexivity).
  - vm_compute. discriminate.
  - intros E. apply (f_equal total_provisions) in E.
    vm_compute in E. discriminate.
Qed.

(* ================================================================== *)
(** * Properties of chunking and of term expansion *)
(* ================================================================== *)

(** With [overlap < chunkSize] the result of the chunking loop does not
    depend on the fuel once there is more of it than text left: the
    loop ends by its own tests. *)
Lemma chunk_loop_fuel (text : jsstring) (chunkSize overlap : Z) :
  (0 <= overlap < chunkSize)%Z ->
  forall fuel fuel' start,
    (0 <= start)%Z ->
    Z.to_nat (Z.of_nat (length text) - start) < fuel ->
    Z.to_nat (Z.of_nat (length text) - start) < fuel' ->
    chunk_loop fuel text chunkSize overlap start
    = chunk_loop fuel' text chunkSize overlap start.
Proof.
  intros Hov. induction fuel as [|fuel IH]; intros fuel' start Hs Hf Hf';
    [lia|].
  destruct fuel' as [|fuel']; [lia|]. cbn [chunk_loop].
  destruct (Z.ltb_spec start (Z.of_nat (length text))); [|reflexivity].
  destruct (Z.geb_spec
              (Z.min (start + chunkSize) (Z.of_nat (length text)) - overlap)
              (Z.of_nat (length text) - overlap)); [reflexivity|].
  f_equal. apply IH; lia.
Qed.

Lemma chunkBySize_more_fuel (text : jsstring) (extra : nat) :
  chunkBySize text 1500 200
  = chunk_loop (S (length text) + extra) text 1500 200 0.
Proof. unfold chunkBySize. apply chunk_loop_fuel; lia. Qed.

Lemma eqb_true (a b : jsstring) : eqb a b = true -> a = b.
Proof. unfold eqb. now destruct (list_eq_dec N.eq_dec a b). Qed.

Lemma In_setAdd_new (t : jsstring) (set : list jsstring) : In t (setAdd t set).
Proof.
  unfold setAdd. destruct (existsb (eqb t) set) eqn:E.
  - apply existsb_exists in E as (x & Hx & Ex). apply eqb_true in Ex. now subst.
  - apply in_or_app. right. now left.
Qed.

Lemma In_setAdd_old (t x : jsstring) (set : list jsstring) :
  In x set -> In x (setAdd t set).
Proof.
  unfold setAdd. destruct (existsb (eqb t) set); [easy|].
  intros H. apply in_or_app. now left.
Qed.

Lemma addAll_old (searchTerms x : jsstring) (terms : list jsstring) :
  In x terms -> In x (addAll searchTerms terms).
Proof.
  unfold addAll. generalize (splitChar 32 searchTerms) as l. intros l.
  revert terms. induction l as [|t l IH]; intros terms H; [exact H|].
  cbn [fold_left]. apply IH. now apply In_setAdd_old.
Qed.

Lemma addAll_new (searchTerms t : jsstring) (terms : list jsstring) :
  In t (splitChar 32 searchTerms) -> In t (addAll searchTerms terms).
Proof.
  unfold addAll. generalize (splitChar 32 searchTerms) as l. intros l.
  revert terms. induction l as [|t' l IH]; intros terms H; [easy|].
  cbn [fold_left]. destruct H as [->|H]; [|now apply IH].
  assert (Hkeep : forall l' ts, In t ts ->
            In t (fold_left (fun ts0 t0 => setAdd t0 ts0) l' ts)).
  { induction l' as [|u l' IH']; intros ts Hts; [exact Hts|].
    cbn [fold_left]. apply IH'. now apply In_setAdd_old. }
  apply Hkeep. apply In_setAdd_new.
Qed.

Lemma expandMappings_old (s x : jsstring) (table : list (jsstring * jsstring)) :
  forall terms, In x terms -> In x (expandMappings s table terms).
Proof.
  unfold expandMappings. induction table as [|m table IH]; intros terms H;
    [exact H|].
  cbn [fold_left]. apply IH.
  destruct (Regex.test (RegExp_i (fst m)) s); [now apply addAll_old|exact H].
Qed.

Lemma expandMappings_new (s t : jsstring) (table : list (jsstring * jsstring))
      (m : jsstring * jsstring) :
  In m table ->
  Regex.test (RegExp_i (fst m)) s = true ->
  In t (expansionTerms m) ->
  forall terms, In t (expandMappings s table terms).
Proof.
  intros Hm Htest Ht. induction table as [|m' table IH]; intros terms; [easy|].
  unfold expandMappings. cbn [fold_left].
  fold (expandMappings s table). destruct Hm as [->|Hm].
  - rewrite Htest. apply expandMappings_old. now apply addAll_new.
  - now apply IH.
Qed.

Lemma join_contains (sep t : jsstring) (l : list jsstring) :
  In t l -> exists x y, join sep l = x ++ t ++ y.
Proof.
  induction l as [|u l IH]; intros H; [easy|].
  destruct l as [|v l].
  - destruct H as [->|[]]. exists [], []. cbn. now rewrite app_nil_r.
  - change (join sep (u :: v :: l)) with (u ++ sep ++ join sep (v :: l)).
    destruct H as [->|H].
    + now exists [], (sep ++ join sep (v :: l)).
    + destruct (IH H) as (x & y & ->).
      exists (u ++ sep ++ x), y. now rewrite <- !app_assoc.
Qed.

(** A literal matches where its own characters stand. *)
Lemma exec_lit_i {R} (w rest : jsstring) (k : option N -> jsstring -> option R) :
  forall prev, exists prev', exec (lit_i w) prev (w ++ rest) k = k prev' rest.
Proof.
  unfold lit_i. induction w as [|c w IH]; intros prev; [now exists prev|].
  cbn [map seqs app exec].
  replace (chr_i c c) with true by (unfold chr_i; now rewrite N.eqb_refl).
  apply IH.
Qed.

Lemma matchesAt_lit_i (w rest : jsstring) (prev : option N) :
  matchesAt (lit_i w) prev (w ++ rest) = true.
Proof.
  unfold matchesAt, matchAt.
  destruct (exec_lit_i w rest (fun _ r => Some r) prev) as (prev' & ->).
  reflexivity.
Qed.

Lemma matchesAt_alts (l : list regex) (r : regex) (prev : option N)
      (s : jsstring) :
  In r l -> matchesAt r prev s = true -> matchesAt (alts l) prev s = true.
Proof.
  induction l as [|r1 l IH]; intros Hin Hr; [easy|].
  destruct l as [|r2 l].
  - destruct Hin as [->|[]]. exact Hr.
  - change (alts (r1 :: r2 :: l)) with (Alt r1 (alts (r2 :: l))).
    unfold matchesAt, matchAt in *. cbn [exec].
    destruct (exec r1 prev s (fun _ rest => Some rest)) eqn:E1; [reflexivity|].
    destruct Hin as [->|Hin]; [now rewrite E1 in Hr|].
    now apply IH.
Qed.

Lemma test_from_at (r : regex) (a s : jsstring) :
  (forall prev, matchesAt r prev s = true) ->
  forall prev, test_from r prev (a ++ s) = true.
Proof.
  intros Hr. induction a as [|c a IH]; intros prev.
  - cbn [app]. destruct s; cbn [test_from]; now rewrite Hr.
  - cbn [app test_from]. rewrite IH. apply orb_true_r.
Qed.

(** A trigger pattern matches every text in which one of its phrases
    stands. *)
Lemma trigger_matches (patterns phrase a b : jsstring) :
  In phrase (splitChar 124 patterns) ->
  Regex.test (RegExp_i patterns) (a ++ phrase ++ b) = true.
Proof.
  intros Hin. unfold Regex.test. apply test_from_at. intros prev.
  unfold RegExp_i. apply matchesAt_alts with (r := lit_i phrase).
  - now apply in_map.
  - apply matchesAt_lit_i.
Qed.

Lemma mappings_wellFormed : forallb entryWellFormed mappings = true.
Proof. vm_compute. reflexivity. Qed.

Lemma asciiLower_lowersAsciiRuns : lowersAsciiRuns asciiLower.
Proof.
  intros a w b _. exists (asciiLower a), (asciiLower b).
  unfold asciiLower. now rewrite !map_app.
Qed.

Section ExpansionProperties.

Variable toLowerCase : jsstring -> jsstring.
Hypothesis toLowerCase_ascii : lowersAsciiRuns toLowerCase.

Lemma searchTermSet_old (story x : jsstring) :
  In x (expandMappings (toLowerCase story) mappings []) ->
  In x (searchTermSet toLowerCase story).
Proof.
  unfold searchTermSet.
  generalize (matchAll locationPattern (toLowerCase story)) as locs.
  generalize (expandMappings (toLowerCase story) mappings []) as terms.
  intros terms locs. revert terms.
  induction locs as [|l locs IH]; intros terms H; [exact H|].
  cbn [fold_left]. apply IH. now apply In_setAdd_old.
Qed.

(** The coverage of a trigger phrase written in any mixture of upper
    and lower case. *)
Lemma expansion_covers_trigger_any_case
      (entry : jsstring * jsstring) (phrase story a w b : jsstring) :
  In entry mappings ->
  In phrase (triggerPhrases entry) ->
  story = a ++ w ++ b ->
  forallb isAscii w = true ->
  map lowerAscii w = phrase ->
  extractSearchTerms toLowerCase story <> []
  /\ (exists t, In t (expansionTerms entry) /\ t <> []
                /\ exists x y,
                     extractSearchTerms toLowerCase story = x ++ t ++ y)
  /\ (forall t, In t (expansionTerms entry) ->
                In t (searchTermSet toLowerCase story)
                /\ exists x y,
                     extractSearchTerms toLowerCase story = x ++ t ++ y).
Proof.
  intros Hentry Hphrase -> Hascii Hw.
  destruct (toLowerCase_ascii a w b Hascii) as (a' & b' & Hlow).
  rewrite Hw in Hlow.
  assert (Hall : forall t, In t (expansionTerms entry) ->
            In t (searchTermSet toLowerCase (a ++ w ++ b))
            /\ exists x y,
                 extractSearchTerms toLowerCase (a ++ w ++ b) = x ++ t ++ y).
  { intros t Ht.
    assert (Hin : In t (searchTermSet toLowerCase (a ++ w ++ b))).
    { apply searchTermSet_old. rewrite Hlow.
      apply expandMappings_new with (m := entry); auto.
      now apply trigger_matches. }
    split; [exact Hin|]. now apply join_contains. }
  pose proof mappings_wellFormed as Hwf. rewrite forallb_forall in Hwf.
  specialize (Hwf entry Hentry). unfold entryWellFormed in Hwf.
  apply andb_true_iff in Hwf as [Hwf Hsome].
  apply andb_true_iff in Hwf as [_ Hterms].
  rewrite forallb_forall in Hterms.
  destruct (expansionTerms entry) as [|t ts] eqn:Et; [discriminate|].
  assert (Htne : t <> []).
  { specialize (Hterms t (or_introl eq_refl)). now destruct t. }
  destruct (Hall t (or_introl eq_refl)) as (_ & x & y & Hout).
  split; [|split].
  - rewrite Hout. intros E. apply app_eq_nil in E as [_ E].
    apply app_eq_nil in E as [E _]. contradiction.
  - exists t. split; [now left|]. split; [exact Htne|]. now exists x, y.
  - exact Hall.
Qed.

(** Claim C9.  For every entry of the mapping table and every trigger
    phrase of the entry, a story that contains the phrase makes
    [extractSearchTerms] return a string that is not empty and contains
    an expansion term of the entry; indeed every expansion term of the
    entry is in the term set and is a substring of the returned
    string. *)
Theorem expansion_covers_trigger
        (entry : jsstring * jsstring) (phrase story a b : jsstring) :
  In entry mappings ->
  In phrase (triggerPhrases entry) ->
  story = a ++ phrase ++ b ->
  extractSearchTerms toLowerCase story <> []
  /\ (exists t, In t (expansionTerms entry) /\ t <> []
                /\ exists x y,
                     extractSearchTerms toLowerCase story = x ++ t ++ y)
  /\ (forall t, In t (expansionTerms entry) ->
                In t (searchTermSet toLowerCase story)
                /\ exists x y,
                     extractSearchTerms toLowerCase story = x ++ t ++ y).
Proof.
  intros Hentry Hphrase Hstory.
  pose proof mappings_wellFormed as Hwf. rewrite forallb_forall in Hwf.
  specialize (Hwf entry Hentry). unfold entryWellFormed in Hwf.
  apply andb_true_iff in Hwf as [Hwf _].
  apply andb_true_iff in Hwf as [Hphrases _].
  rewrite forallb_forall in Hphrases. specialize (Hphrases phrase Hphrase).
  apply andb_true_iff in Hphrases as [Hascii Hlower].
  apply eqb_true in Hlower.
  now apply expansion_covers_trigger_any_case
    with (phrase := phrase) (a := a) (w := phrase) (b := b).
Qed.

End ExpansionProperties.

(** Claim C9 on a story with the phrase [streetcar]. *)
Lemma expansion_covers_trigger_witness :
  let entry := nth 0 mappings ([], []) in
  extractSearchTerms asciiLower streetcarStory <> []
  /\ (exists t, In t (expansionTerms entry) /\ t <> []
                /\ exists x y,
                     extractSearchTerms asciiLower streetcarStory = x ++ t ++ y)
  /\ (forall t, In t (expansionTerms entry) ->
                In t (searchTermSet asciiLower streetcarStory)
                /\ exists x y,
                     extractSearchTerms asciiLower streetcarStory = x ++ t ++ y).
Proof.
  apply (@expansion_covers_trigger asciiLower asciiLower_lowersAsciiRuns
           (nth 0 mappings ([], [])) (js "streetcar") streetcarStory
           (js "I was late because the ")
           (js " did not come on Queen Street")).
  - left; reflexivity.
  - vm_compute. do 3 right. left. reflexivity.
  - reflexivity.
Defined.

(* ================================================================== *)
(** * The download cache *)
(* ================================================================== *)

Lemma toBase64_triple (a b c : N) (rest : list N) :
  Buffer.toBase64 (a :: b :: c :: rest)
  = [Buffer.base64Char (a / 4); Buffer.base64Char ((a mod 4) * 16 + b / 16);
     Buffer.base64Char ((b mod 16) * 4 + c / 64);
     Buffer.base64Char (c mod 64)]%N
    ++ Buffer.toBase64 rest.
Proof. reflexivity. Qed.

(** Base64 works on groups of three bytes. *)
Lemma toBase64_groups (k : nat) :
  forall front back,
    length front = 3 * k ->
    Buffer.toBase64 (front ++ back)
    = Buffer.toBase64 front ++ Buffer.toBase64 back
    /\ length (Buffer.toBase64 front) = 4 * k.
Proof.
  induction k as [|k IH]; intros front back Hlen.
  - destruct front; [now split|discriminate].
  - destruct front as [|a [|b [|c front]]]; try (cbn in Hlen; lia).
    destruct (IH front back) as [E L]; [cbn in Hlen; lia|].
    change ((a :: b :: c :: front) ++ back) with (a :: b :: c :: front ++ back).
    rewrite !toBase64_triple, E. split.
    + now rewrite <- app_assoc.
    + rewrite length_app, L. cbn [length]. lia.
Qed.

(** The cache key is a function of the first 45 bytes of the URL. *)
Lemma cacheKey_first_45 (url : jsstring) :
  Fetch.cacheKey url
  = firstn 60 (Buffer.toBase64 (firstn 45 (Buffer.from url))).
Proof.
  unfold Fetch.cacheKey. rewrite (slice_prefix _ 60).
  destruct (Nat.le_gt_cases 45 (length (Buffer.from url))) as [H|H].
  - rewrite <- (firstn_skipn 45 (Buffer.from url)) at 1.
    destruct (toBase64_groups 15 (firstn 45 (Buffer.from url))
                (skipn 45 (Buffer.from url))) as [E L].
    { rewrite length_firstn. lia. }
    rewrite E, firstn_app, L.
    change (60 - 4 * 15) with 0. cbn [firstn]. now rewrite app_nil_r.
  - rewrite (firstn_all2 (n := 45)); [reflexivity|lia].
Qed.

(** Extra X1.  The name of a cache file is made of at most 60
    characters that depend on the first 45 bytes of the URL only: two
    URLs that agree on these bytes have the same cache key. *)
Theorem cacheKey_collision (url1 url2 : jsstring) :
  firstn 45 (Buffer.from url1) = firstn 45 (Buffer.from url2) ->
  Fetch.cacheKey url1 = Fetch.cacheKey url2
  /\ length (Fetch.cacheKey url1) <= 60.
Proof.
  intros H. rewrite !cacheKey_first_45, H. split; [reflexivity|].
  apply firstn_le_length.
Qed.

(** Extra X1 on the first two volumes of the zoning by-law. *)
Lemma cacheKey_collision_witness :
  zoningVol1Url <> zoningVol2Url
  /\ Fetch.cacheKey zoningVol1Url = Fetch.cacheKey zoningVol2Url
  /\ length (Fetch.cacheKey zoningVol1Url) <= 60.
Proof.
  split; [vm_compute; discriminate|].
  apply (@cacheKey_collision zoningVol1Url zoningVol2Url).
  vm_compute. reflexivity.
Defined.

Lemma pathEqb_refl (p : list jsstring) : Fetch.pathEqb p p = true.
Proof.
  unfold Fetch.pathEqb.
  now destruct (list_eq_dec (list_eq_dec N.eq_dec) p p).
Qed.

(** Extra X2.  Once [fetchPdf] has returned a document for a URL, every
    later call for this URL, or for any URL with the same first 45
    bytes, returns that same document from the cache and leaves the
    cache as it is, whatever the network would answer. *)
Theorem fetchPdf_served_from_cache
        (A : Type) (writable : list jsstring -> bool)
        (httpGet httpGet' : jsstring -> result (Fetch.response A))
        (url1 url2 : jsstring) (fs fs' : Fetch.files A) (document : A) :
  firstn 45 (Buffer.from url1) = firstn 45 (Buffer.from url2) ->
  Fetch.fetchPdf writable httpGet url1 fs = (Ok document, fs') ->
  Fetch.fetchPdf writable httpGet' url2 fs' = (Ok document, fs').
Proof.
  intros Hkey H. unfold Fetch.fetchPdf in *.
  assert (Ek : Fetch.cacheKey url1 = Fetch.cacheKey url2)
    by (now rewrite !cacheKey_first_45, Hkey).
  rewrite <- Ek. clear Ek.
  set (p := Fetch.cachePath (Fetch.cacheKey url1 ++ js ".pdf")) in *.
  destruct (fs p) as [b|] eqn:Ehit.
  - injection H as <- <-. now rewrite Ehit.
  - destruct (httpGet url1) as [res|e]; [|discriminate].
    destruct (negb (Fetch.ok res)); [discriminate|].
    destruct (writable p); [|discriminate].
    injection H as <- <-. unfold Fetch.writeFile.
    now rewrite pathEqb_refl.
Qed.

(** Extra X2: the second volume of the zoning by-law is answered with
    the cached first volume. *)
Lemma fetchPdf_served_from_cache_witness :
  let first := Fetch.fetchPdf (fun _ => true) (serveAll (js "volume 1"))
                              zoningVol1Url noFiles in
  fst first = Ok (js "volume 1")
  /\ Fetch.fetchPdf (fun _ => true) (serveAll (js "volume 2")) zoningVol2Url
                    (snd first)
     = (Ok (js "volume 1"), snd first).
Proof.
  cbn zeta. split; [vm_compute; reflexivity|].
  apply (@fetchPdf_served_from_cache jsstring (fun _ => true)
           (serveAll (js "volume 1")) (serveAll (js "volume 2"))
           zoningVol1Url zoningVol2Url noFiles).
  - vm_compute. reflexivity.
  - vm_compute. reflexivity.
Defined.

(* ================================================================== *)
(** * The store under insertion *)
(* ================================================================== *)

Lemma maxId_nonneg (rows : list row) : (0 <= maxId rows)%Z.
Proof. unfold maxId. induction rows; cbn [fold_right]; lia. Qed.

Lemma maxId_app (rows : list row) (r : row) :
  maxId (rows ++ [r]) = Z.max (maxId rows) (Z.max (id r) 0).
Proof.
  unfold maxId. induction rows as [|x rows IH]; cbn [app fold_right]; lia.
Qed.

Lemma maxId_bound (rows : list row) (r : row) :
  In r rows -> (id r <= maxId rows)%Z.
Proof.
  unfold maxId. induction rows as [|x rows IH]; [easy|].
  intros [->|H]; cbn [fold_right]; [lia|]. specialize (IH H). lia.
Qed.

Lemma idsFrom_succ (base : Z) (n : nat) :
  idsFrom base (S n) = (base + 1)%Z :: idsFrom (base + 1) n.
Proof.
  unfold idsFrom. cbn [seq map]. f_equal; [lia|].
  rewrite <- seq_shift, map_map. apply map_ext. intros k. lia.
Qed.

Lemma idsFrom_above (base : Z) (n : nat) (i : Z) :
  In i (idsFrom base n) -> (base < i)%Z.
Proof.
  unfold idsFrom. intros H. apply in_map_iff in H as (k & <- & _). lia.
Qed.

Lemma idsFrom_NoDup (base : Z) (n : nat) : NoDup (idsFrom base n).
Proof.
  unfold idsFrom. apply NoDup_map_injective; [|apply seq_NoDup].
  intros x y H. lia.
Qed.

(** One accepted INSERT. *)
Lemma insert_run_row (v : provision) (st : store) :
  insertable v = true ->
  exists r st',
    insert_run v st = (Ok (id r), st')
    /\ id r = (idBase st + 1)%Z
    /\ p_source v = Some (source r)
    /\ p_content v = Some (content r)
    /\ chapter r = p_chapter v
    /\ chapter_title r = p_chapter_title v
    /\ section r = p_section v
    /\ section_title r = p_section_title v
    /\ summary r = p_summary v
    /\ pdf_url r = p_pdf_url v
    /\ keywords r = p_keywords v
    /\ provisions st' = provisions st ++ [r]
    /\ provisions_fts st' = provisions_fts st ++ [ftsOf r]
    /\ ingestion_log st' = ingestion_log st
    /\ seq_log st' = seq_log st
    /\ idBase st' = (idBase st + 1)%Z.
Proof.
  unfold insertable, insert_run, idBase.
  destruct (p_source v) as [src|], (p_content v) as [body|]; try discriminate.
  intros _. eexists (mkRow _ _ _ _ _ _ _ _ _ _). eexists.
  split; [reflexivity|]. cbn.
  repeat (split; [reflexivity|]).
  rewrite maxId_app. cbn.
  pose proof (maxId_nonneg (provisions st)). lia.
Qed.

(** The loop of [bulkInsert] on acceptable records: one row for each
    record, in order, with the ids that follow. *)
Lemma bulkInsert_loop_rows (items : list provision) :
  forall st,
    forallb insertable items = true ->
    exists rows st',
      forOf items (fun item =>
        (_ <- insert_run
                (mkProvision (p_source item) (p_chapter item)
                   (p_chapter_title item) (orNull (p_section item))
                   (orNull (p_section_title item)) (p_content item)
                   (orNull (p_summary item)) (orNull (p_pdf_url item))
                   (orNull (p_keywords item))) ;;
         ret tt)%db) st = (Ok tt, st')
      /\ Forall2 storedAs items rows
      /\ map id rows = idsFrom (idBase st) (length items)
      /\ provisions st' = provisions st ++ rows
      /\ provisions_fts st' = provisions_fts st ++ map ftsOf rows
      /\ ingestion_log st' = ingestion_log st
      /\ seq_log st' = seq_log st.
Proof.
  induction items as [|item items IH]; intros st Hall.
  - exists [], st. cbn. rewrite !app_nil_r. repeat split. constructor.
  - cbn [forallb] in Hall. apply andb_true_iff in Hall as [Hi Hall].
    rewrite forOf_cons. unfold bind at 1.
    destruct (@insert_run_row _ st (eq_trans (insertable_bound item) Hi))
      as (r & st1 & -> & Hid & Hsrc & Hbody & Hch & Hct & Hsec & Hst & Hsum
          & Hurl & Hkw & Hp & Hf & Hlog & Hseq & Hbase).
    cbn [ret]. destruct (IH st1 Hall)
      as (rows & st' & -> & Hrows & Hids & Hp' & Hf' & Hlog' & Hseq').
    exists (r :: rows), st'. split; [reflexivity|]. split.
    { constructor; [|exact Hrows]. unfold storedAs. cbn in *. auto 10. }
    split.
    { cbn [map length]. rewrite idsFrom_succ, Hid, Hids, Hbase. reflexivity. }
    rewrite Hp', Hf', Hp, Hf, Hlog', Hseq', Hlog, Hseq. cbn [map].
    rewrite <- !app_assoc. now repeat split.
Qed.

(** Extra X3.  When every record of the batch has its source and its
    content, [bulkInsert] returns the size of the batch and adds one
    row for each record at the end of the table, in the order of the
    batch: the row holds the fields of the record, with an empty or
    missing section, section title, summary, URL and keyword string
    stored as NULL; the ids are the next consecutive ids, above every
    id in use; each row has its index entry and the ingestion log is
    untouched. *)
Theorem bulkInsert_appends_rows (items : list provision) (st : store) :
  forallb insertable items = true ->
  exists rows st',
    bulkInsert items st = (Ok (length items), st')
    /\ Forall2 storedAs items rows
    /\ map id rows = idsFrom (idBase st) (length items)
    /\ (forall r old, In r rows -> In old (provisions st) ->
                      (id old < id r)%Z)
    /\ provisions st' = provisions st ++ rows
    /\ provisions_fts st' = provisions_fts st ++ map ftsOf rows
    /\ ingestion_log st' = ingestion_log st.
Proof.
  intros Hall.
  destruct (bulkInsert_loop_rows items st Hall)
    as (rows & st' & Hloop & Hrows & Hids & Hp & Hf & Hlog & _).
  exists rows, st'. rewrite bulkInsert_unfold, Hloop.
  repeat split; auto.
  intros r old Hr Hold.
  assert (Hin : In (id r) (idsFrom (idBase st) (length items)))
    by (rewrite <- Hids; now apply in_map).
  apply idsFrom_above in Hin. pose proof (maxId_bound _ _ Hold).
  unfold idBase in Hin. lia.
Qed.

(** Extra X3 on a batch of two records, the second without keywords. *)
Lemma bulkInsert_appends_rows_witness :
  exists rows st',
    bulkInsert [goodProvision; emptyKeywords] sampleStore = (Ok 2, st')
    /\ Forall2 storedAs [goodProvision; emptyKeywords] rows
    /\ map id rows = [3; 4]%Z
    /\ (forall r old, In r rows -> In old (provisions sampleStore) ->
                      (id old < id r)%Z)
    /\ provisions st' = provisions sampleStore ++ rows
    /\ provisions_fts st' = provisions_fts sampleStore ++ map ftsOf rows
    /\ ingestion_log st' = ingestion_log sampleStore.
Proof.
  destruct (@bulkInsert_appends_rows [goodProvision; emptyKeywords] sampleStore
              eq_refl) as (rows & st' & H).
  exists rows, st'. exact H.
Defined.

(** Extra X4.  [insertProvision] either throws, because the source or
    the content is missing, and leaves the store as it was, or adds one
    row at the end of the table and returns its id, the next id above
    every id in use.  The row holds the nine fields given: source,
    chapter, chapter title, section, section title and content as they
    are, summary, URL and keyword string with an empty or missing value
    stored as NULL.  The row has its index entry and the ingestion log
    is untouched. *)
Theorem insertProvision_outcome (v : provision) (st : store) :
  (insertable v = false /\ exists e, insertProvision v st = (Throw e, st))
  \/ (insertable v = true
      /\ exists r st',
           insertProvision v st = (Ok (id r), st')
           /\ insertedAs v r
           /\ id r = (idBase st + 1)%Z
           /\ (forall old, In old (provisions st) -> (id old < id r)%Z)
           /\ provisions st' = provisions st ++ [r]
           /\ provisions_fts st' = provisions_fts st ++ [ftsOf r]
           /\ ingestion_log st' = ingestion_log st
           /\ seq_log st' = seq_log st).
Proof.
  unfold insertProvision.
  set (bound := mkProvision _ _ _ _ _ _ _ _ _).
  assert (Hb : insertable bound = insertable v) by reflexivity.
  destruct (insertable v) eqn:Ei; [right|left]; split; try reflexivity.
  - destruct (@insert_run_row bound st Hb)
      as (r & st' & Hrun & Hid & Hsrc & Hbody & Hch & Hct & Hsec & Hst & Hsum
          & Hurl & Hkw & Hp & Hf & Hlog & Hseq & _).
    exists r, st'. split; [exact Hrun|]. split; [|split; [exact Hid|]].
    + unfold insertedAs. repeat split; assumption.
    + split; [|repeat split; assumption].
      intros old Hold. pose proof (maxId_bound _ _ Hold).
      unfold idBase in Hid. lia.
  - now apply insert_run_rejected.
Qed.

(** Extra X4 on a record with every field given, its keyword string
    empty. *)
Lemma insertProvision_outcome_witness :
  exists r st',
    insertProvision emptyKeywords sampleStore = (Ok 3%Z, st')
    /\ r = mkRow 3 (js "zoning_bylaw") (Some (js "Official Plan"))
                 (Some (js "Consolidated Official Plan")) (Some [])
                 None (js "Policies for the downtown are set out here.")
                 None None None
    /\ provisions st' = provisions sampleStore ++ [r].
Proof.
  destruct (insertProvision_outcome emptyKeywords sampleStore)
    as [(Hbad & _)|(_ & r & st' & Hrun & Hrow & Hid & _ & Hp & _)];
    [discriminate|].
  exists r, st'.
  assert (Er : r = mkRow 3 (js "zoning_bylaw") (Some (js "Official Plan"))
                     (Some (js "Consolidated Official Plan")) (Some [])
                     None (js "Policies for the downtown are set out here.")
                     None None None).
  { destruct r as [i src ch ct sec sti body sm url kw].
    destruct Hrow as (Hsrc & Hbody & Hch & Hct & Hsec & Hst & Hsum & Hurl
                      & Hkw).
    cbn in Hsrc, Hbody, Hch, Hct, Hsec, Hst, Hsum, Hurl, Hkw, Hid.
    injection Hsrc as <-. injection Hbody as <-. now subst. }
  split; [now rewrite Hrun, Er|]. split; [exact Er|exact Hp].
Defined.

(* ================================================================== *)
(** * Ingestion as a sequence of added chapters *)
(* ================================================================== *)

Lemma ingested_trans (a b c : store) (n m : nat) :
  ingested a n b -> ingested b m c -> ingested a (n + m) c.
Proof.
  intros Hab Hbc. induction Hbc as [|m mid c src ref rows Hbc IH Hadd].
  - now rewrite Nat.add_0_r.
  - rewrite Nat.add_assoc. econstructor; eauto.
Qed.

Lemma Forall2_storedAs_fields (src chap : jsstring) (found : list provision)
      (rows : list row) :
  Forall2 storedAs found rows ->
  (forall p, In p found -> p_source p = Some src /\ p_chapter p = Some chap) ->
  Forall (fun r => source r = src /\ chapter r = Some chap) rows.
Proof.
  induction 1 as [|p r found rows Hpr _ IH]; intros Hall; constructor.
  - destruct (Hall p (or_introl eq_refl)) as [Hs Hc].
    destruct Hpr as (Hsrc & _ & Hch & _). split; congruence.
  - apply IH. intros q Hq. apply Hall. now right.
Qed.

(** What the part after the segmentation does with acceptable
    provisions of one (source, chapter). *)
Lemma indexChapter_adds (src chapterRef : jsstring) (found : list provision)
      (st : store) :
  found <> [] ->
  isIngested src chapterRef st = false ->
  (forall p, In p found ->
             insertable p = true
             /\ p_source p = Some src /\ p_chapter p = Some chapterRef) ->
  exists rows st',
    indexChapter src chapterRef found st = (Ok (length rows), st')
    /\ length rows = length found
    /\ Forall2 storedAs found rows
    /\ chapterAdded src chapterRef rows st st'.
Proof.
  intros Hne Hnew Hall.
  assert (Hins : forallb insertable found = true).
  { apply forallb_forall. intros p Hp. now apply Hall. }
  destruct (bulkInsert_loop_rows found st Hins)
    as (rows & mid & Hloop & Hrows & Hids & Hp & Hf & Hlog & Hseq).
  pose proof (Forall2_length Hrows) as Hlen.
  assert (Hpos : (0 <? length found) = true)
    by (destruct found; [easy|reflexivity]).
  assert (Hrun : indexChapter src chapterRef found st
                 = (Ok (length found),
                    mkStore (provisions mid) (provisions_fts mid)
                            (ingestion_log mid
                             ++ [mkLog (seq_log mid + 1) src (Some chapterRef)
                                       (js "completed") (length found)])
                            (seq_provisions mid) (seq_log mid + 1))).
  { unfold indexChapter. rewrite Hpos. unfold bind at 1.
    rewrite bulkInsert_unfold, Hloop. reflexivity. }
  exists rows. eexists. split; [rewrite Hrun, Hlen; reflexivity|].
  split; [now rewrite Hlen|]. split; [exact Hrows|].
  unfold chapterAdded. cbn [provisions provisions_fts ingestion_log].
  rewrite Hlog, Hseq, <- Hlen.
  repeat split; auto.
  - intros ->. destruct found; [easy|inversion Hrows].
  - apply Forall2_storedAs_fields with (found := found); auto.
    intros p Hin. now apply Hall.
Qed.

Section IngestionTrace.

Variable toLowerCase : jsstring -> jsstring.
Variable pdf : Type.
Variable pdfParse : pdf -> result (option jsstring).
Variable writable : list jsstring -> bool.
Variable httpGet : jsstring -> result (Fetch.response pdf).

(** Every provision the segmenter emits carries the source and the
    chapter it was called with and is accepted by the INSERT. *)
Lemma extractAndChunk_fields (pdfBuffer : pdf)
      (src chap chapterTitle pdfUrl : jsstring) (p : provision) :
  In p (extractAndChunk toLowerCase pdfParse pdfBuffer src chap chapterTitle
                        pdfUrl) ->
  insertable p = true /\ p_source p = Some src /\ p_chapter p = Some chap.
Proof.
  intros H. apply extractAndChunk_inv in H as (text & i & c & _ & _ & -> & _).
  now repeat split.
Qed.

(** One turn of a loop changes nothing in the store or adds one
    chapter, whatever the cache and the network give. *)
Lemma ingestChapter_effect (src chapterRef chapterTitle pdfUrl : jsstring)
      (n : nat) (st : store) (fs : Fetch.files pdf) :
  exists fs',
    ingestChapter toLowerCase pdfParse writable httpGet src chapterRef
                  chapterTitle pdfUrl (n, st, fs) = (n, st, fs')
    \/ exists rows st',
         ingestChapter toLowerCase pdfParse writable httpGet src chapterRef
                       chapterTitle pdfUrl (n, st, fs)
         = (n + length rows, st', fs')
         /\ chapterAdded src chapterRef rows st st'.
Proof.
  unfold ingestChapter.
  destruct (isIngested src chapterRef st) eqn:Enew; [exists fs; now left|].
  unfold tryChapter.
  destruct (Fetch.fetchPdf writable httpGet pdfUrl fs) as [[buf|e] fs'];
    exists fs'; [|now left].
  set (found := extractAndChunk toLowerCase pdfParse buf src chapterRef
                                chapterTitle pdfUrl).
  destruct found as [|p0 found'] eqn:Ef.
  - left. cbn. now rewrite Nat.add_0_r.
  - right.
    destruct (@indexChapter_adds src chapterRef (p0 :: found') st)
      as (rows & st' & Hidx & _ & _ & Hadd); [discriminate|exact Enew| |].
    { intros p Hp. rewrite <- Ef in Hp. subst found.
      now apply extractAndChunk_fields in Hp. }
    exists rows, st'. now rewrite Hidx.
Qed.

Lemma ingestLoop_trace {U} (f : nat * store * Fetch.files pdf -> U
                                -> nat * store * Fetch.files pdf)
      (units : list U) :
  (forall u n st fs,
      exists fs',
        f (n, st, fs) u = (n, st, fs')
        \/ exists src chapterRef rows st',
             f (n, st, fs) u = (n + length rows, st', fs')
             /\ chapterAdded src chapterRef rows st st') ->
  forall st0 n st fs,
    ingested st0 n st ->
    ingested st0 (total_of (fold_left f units (n, st, fs)))
             (store_of (fold_left f units (n, st, fs))).
Proof.
  intros Hf. induction units as [|u units IH]; intros st0 n st fs H;
    [exact H|].
  cbn [fold_left].
  destruct (Hf u n st fs)
    as (fs' & [->|(src & ref & rows & st' & -> & Hadd)]).
  - now apply IH.
  - apply IH. econstructor; eauto.
Qed.

Lemma ingestMunicipalCode_trace (chapters : list chapterLink) (doAll : bool)
      (st : store) (fs : Fetch.files pdf) :
  ingested st
    (total_of (ingestMunicipalCode toLowerCase pdfParse writable httpGet
                 chapters doAll st fs))
    (store_of (ingestMunicipalCode toLowerCase pdfParse writable httpGet
                 chapters doAll st fs)).
Proof.
  unfold ingestMunicipalCode. apply ingestLoop_trace; [|constructor].
  intros u n s f.
  destruct (ingestChapter_effect (js "municipal_code") (chapterRefOf u)
              (title u) (url u) n s f) as (fs' & [H|(rows & st' & H)]);
    exists fs'; [now left|].
  right. eauto.
Qed.

Lemma ingestZoningBylaw_trace (st : store) (fs : Fetch.files pdf) :
  ingested st
    (total_of (ingestZoningBylaw toLowerCase pdfParse writable httpGet st fs))
    (store_of (ingestZoningBylaw toLowerCase pdfParse writable httpGet st fs)).
Proof.
  unfold ingestZoningBylaw. apply ingestLoop_trace; [|constructor].
  intros u n s f.
  destruct (ingestChapter_effect (js "zoning_bylaw") (item_chapter u)
              (js "Zoning By-law 569-2013 " ++ [emDash] ++ js " "
                  ++ item_title u)
              (item_url u) n s f) as (fs' & [H|(rows & st' & H)]);
    exists fs'; [now left|].
  right. eauto.
Qed.

Lemma ingestOfficialPlan_trace (st : store) (fs : Fetch.files pdf) :
  ingested st
    (total_of (ingestOfficialPlan toLowerCase pdfParse writable httpGet st fs))
    (store_of (ingestOfficialPlan toLowerCase pdfParse writable httpGet st fs)).
Proof.
  unfold ingestOfficialPlan. apply ingestLoop_trace; [|constructor].
  intros u n s f.
  destruct (ingestChapter_effect (js "official_plan") (item_chapter u)
              (item_title u) (item_url u) n s f)
    as (fs' & [H|(rows & st' & H)]);
    exists fs'; [now left|].
  right. eauto.
Qed.

(** A run of [main] is a sequence of added chapters, and the number it
    returns is the number of provisions they hold. *)
Lemma main_trace (chapters : list chapterLink) (doAll : bool) (st : store)
      (fs : Fetch.files pdf) :
  ingested st
    (total_of (main toLowerCase pdfParse writable httpGet chapters doAll st fs))
    (store_of (main toLowerCase pdfParse writable httpGet chapters doAll st fs)).
Proof.
  unfold main.
  pose proof (ingestMunicipalCode_trace chapters doAll st fs) as H1.
  destruct (ingestMunicipalCode toLowerCase pdfParse writable httpGet chapters
              doAll st fs) as [[a s1] f1].
  pose proof (ingestZoningBylaw_trace s1 f1) as H2.
  destruct (ingestZoningBylaw toLowerCase pdfParse writable httpGet s1 f1)
    as [[b s2] f2].
  pose proof (ingestOfficialPlan_trace s2 f2) as H3.
  destruct (ingestOfficialPlan toLowerCase pdfParse writable httpGet s2 f2)
    as [[c s3] f3].
  unfold total_of, store_of in *. cbn [fst snd] in *.
  exact (ingested_trans (ingested_trans H1 H2) H3).
Qed.

End IngestionTrace.

(** ** What a sequence of added chapters keeps *)

Lemma ingested_count (st st' : store) (n : nat) :
  ingested st n st' ->
  total_provisions st' = total_provisions st + n.
Proof.
  unfold total_provisions.
  induction 1 as [|n mid st' src ref rows _ IH (_ & _ & Hp & _)]; [lia|].
  rewrite Hp, length_app, IH. lia.
Qed.

Lemma ingested_appends (st st' : store) (n : nat) :
  ingested st n st' ->
  exists rows entries records,
    provisions st' = provisions st ++ rows
    /\ provisions_fts st' = provisions_fts st ++ entries
    /\ ingestion_log st' = ingestion_log st ++ records.
Proof.
  induction 1 as [|n mid st' src ref rows _ IH (_ & _ & Hp & Hf & Hl & _)].
  - exists [], [], []. now rewrite !app_nil_r.
  - destruct IH as (rows0 & entries0 & records0 & Ep & Ef & El).
    rewrite Hp, Hf, Hl, Ep, Ef, El.
    do 3 eexists. rewrite <- !app_assoc. repeat split.
Qed.

Lemma ingested_sync (st st' : store) (n : nat) :
  ingested st n st' -> indexInSync st -> indexInSync st'.
Proof.
  unfold indexInSync.
  induction 1 as [|n mid st' src ref rows _ IH (_ & _ & Hp & Hf & _)];
    intros Hsync; [exact Hsync|].
  rewrite Hf, Hp, map_app, (IH Hsync). reflexivity.
Qed.

Lemma ingested_ids (st st' : store) (n : nat) :
  ingested st n st' ->
  NoDup (map id (provisions st)) -> NoDup (map id (provisions st')).
Proof.
  induction 1 as [|n mid st' src ref rows _ IH (_ & _ & Hp & _ & _ & _ & Hids)];
    intros Hnd; [exact Hnd|].
  rewrite Hp, map_app, Hids. apply NoDup_app.
  - now apply IH.
  - apply idsFrom_NoDup.
  - intros i Hold Hnew. apply idsFrom_above in Hnew.
    apply in_map_iff in Hold as (r & <- & Hr).
    pose proof (maxId_bound _ _ Hr). unfold idBase in Hnew. lia.
Qed.

Lemma isIngested_key (src chapterRef : jsstring) (st : store) :
  isIngested src chapterRef st = true
  <-> In (src, Some chapterRef) (map logKey (ingestion_log st)).
Proof.
  unfold isIngested. rewrite existsb_exists. split.
  - intros (l & Hl & H). apply andb_true_iff in H as [Hs Hc].
    apply eqb_true in Hs. destruct (log_chapter l) as [c|] eqn:Ec; [|easy].
    apply eqb_true in Hc. subst. apply in_map_iff. exists l.
    unfold logKey. now rewrite Ec.
  - intros H. apply in_map_iff in H as (l & Hk & Hl).
    unfold logKey in Hk. injection Hk as Hs Hc.
    exists l. split; [exact Hl|]. now rewrite Hs, Hc, !eqb_refl.
Qed.

Lemma inChapter_true (src chapterRef : jsstring) (r : row) :
  inChapter src chapterRef r = true
  <-> source r = src /\ chapter r = Some chapterRef.
Proof.
  unfold inChapter. split.
  - intros H. apply andb_true_iff in H as [Hs Hc]. apply eqb_true in Hs.
    destruct (chapter r) as [c|]; [|easy]. apply eqb_true in Hc. now subst.
  - intros [-> ->]. now rewrite !eqb_refl.
Qed.

Lemma filter_none {A} (f : A -> bool) (l : list A) :
  (forall x, In x l -> f x = false) -> filter f l = [].
Proof.
  induction l as [|a l IH]; intros H; [reflexivity|]. cbn.
  rewrite (H a (or_introl eq_refl)). apply IH. intros x Hx. apply H. now right.
Qed.

Lemma filter_every {A} (f : A -> bool) (l : list A) :
  (forall x, In x l -> f x = true) -> filter f l = l.
Proof.
  induction l as [|a l IH]; intros H; [reflexivity|]. cbn.
  rewrite (H a (or_introl eq_refl)). f_equal. apply IH.
  intros x Hx. apply H. now right.
Qed.

Lemma chapterAdded_consistent (src chapterRef : jsstring) (rows : list row)
      (st st' : store) :
  chapterAdded src chapterRef rows st st' ->
  logConsistent st -> logConsistent st'.
Proof.
  intros (Hnew & _ & Hp & _ & Hl & Hrows & _) (Hnd & Hcount & Hmem).
  rewrite Forall_forall in Hrows.
  assert (Hfresh : ~ In (src, Some chapterRef) (map logKey (ingestion_log st))).
  { intros H. apply isIngested_key in H. congruence. }
  assert (Hkept : forall s c, isIngested s c st = true ->
                              isIngested s c st' = true).
  { intros s c. now apply isIngested_app with (extra := [mkLog (seq_log st + 1)
      src (Some chapterRef) (js "completed") (length rows)]). }
  assert (Hsplit : forall s c,
            chapterCount s c st'
            = chapterCount s c st + length (filter (inChapter s c) rows)).
  { intros s c. unfold chapterCount. now rewrite Hp, filter_app, length_app. }
  unfold logConsistent. split; [|split].
  - rewrite Hl, map_app. apply NoDup_app; [exact Hnd|repeat constructor; easy|].
    intros k Hk [<-|[]]. contradiction.
  - intros l Hin. rewrite Hl in Hin. apply in_app_or in Hin as [Hin|[<-|[]]].
    + destruct (Hcount l Hin) as (c & Hc & Hn). exists c. split; [exact Hc|].
      rewrite Hsplit, Hn, filter_none; [cbn; lia|].
      intros r Hr. destruct (inChapter (log_source l) c r) eqn:E; [|reflexivity].
      apply inChapter_true in E as [Es Ec].
      destruct (Hrows r Hr) as [Hs Hch].
      exfalso. apply Hfresh. apply in_map_iff. exists l. split; [|exact Hin].
      unfold logKey. rewrite Hc. congruence.
    + exists chapterRef. split; [reflexivity|]. cbn [provisions_count log_source].
      rewrite Hsplit. unfold chapterCount at 1.
      rewrite filter_none, filter_every; [reflexivity| |].
      * intros r Hr. apply inChapter_true. now apply Hrows.
      * intros r Hr. destruct (inChapter src chapterRef r) eqn:E; [|reflexivity].
        apply inChapter_true in E as [Es Ec].
        destruct (Hmem r Hr) as (c & Hc & Hrec). congruence.
  - intros r Hr. rewrite Hp in Hr. apply in_app_or in Hr as [Hr|Hr].
    + destruct (Hmem r Hr) as (c & Hc & Hrec). exists c. auto.
    + destruct (Hrows r Hr) as [Hs Hc]. exists chapterRef. split; [exact Hc|].
      rewrite Hs. apply isIngested_key. rewrite Hl, map_app.
      apply in_or_app. right. now left.
Qed.

Lemma ingested_consistent (st st' : store) (n : nat) :
  ingested st n st' -> logConsistent st -> logConsistent st'.
Proof.
  induction 1 as [|n mid st' src ref rows _ IH Hadd]; intros H; [exact H|].
  eapply chapterAdded_consistent; eauto.
Qed.

Lemma emptyStore_consistent : logConsistent emptyStore.
Proof. repeat split; try constructor; easy. Qed.

Section RunProperties.

Variable toLowerCase : jsstring -> jsstring.
Variable pdf : Type.
Variable pdfParse : pdf -> result (option jsstring).
Variable writable : list jsstring -> bool.
Variable httpGet : jsstring -> result (Fetch.response pdf).

#[local] Abbreviation run := (main toLowerCase pdfParse writable httpGet).

(** Extra X5.  The number a run of [main] returns is the number of
    provisions it added, whatever the cache holds and the network
    answers; the same holds for [ingestMunicipalCode],
    [ingestZoningBylaw] and [ingestOfficialPlan] alone. *)
Theorem ingestion_reports_what_it_stored
        (chapters : list chapterLink) (doAll : bool) (st : store)
        (fs : Fetch.files pdf) :
  total_provisions (store_of (run chapters doAll st fs))
  = total_provisions st + total_of (run chapters doAll st fs)
  /\ total_provisions
       (store_of (ingestMunicipalCode toLowerCase pdfParse writable httpGet
                    chapters doAll st fs))
     = total_provisions st
       + total_of (ingestMunicipalCode toLowerCase pdfParse writable httpGet
                     chapters doAll st fs)
  /\ total_provisions
       (store_of (ingestZoningBylaw toLowerCase pdfParse writable httpGet
                    st fs))
     = total_provisions st
       + total_of (ingestZoningBylaw toLowerCase pdfParse writable httpGet
                     st fs)
  /\ total_provisions
       (store_of (ingestOfficialPlan toLowerCase pdfParse writable httpGet
                    st fs))
     = total_provisions st
       + total_of (ingestOfficialPlan toLowerCase pdfParse writable httpGet
                     st fs).
Proof.
  repeat split; apply ingested_count.
  - apply main_trace.
  - apply ingestMunicipalCode_trace.
  - apply ingestZoningBylaw_trace.
  - apply ingestOfficialPlan_trace.
Qed.

(** Extra X6.  Ingestion only appends: after a run of [main] the three
    tables begin with the rows they had, in place and unchanged. *)
Theorem ingestion_only_appends
        (chapters : list chapterLink) (doAll : bool) (st : store)
        (fs : Fetch.files pdf) :
  exists rows entries records,
    provisions (store_of (run chapters doAll st fs)) = provisions st ++ rows
    /\ provisions_fts (store_of (run chapters doAll st fs))
       = provisions_fts st ++ entries
    /\ ingestion_log (store_of (run chapters doAll st fs))
       = ingestion_log st ++ records.
Proof. eapply ingested_appends. apply main_trace. Qed.

(** Extra X7.  If the index holds one entry for every provision, with
    its id and its five indexed columns, it still does after
    [insertProvision], after [bulkInsert], whether they return or
    throw, and after a run of [main]. *)
Theorem index_stays_in_sync (st : store) :
  indexInSync st ->
  (forall v, indexInSync (snd (insertProvision v st)))
  /\ (forall items, indexInSync (snd (bulkInsert items st)))
  /\ (forall chapters doAll fs,
        indexInSync (store_of (run chapters doAll st fs))).
Proof.
  intros Hsync. split; [|split].
  - intros v. unfold insertProvision.
    set (bound := mkProvision _ _ _ _ _ _ _ _ _).
    destruct (insertable bound) eqn:Hb.
    + destruct (@insert_run_row bound st Hb)
        as (r & st' & -> & _ & _ & _ & _ & _ & _ & _ & _ & _ & _ & Hp & Hf & _).
      unfold indexInSync in *. cbn [snd]. now rewrite Hf, Hp, map_app, Hsync.
    + destruct (@insert_run_rejected bound st Hb) as (e & ->). exact Hsync.
  - intros items. destruct (forallb insertable items) eqn:Hall.
    + destruct (bulkInsert_loop_rows items st Hall)
        as (rows & st' & Hloop & _ & _ & Hp & Hf & _).
      rewrite bulkInsert_unfold, Hloop. unfold indexInSync in *. cbn [snd].
      now rewrite Hf, Hp, map_app, Hsync.
    + destruct (bulkInsert_rejected items st Hall) as (e & ->). exact Hsync.
  - intros chapters doAll fs.
    eapply ingested_sync; [apply main_trace|exact Hsync].
Qed.

(** Extra X8.  If no two provisions share an id, none do after a run of
    [main]. *)
Theorem ingestion_keeps_ids_distinct
        (chapters : list chapterLink) (doAll : bool) (st : store)
        (fs : Fetch.files pdf) :
  NoDup (map id (provisions st)) ->
  NoDup (map id (provisions (store_of (run chapters doAll st fs)))).
Proof. eapply ingested_ids. apply main_trace. Qed.

(** Extra X9.  A run of [main] keeps log and provisions consistent:
    there is one record for each (source, chapter), the count of every
    record is the number of provisions of its chapter in the table, and
    every provision belongs to a recorded chapter. *)
Theorem ingestion_keeps_log_consistent
        (chapters : list chapterLink) (doAll : bool) (st : store)
        (fs : Fetch.files pdf) :
  logConsistent st ->
  logConsistent (store_of (run chapters doAll st fs)).
Proof. eapply ingested_consistent. apply main_trace. Qed.

End RunProperties.

(** Extra X7 on the empty store. *)
Lemma index_stays_in_sync_witness :
  (forall v, indexInSync (snd (insertProvision v emptyStore)))
  /\ (forall items, indexInSync (snd (bulkInsert items emptyStore)))
  /\ (forall chapters doAll fs,
        indexInSync (store_of (main asciiLower parsedAs anyPath noiseOnly
                                    chapters doAll emptyStore fs))).
Proof.
  apply (@index_stays_in_sync asciiLower jsstring parsedAs anyPath noiseOnly
           emptyStore).
  reflexivity.
Defined.

(** Extra X8 on the run over the two scraped chapters. *)
Lemma ingestion_keeps_ids_distinct_witness :
  NoDup (map id (provisions
                   (store_of (main asciiLower parsedAs anyPath noiseOnly
                                   scrapedChapters false emptyStore
                                   noFiles)))).
Proof.
  apply (@ingestion_keeps_ids_distinct asciiLower jsstring parsedAs anyPath
           noiseOnly scrapedChapters false emptyStore noFiles).
  constructor.
Defined.

(** Extra X9 on the run over the two scraped chapters. *)
Lemma ingestion_keeps_log_consistent_witness :
  logConsistent (store_of (main asciiLower parsedAs anyPath noiseOnly
                                scrapedChapters false emptyStore noFiles)).
Proof.
  apply (@ingestion_keeps_log_consistent asciiLower jsstring parsedAs anyPath
           noiseOnly scrapedChapters false emptyStore noFiles).
  exact emptyStore_consistent.
Defined.

(* ================================================================== *)
(** * A second run of the ingestion *)
(* ================================================================== *)

Lemma cacheKept_refl {A} (fs : Fetch.files A) : cacheKept fs fs.
Proof. now intros p d. Qed.

Lemma cacheKept_trans {A} (a b c : Fetch.files A) :
  cacheKept a b -> cacheKept b c -> cacheKept a c.
Proof. intros H1 H2 p d H. auto. Qed.

Lemma pathEqb_true (p q : list jsstring) : Fetch.pathEqb p q = true -> p = q.
Proof.
  unfold Fetch.pathEqb.
  now destruct (list_eq_dec (list_eq_dec N.eq_dec) p q).
Qed.

Section SecondRun.

Variable toLowerCase : jsstring -> jsstring.
Variable pdf : Type.
Variable pdfParse : pdf -> result (option jsstring).
Variable writable : list jsstring -> bool.
Variable httpGet : jsstring -> result (Fetch.response pdf).

#[local] Abbreviation step :=
  (ingestChapter toLowerCase pdfParse writable httpGet).
#[local] Abbreviation extract := (extractAndChunk toLowerCase pdfParse).
#[local] Abbreviation run := (main toLowerCase pdfParse writable httpGet).

(** [fetchPdf] writes a file only where there is none: no file of the
    cache is removed or changed. *)
Lemma fetchPdf_keeps (pdfUrl : jsstring) (fs : Fetch.files pdf) :
  cacheKept fs (snd (Fetch.fetchPdf writable httpGet pdfUrl fs)).
Proof.
  unfold Fetch.fetchPdf.
  set (path := Fetch.cachePath (Fetch.cacheKey pdfUrl ++ js ".pdf")).
  destruct (fs path) as [buf|] eqn:Ehit; [apply cacheKept_refl|].
  destruct (httpGet pdfUrl) as [res|e]; [|apply cacheKept_refl].
  destruct (negb (Fetch.ok res)); [apply cacheKept_refl|].
  destruct (writable path); [|apply cacheKept_refl].
  intros p d Hp. cbn [snd]. unfold Fetch.writeFile.
  destruct (Fetch.pathEqb p path) eqn:E; [|exact Hp].
  apply pathEqb_true in E. subst p. congruence.
Qed.

(** A document [fetchPdf] has returned is returned again from every
    later cache, which is left as it is. *)
Lemma fetchPdf_again (pdfUrl : jsstring) (fs fs' later : Fetch.files pdf)
      (document : pdf) :
  Fetch.fetchPdf writable httpGet pdfUrl fs = (Ok document, fs') ->
  cacheKept fs' later ->
  Fetch.fetchPdf writable httpGet pdfUrl later = (Ok document, later).
Proof.
  unfold Fetch.fetchPdf.
  set (path := Fetch.cachePath (Fetch.cacheKey pdfUrl ++ js ".pdf")).
  intros H Hkept.
  assert (Hfile : fs' path = Some document).
  { destruct (fs path) as [buf|] eqn:Ehit.
    - injection H as <- <-. exact Ehit.
    - destruct (httpGet pdfUrl) as [res|e]; [|discriminate].
      destruct (negb (Fetch.ok res)); [discriminate|].
      destruct (writable path); [|discriminate].
      injection H as <- <-. unfold Fetch.writeFile.
      now rewrite pathEqb_refl. }
  now rewrite (Hkept _ _ Hfile).
Qed.

(** One turn of a loop removes no record and no file. *)
Lemma ingestChapter_keeps (src chapterRef chapterTitle pdfUrl : jsstring)
      (n : nat) (st : store) (fs : Fetch.files pdf) :
  recordsKept st (store_of (step src chapterRef chapterTitle pdfUrl
                                 (n, st, fs)))
  /\ cacheKept fs (files_of (step src chapterRef chapterTitle pdfUrl
                                  (n, st, fs))).
Proof.
  unfold ingestChapter.
  destruct (isIngested src chapterRef st);
    [split; [apply recordsKept_refl|apply cacheKept_refl]|].
  unfold tryChapter. pose proof (fetchPdf_keeps pdfUrl fs) as Hfs.
  destruct (Fetch.fetchPdf writable httpGet pdfUrl fs) as [[buf|e] fs'];
    cbn [snd] in Hfs; [|split; [apply recordsKept_refl|exact Hfs]].
  destruct (indexChapter_cases src chapterRef
              (extract buf src chapterRef chapterTitle pdfUrl) st)
    as [(_ & ->)|[(_ & _ & e & ->)|(_ & _ & mid & st' & _ & -> & _ & Hlog)]];
    (split; [|exact Hfs]); try apply recordsKept_refl.
  intros s c. exact (isIngested_app s c st st' _ Hlog).
Qed.

(** Extra X24.  A unit gets its ingestion record only in a turn in
    which its document was fetched and the provisions of the document,
    at least one, were inserted by [bulkInsert]: the record comes after
    the insert, the provisions of the store are those after the insert
    and the running total grows by their number. *)
Theorem unit_recorded_only_after_insert
        (src chapterRef chapterTitle pdfUrl : jsstring)
        (n : nat) (st : store) (fs : Fetch.files pdf) :
  isIngested src chapterRef st = false ->
  isIngested src chapterRef
    (store_of (step src chapterRef chapterTitle pdfUrl (n, st, fs))) = true ->
  exists pdfBuffer fs' mid,
    Fetch.fetchPdf writable httpGet pdfUrl fs = (Ok pdfBuffer, fs')
    /\ extract pdfBuffer src chapterRef chapterTitle pdfUrl <> []
    /\ bulkInsert (extract pdfBuffer src chapterRef chapterTitle pdfUrl) st
       = (Ok (length (extract pdfBuffer src chapterRef chapterTitle pdfUrl)),
          mid)
    /\ provisions (store_of (step src chapterRef chapterTitle pdfUrl
                                  (n, st, fs)))
       = provisions mid
    /\ total_of (step src chapterRef chapterTitle pdfUrl (n, st, fs))
       = n + length (extract pdfBuffer src chapterRef chapterTitle pdfUrl).
Proof.
  intros Hnew Hrec. unfold ingestChapter, tryChapter in *. rewrite Hnew in *.
  destruct (Fetch.fetchPdf writable httpGet pdfUrl fs) as [[buf|e] fs'];
    [|cbn in Hrec; congruence].
  destruct (indexChapter_cases src chapterRef
              (extract buf src chapterRef chapterTitle pdfUrl) st)
    as [(_ & H)|[(_ & _ & e' & H)|(Hne & _ & mid & s' & Hok & H & Hp & _)]];
    rewrite H in *; cbn in Hrec; try congruence.
  exists buf, fs', mid. repeat split; assumption.
Qed.

Hypothesis served :
  forall u, exists res, httpGet u = Ok res /\ Fetch.ok res = true.
Hypothesis canWrite : forall p, writable p = true.

(** With every address served and every file writable, [fetchPdf]
    returns a document. *)
Lemma fetchPdf_succeeds (pdfUrl : jsstring) (fs : Fetch.files pdf) :
  exists document fs',
    Fetch.fetchPdf writable httpGet pdfUrl fs = (Ok document, fs').
Proof.
  unfold Fetch.fetchPdf.
  destruct (fs _) as [buf|]; [now eexists _, _|].
  destruct (served pdfUrl) as (res & -> & ->). rewrite canWrite.
  now eexists _, _.
Qed.

(** Once a unit has had its turn, a turn for it in any later state is
    a no-op: it is recorded, or its document, now in the cache, gives
    nothing or is refused again. *)
Lemma ingestChapter_settled (src chapterRef chapterTitle pdfUrl : jsstring)
      (n m : nat) (st later : store) (fs laterFiles : Fetch.files pdf) :
  recordsKept (store_of (step src chapterRef chapterTitle pdfUrl (n, st, fs)))
              later ->
  cacheKept (files_of (step src chapterRef chapterTitle pdfUrl (n, st, fs)))
            laterFiles ->
  step src chapterRef chapterTitle pdfUrl (m, later, laterFiles)
  = (m, later, laterFiles).
Proof.
  unfold ingestChapter. intros Hkept Hfiles.
  destruct (isIngested src chapterRef later) eqn:Elater; [reflexivity|].
  destruct (isIngested src chapterRef st) eqn:Est.
  { cbn in Hkept. rewrite (Hkept _ _ Est) in Elater. discriminate. }
  unfold tryChapter in *.
  destruct (fetchPdf_succeeds pdfUrl fs) as (buf & fs' & Hfetch).
  rewrite Hfetch in *.
  set (found := extract buf src chapterRef chapterTitle pdfUrl) in *.
  assert (Hcache : cacheKept fs' laterFiles).
  { destruct (indexChapter src chapterRef found st) as [[k|e] s'];
      exact Hfiles. }
  rewrite (@fetchPdf_again pdfUrl fs fs' laterFiles buf Hfetch Hcache). fold found.
  destruct (indexChapter_cases src chapterRef found st)
    as [(Hnil & _)|[(_ & Hbad & _)|(_ & _ & mid & st' & _ & Hidx & _ & Hlog)]].
  - rewrite Hnil. cbn. now rewrite Nat.add_0_r.
  - destruct (indexChapter_cases src chapterRef found later)
      as [(_ & ->)|[(_ & _ & e & ->)|(_ & Hgood & _)]];
      [now rewrite Nat.add_0_r|reflexivity|congruence].
  - rewrite Hidx in Hkept. cbn in Hkept.
    rewrite (Hkept src chapterRef) in Elater; [discriminate|].
    unfold isIngested. rewrite Hlog, existsb_app. cbn.
    now rewrite !eqb_refl, orb_true_r.
Qed.

(** A loop of [ingestChapter] turns over any list of units. *)
Lemma ingestLoop_keeps {U}
      (f : nat * store * Fetch.files pdf -> U -> nat * store * Fetch.files pdf)
      (units : list U) :
  (forall u n st fs,
      recordsKept st (store_of (f (n, st, fs) u))
      /\ cacheKept fs (files_of (f (n, st, fs) u))) ->
  forall n st fs,
    recordsKept st (store_of (fold_left f units (n, st, fs)))
    /\ cacheKept fs (files_of (fold_left f units (n, st, fs))).
Proof.
  intros Hf. induction units as [|u units IH]; intros n st fs;
    [split; [apply recordsKept_refl|apply cacheKept_refl]|].
  cbn [fold_left]. destruct (Hf u n st fs) as [H1 H2].
  destruct (f (n, st, fs) u) as [[n' st'] fs'].
  destruct (IH n' st' fs') as [H3 H4]. split.
  - eapply recordsKept_trans; eassumption.
  - eapply cacheKept_trans; eassumption.
Qed.

Lemma ingestLoop_settled {U}
      (f : nat * store * Fetch.files pdf -> U -> nat * store * Fetch.files pdf)
      (units : list U) :
  (forall u n st fs,
      recordsKept st (store_of (f (n, st, fs) u))
      /\ cacheKept fs (files_of (f (n, st, fs) u))) ->
  (forall u n m st later fs laterFiles,
      recordsKept (store_of (f (n, st, fs) u)) later ->
      cacheKept (files_of (f (n, st, fs) u)) laterFiles ->
      f (m, later, laterFiles) u = (m, later, laterFiles)) ->
  forall n st fs m later laterFiles,
    recordsKept (store_of (fold_left f units (n, st, fs))) later ->
    cacheKept (files_of (fold_left f units (n, st, fs))) laterFiles ->
    fold_left f units (m, later, laterFiles) = (m, later, laterFiles).
Proof.
  intros Hkeep Hsettled.
  induction units as [|u units IH]; intros n st fs m later laterFiles H1 H2;
    [reflexivity|].
  cbn [fold_left] in *.
  pose proof (Hsettled u n m st later fs laterFiles) as Hu.
  destruct (f (n, st, fs) u) as [[n' st'] fs'].
  destruct (ingestLoop_keeps f units Hkeep n' st' fs') as [K1 K2].
  rewrite Hu.
  - now apply (IH n' st' fs').
  - eapply recordsKept_trans; [exact K1|exact H1].
  - eapply cacheKept_trans; [exact K2|exact H2].
Qed.

Lemma ingestMunicipalCode_keeps (chapters : list chapterLink) (doAll : bool)
      (st : store) (fs : Fetch.files pdf) :
  recordsKept st (store_of (ingestMunicipalCode toLowerCase pdfParse writable
                              httpGet chapters doAll st fs))
  /\ cacheKept fs (files_of (ingestMunicipalCode toLowerCase pdfParse writable
                               httpGet chapters doAll st fs)).
Proof.
  unfold ingestMunicipalCode. apply ingestLoop_keeps.
  intros u n s f. apply ingestChapter_keeps.
Qed.

Lemma ingestMunicipalCode_settled (chapters : list chapterLink) (doAll : bool)
      (st later : store) (fs laterFiles : Fetch.files pdf) :
  recordsKept (store_of (ingestMunicipalCode toLowerCase pdfParse writable
                           httpGet chapters doAll st fs)) later ->
  cacheKept (files_of (ingestMunicipalCode toLowerCase pdfParse writable
                         httpGet chapters doAll st fs)) laterFiles ->
  ingestMunicipalCode toLowerCase pdfParse writable httpGet chapters doAll
                      later laterFiles
  = (0, later, laterFiles).
Proof.
  unfold ingestMunicipalCode. apply ingestLoop_settled.
  - intros u n s f. apply ingestChapter_keeps.
  - intros u n m s l f lf. apply ingestChapter_settled.
Qed.

Lemma ingestZoningBylaw_keeps (st : store) (fs : Fetch.files pdf) :
  recordsKept st (store_of (ingestZoningBylaw toLowerCase pdfParse writable
                              httpGet st fs))
  /\ cacheKept fs (files_of (ingestZoningBylaw toLowerCase pdfParse writable
                               httpGet st fs)).
Proof.
  unfold ingestZoningBylaw. apply ingestLoop_keeps.
  intros u n s f. apply ingestChapter_keeps.
Qed.

Lemma ingestZoningBylaw_settled (st later : store)
      (fs laterFiles : Fetch.files pdf) :
  recordsKept (store_of (ingestZoningBylaw toLowerCase pdfParse writable
                           httpGet st fs)) later ->
  cacheKept (files_of (ingestZoningBylaw toLowerCase pdfParse writable
                         httpGet st fs)) laterFiles ->
  ingestZoningBylaw toLowerCase pdfParse writable httpGet later laterFiles
  = (0, later, laterFiles).
Proof.
  unfold ingestZoningBylaw. apply ingestLoop_settled.
  - intros u n s f. apply ingestChapter_keeps.
  - intros u n m s l f lf. apply ingestChapter_settled.
Qed.

Lemma ingestOfficialPlan_keeps (st : store) (fs : Fetch.files pdf) :
  recordsKept st (store_of (ingestOfficialPlan toLowerCase pdfParse writable
                              httpGet st fs))
  /\ cacheKept fs (files_of (ingestOfficialPlan toLowerCase pdfParse writable
                               httpGet st fs)).
Proof.
  unfold ingestOfficialPlan. apply ingestLoop_keeps.
  intros u n s f. apply ingestChapter_keeps.
Qed.

Lemma ingestOfficialPlan_settled (st later : store)
      (fs laterFiles : Fetch.files pdf) :
  recordsKept (store_of (ingestOfficialPlan toLowerCase pdfParse writable
                           httpGet st fs)) later ->
  cacheKept (files_of (ingestOfficialPlan toLowerCase pdfParse writable
                         httpGet st fs)) laterFiles ->
  ingestOfficialPlan toLowerCase pdfParse writable httpGet later laterFiles
  = (0, later, laterFiles).
Proof.
  unfold ingestOfficialPlan. apply ingestLoop_settled.
  - intros u n s f. apply ingestChapter_keeps.
  - intros u n m s l f lf. apply ingestChapter_settled.
Qed.

(** Extra X25.  When every address is served and every file of the
    cache can be written, a second run of the ingestion, started from
    the store and the cache the first run left, returns 0 and leaves
    store and cache as they are: every unit is recorded, or its
    document, now in the cache, gives no provision or is refused again. *)
Theorem second_run_is_noop_when_downloads_succeed
        (chapters : list chapterLink) (doAll : bool) (st : store)
        (fs : Fetch.files pdf) :
  run chapters doAll (store_of (run chapters doAll st fs))
      (files_of (run chapters doAll st fs))
  = (0, store_of (run chapters doAll st fs),
     files_of (run chapters doAll st fs)).
Proof.
  unfold main.
  pose proof (@ingestMunicipalCode_settled chapters doAll st) as Hm.
  destruct (ingestMunicipalCode toLowerCase pdfParse writable httpGet chapters
              doAll st fs) as [[a s1] f1] eqn:E1.
  pose proof (ingestZoningBylaw_keeps s1 f1) as [K2 C2].
  pose proof (@ingestZoningBylaw_settled s1) as Hz.
  destruct (ingestZoningBylaw toLowerCase pdfParse writable httpGet s1 f1)
    as [[b s2] f2] eqn:E2.
  pose proof (ingestOfficialPlan_keeps s2 f2) as [K3 C3].
  pose proof (@ingestOfficialPlan_settled s2) as Ho.
  destruct (ingestOfficialPlan toLowerCase pdfParse writable httpGet s2 f2)
    as [[c s3] f3] eqn:E3.
  unfold store_of, files_of in *. cbn [fst snd] in *.
  rewrite (Hm s3 fs f3).
  2:{ rewrite E1. cbn [fst snd]. eapply recordsKept_trans; eassumption. }
  2:{ rewrite E1. cbn [fst snd]. eapply cacheKept_trans; eassumption. }
  rewrite (Hz s3 f1 f3).
  2:{ rewrite E2. exact K3. }
  2:{ rewrite E2. exact C3. }
  rewrite (Ho s3 f2 f3).
  2:{ rewrite E3. apply recordsKept_refl. }
  2:{ rewrite E3. apply cacheKept_refl. }
  reflexivity.
Qed.

End SecondRun.

(** Extra X26.  When [bulkInsert] throws, the part of a turn that
    follows the segmentation throws the same error with the store as
    it was: no provision of the chapter is in it and no record is
    written, so that the unit has its turn again in the next run. *)
Theorem failed_insert_leaves_unit_unrecorded
        (src chapterRef : jsstring) (found : list provision)
        (st st' : store) (e : jsstring) :
  bulkInsert found st = (Throw e, st') ->
  indexChapter src chapterRef found st = (Throw e, st)
  /\ isIngested src chapterRef (snd (indexChapter src chapterRef found st))
     = isIngested src chapterRef st.
Proof.
  intros Hins.
  assert (H : indexChapter src chapterRef found st = (Throw e, st)).
  { pose proof (bulkInsert_throw_unchanged _ _ Hins) as ->.
    destruct (indexChapter_cases src chapterRef found st)
      as [(Hnil & _)|[(_ & _ & e' & H)|(_ & _ & mid & s' & Hok & _)]];
      [|
       |congruence].
    - rewrite Hnil in Hins. discriminate.
    - unfold indexChapter in *. destruct (0 <? length found); [|discriminate].
      unfold bind in *. rewrite Hins in *. reflexivity. }
  split; [exact H|]. now rewrite H.
Qed.

(** Extra X24 on the first run over the two listed chapters: chapter
    591 is recorded in its turn. *)
Lemma unit_recorded_only_after_insert_witness :
  exists pdfBuffer fs' mid,
    Fetch.fetchPdf anyPath noiseOnly noiseUrl noFiles = (Ok pdfBuffer, fs')
    /\ extractAndChunk asciiLower parsedAs pdfBuffer (js "municipal_code")
         (js "Chapter 591") (js "Noise") noiseUrl <> []
    /\ bulkInsert (extractAndChunk asciiLower parsedAs pdfBuffer
                     (js "municipal_code") (js "Chapter 591") (js "Noise")
                     noiseUrl) emptyStore
       = (Ok (length (extractAndChunk asciiLower parsedAs pdfBuffer
                        (js "municipal_code") (js "Chapter 591") (js "Noise")
                        noiseUrl)), mid)
    /\ provisions
         (store_of (ingestChapter asciiLower parsedAs anyPath noiseOnly
                      (js "municipal_code") (js "Chapter 591") (js "Noise")
                      noiseUrl (0, emptyStore, noFiles)))
       = provisions mid
    /\ total_of (ingestChapter asciiLower parsedAs anyPath noiseOnly
                   (js "municipal_code") (js "Chapter 591") (js "Noise")
                   noiseUrl (0, emptyStore, noFiles))
       = 0 + length (extractAndChunk asciiLower parsedAs pdfBuffer
                       (js "municipal_code") (js "Chapter 591") (js "Noise")
                       noiseUrl).
Proof.
  apply (@unit_recorded_only_after_insert asciiLower jsstring parsedAs anyPath
           noiseOnly (js "municipal_code") (js "Chapter 591") (js "Noise")
           noiseUrl 0 emptyStore noFiles).
  - reflexivity.
  - vm_compute. reflexivity.
Defined.

(** Extra X25 on a network that serves the chapter on noise at every
    address. *)
Lemma second_run_is_noop_when_downloads_succeed_witness :
  let first := main asciiLower parsedAs anyPath (serveAll mixedChapter)
                    scrapedChapters false emptyStore noFiles in
  main asciiLower parsedAs anyPath (serveAll mixedChapter) scrapedChapters
       false (store_of first) (files_of first)
  = (0, store_of first, files_of first).
Proof.
  cbn zeta.
  apply (@second_run_is_noop_when_downloads_succeed asciiLower jsstring
           parsedAs anyPath (serveAll mixedChapter)).
  - intros u. eexists. split; reflexivity.
  - reflexivity.
Defined.

(** Extra X26 on a batch whose second record has no content. *)
Lemma failed_insert_leaves_unit_unrecorded_witness :
  indexChapter (js "municipal_code") (js "Chapter 591") badBatch sampleStore
  = (Throw (js "NOT NULL constraint failed: provisions.content"), sampleStore)
  /\ isIngested (js "municipal_code") (js "Chapter 591")
       (snd (indexChapter (js "municipal_code") (js "Chapter 591") badBatch
                          sampleStore))
     = isIngested (js "municipal_code") (js "Chapter 591") sampleStore.
Proof.
  apply (@failed_insert_leaves_unit_unrecorded (js "municipal_code")
           (js "Chapter 591") badBatch sampleStore sampleStore
           (js "NOT NULL constraint failed: provisions.content")).
  vm_compute. reflexivity.
Defined.

(* ================================================================== *)
(** * Further properties of the search path *)
(* ================================================================== *)












(** With one term the WHERE clause is [c1 AND p.source = ?]. *)
Lemma fallbackWhere_single (t s : jsstring) (r : row) :
  s <> [] ->
  Sql.holds (evalWhere (fallbackWhere [t] (Some s)) r)
  = matchesTerm r t && eqb (source r) s.
Proof.
  intros Hs. destruct s as [|c s]; [easy|].
  change (evalWhere (fallbackWhere [t] (Some (c :: s))) r)
    with (Sql.or3 (Some false)
                  (Sql.and3 (evalOperand (LikeAny t) r)
                            (Some (eqb (source r) (c :: s))))).
  rewrite holds_or3, holds_and3, holds_LikeAny.
  now destruct (eqb (source r) (c :: s)).
Qed.

Section MoreSearchProperties.

Variable fts5_match : list fts_row -> jsstring -> result (list Z).


(** Extra X11.  When the FTS5 engine answers, every row returned has an
    id the engine matched, and with a non-empty source filter every row
    returned has that source. *)
Theorem ranked_rows_matched_and_filtered
        (query : jsstring) (lim : Z) (src : option jsstring) (st : store)
        (ids : list Z) (rows : list row) :
  fts5_match (provisions_fts st) (cleanQuery query) = Ok ids ->
  searchProvisions fts5_match query lim src st = Ok rows ->
  forall r, In r rows ->
            In (id r) ids
            /\ (forall s, src = Some s -> s <> [] -> source r = s).
Proof.
  unfold searchProvisions, rankedSelect. cbn [Sql.bindLimit].
  intros Hfts H r Hr.
  destruct (cleanQuery query) eqn:Eq; [injection H as <-; easy|].
  rewrite Hfts in H. injection H as <-.
  apply In_limit in Hr. apply filter_In in Hr as [Hjoin Hsrc]. split.
  - apply in_flat_map in Hjoin as (i & Hi & Hr). apply filter_In in Hr as [_ E].
    apply Z.eqb_eq in E. now subst.
  - intros s -> Hs. destruct s; [easy|]. cbn in Hsrc. now apply eqb_true.
Qed.


(** Extra X13.  On the fallback path a query with a single term does
    honour a non-empty source filter: every row returned has the
    source asked for. *)
Theorem fallback_single_term_filters_source
        (query : jsstring) (lim : Z) (s e t : jsstring) (st : store)
        (rows : list row) :
  rankedSelect fts5_match (cleanQuery query) (Some s) lim st = Throw e ->
  fallbackTerms query = [t] ->
  s <> [] ->
  searchProvisions fts5_match query lim (Some s) st = Ok rows ->
  forall r, In r rows -> source r = s /\ matchesTerm r t = true.
Proof.
  intros Hthrow Ht Hs H r Hr. unfold searchProvisions in H.
  destruct (cleanQuery query) eqn:Eq; [injection H as <-; easy|].
  rewrite Hthrow in H.
  assert (E : fallbackSearch query lim (Some s) st
              = Ok (Sql.limit lim
                      (filter (fun r0 => Sql.holds
                                 (evalWhere (fallbackWhere [t] (Some s)) r0))
                              (provisions st))))
    by (unfold fallbackSearch; cbn [Sql.bindLimit]; now rewrite Ht).
  rewrite E in H.
  assert (Hrows : Sql.limit lim
                    (filter (fun r0 => Sql.holds
                               (evalWhere (fallbackWhere [t] (Some s)) r0))
                            (provisions st)) = rows) by congruence.
  rewrite <- Hrows in Hr. apply In_limit in Hr.
  apply filter_In in Hr as [_ Hr].
  rewrite (fallbackWhere_single t r Hs) in Hr.
  apply andb_true_iff in Hr as [Hm Hsrc]. split; [now apply eqb_true|exact Hm].
Qed.

End MoreSearchProperties.


(** Extra X11 on a search restricted to the zoning by-law. *)
Lemma ranked_rows_matched_and_filtered_witness :
  searchProvisions answering (js "noise parking") 5 (Some (js "zoning_bylaw"))
                   sampleStore = Ok [parkingRow]
  /\ forall r, In r [parkingRow] ->
               In (id r) [2; 1]%Z
               /\ (forall s, Some (js "zoning_bylaw") = Some s -> s <> [] ->
                             source r = s).
Proof.
  split; [vm_compute; reflexivity|].
  apply (@ranked_rows_matched_and_filtered answering (js "noise parking") 5
           (Some (js "zoning_bylaw")) sampleStore [2; 1]%Z [parkingRow]).
  - vm_compute. reflexivity.
  - vm_compute. reflexivity.
Defined.


(** Extra X13 on a one-word query restricted to the zoning by-law. *)
Lemma fallback_single_term_filters_source_witness :
  searchProvisions rejecting (js "provided") 5 (Some (js "zoning_bylaw"))
                   sampleStore = Ok [parkingRow]
  /\ forall r, In r [parkingRow] ->
               source r = js "zoning_bylaw"
               /\ matchesTerm r (js "provided") = true.
Proof.
  split; [vm_compute; reflexivity|].
  apply (@fallback_single_term_filters_source rejecting (js "provided") 5
           (js "zoning_bylaw") (js "fts5: syntax error") (js "provided")
           sampleStore [parkingRow]).
  - reflexivity.
  - vm_compute. reflexivity.
  - discriminate.
  - vm_compute. reflexivity.
Defined.

(* ================================================================== *)
(** * The words of a query *)
(* ================================================================== *)

(** Extra X14.  The MATCH expression given to FTS5 is a list of words
    between double quotes joined by [ OR ]; every word has at least
    three characters and only letters, digits and underscores, so no
    quote, operator or punctuation of the query reaches the engine.
    The terms of the fallback have at least three characters and no
    white space. *)
Theorem query_words_are_clean (query w : jsstring) :
  cleanQuery query = join (js " OR ") (map quote (cleanWords query))
  /\ (In w (cleanWords query) ->
      3 <= length w /\ forallb isWord w = true)
  /\ (In w (fallbackTerms query) ->
      3 <= length w /\ forallb (fun c => negb (isSpace c)) w = true).
Proof.
  split; [reflexivity|]. split.
  - unfold cleanWords. intros H. apply filter_In in H as [Hw Hlen].
    apply Nat.ltb_lt in Hlen. split; [lia|].
    apply split_whitespace_words
      with (P := fun c => isWord c = true \/ isSpace c = true) in Hw.
    + apply forallb_forall. rewrite Forall_forall in Hw.
      intros c Hc. destruct (Hw c Hc) as [Hs [H|H]]; congruence.
    + apply Forall_trim. apply Forall_forall. intros c Hc.
      apply in_map_iff in Hc as (d & <- & _).
      destruct (isWord d) eqn:Ew; [now left|].
      destruct (isSpace d) eqn:Es; cbn; [now right|now right].
  - unfold fallbackTerms. intros H. apply filter_In in H as [Hw Hlen].
    apply Nat.ltb_lt in Hlen. split; [lia|].
    apply split_whitespace_words with (P := fun _ => True) in Hw.
    + apply forallb_forall. rewrite Forall_forall in Hw.
      intros c Hc. destruct (Hw c Hc) as [Hs _]. now rewrite Hs.
    + apply Forall_forall. easy.
Qed.

(** Extra X14 on a query with quotes and an operator. *)
Lemma query_words_are_clean_witness :
  cleanWords (34%N :: js "noise* AND (parking") = [js "noise"; js "AND"; js "parking"]
  /\ 3 <= length (js "noise") /\ forallb isWord (js "noise") = true.
Proof.
  split; [vm_compute; reflexivity|].
  apply (proj1 (proj2 (@query_words_are_clean
                         (34%N :: js "noise* AND (parking") (js "noise")))).
  vm_compute. left. reflexivity.
Defined.

(* ================================================================== *)
(** * Further properties of the segmenter *)
(* ================================================================== *)

Lemma matchAt_Look (a : regex) (prev : option N) (s rest : jsstring) :
  matchAt (Look a) prev s = Some rest -> rest = s.
Proof.
  unfold matchAt. cbn [exec].
  destruct (exec a prev s (fun _ _ => Some tt)); congruence.
Qed.

(** Splitting at a lookahead cuts the text and drops nothing. *)
Lemma split_go_Look (a : regex) (s : jsstring) :
  forall cur prev,
    List.concat (split_go (Look a) cur 0 prev s) = rev cur ++ s
    /\ (cur <> [] \/ s <> [] ->
        Forall (fun piece => piece <> []) (split_go (Look a) cur 0 prev s)).
Proof.
  induction s as [|c s IH]; intros cur prev.
  - cbn. split; [reflexivity|]. intros [H|H]; [|easy].
    constructor; [|constructor]. intros E. apply H.
    apply (f_equal (@rev N)) in E. now rewrite rev_involutive in E.
  - cbn [split_go]. destruct (matchAt (Look a) prev (c :: s)) as [rest|] eqn:E.
    + apply matchAt_Look in E. subst rest. rewrite Nat.sub_diag.
      destruct cur as [|x cur].
      * destruct (IH [c] (Some c)) as [Hc Hne]. split; [exact Hc|].
        intros _. apply Hne. left. discriminate.
      * destruct (IH [c] (Some c)) as [Hc Hne]. split.
        -- cbn [List.concat]. rewrite Hc. reflexivity.
        -- intros _. constructor; [|apply Hne; left; discriminate].
           cbn [rev]. intros E. now apply app_eq_nil in E as [_ E].
    + destruct (IH (c :: cur) (Some c)) as [Hc Hne]. split.
      * rewrite Hc. cbn [rev]. now rewrite <- app_assoc.
      * intros _. apply Hne. left. discriminate.
Qed.

(** Extra X15.  Splitting a text at one of the four boundary patterns
    loses nothing: the pieces, in order, make up the text again, no
    piece of a non-empty text is empty, and the valid segments are the
    pieces whose trimmed length is above 30. *)
Theorem boundary_split_keeps_text (pattern : regex) (text : jsstring) :
  In pattern sectionPatterns ->
  List.concat (Regex.split pattern text) = text
  /\ (text <> [] ->
      Forall (fun piece => piece <> []) (Regex.split pattern text))
  /\ (forall seg, In seg (validSplits pattern text)
                  <-> In seg (Regex.split pattern text)
                      /\ 30 < length (trim seg)).
Proof.
  intros Hin.
  assert (Hlook : exists a, pattern = Look a).
  { unfold sectionPatterns in Hin.
    destruct Hin as [<-|[<-|[<-|[<-|[]]]]]; eexists; reflexivity. }
  destruct Hlook as (a & ->). split; [|split].
  - unfold Regex.split. destruct text as [|c text].
    + now destruct (matchesAt (Look a) None []).
    + apply (split_go_Look a (c :: text) [] None).
  - intros Hne. unfold Regex.split. destruct text as [|c text]; [easy|].
    apply (split_go_Look a (c :: text) [] None). now right.
  - intros seg. unfold validSplits. rewrite filter_In, Nat.ltb_lt. reflexivity.
Qed.

(** Extra X15 on the section-sign pattern and [mixedChapter]. *)
Lemma boundary_split_keeps_text_witness :
  List.concat (Regex.split (nth 0 sectionPatterns Eps) mixedChapter) = mixedChapter
  /\ (mixedChapter <> [] ->
      Forall (fun piece => piece <> [])
             (Regex.split (nth 0 sectionPatterns Eps) mixedChapter))
  /\ (forall seg, In seg (validSplits (nth 0 sectionPatterns Eps) mixedChapter)
                  <-> In seg (Regex.split (nth 0 sectionPatterns Eps)
                                          mixedChapter)
                      /\ 30 < length (trim seg)).
Proof.
  apply (@boundary_split_keeps_text (nth 0 sectionPatterns Eps) mixedChapter).
  left. reflexivity.
Defined.

Lemma slice_inside (s : jsstring) (b e : Z) :
  (0 <= b <= e)%Z -> (e <= Z.of_nat (length s))%Z ->
  slice s b e = firstn (Z.to_nat (e - b)) (skipn (Z.to_nat b) s).
Proof.
  intros Hb He. unfold slice, clampIndex.
  destruct (Z.ltb_spec b 0); [lia|]. destruct (Z.ltb_spec e 0); [lia|].
  now replace (Z.min b (Z.of_nat (length s))) with b by lia;
    replace (Z.min e (Z.of_nat (length s))) with e by lia.
Qed.

Lemma stitch_cons (step : nat) (c : jsstring) (rest : list jsstring) :
  rest <> [] -> stitch step (c :: rest) = firstn step c ++ stitch step rest.
Proof. destruct rest; [easy|reflexivity]. Qed.

(** The chunking loop from [start] on: the chunks stand for the rest of
    the text. *)
Lemma chunk_loop_stitch (text : jsstring) (chunkSize overlap : Z) :
  (0 <= overlap < chunkSize)%Z ->
  forall fuel start,
    (0 <= start < Z.of_nat (length text))%Z ->
    Z.to_nat (Z.of_nat (length text) - start) < fuel ->
    chunk_loop fuel text chunkSize overlap start <> []
    /\ stitch (Z.to_nat (chunkSize - overlap))
              (chunk_loop fuel text chunkSize overlap start)
       = skipn (Z.to_nat start) text
    /\ Forall (fun c => c <> [] /\ (Z.of_nat (length c) <= chunkSize)%Z)
              (chunk_loop fuel text chunkSize overlap start).
Proof.
  intros Hov. induction fuel as [|fuel IH]; intros start Hs Hf; [lia|].
  cbn [chunk_loop]. set (len := Z.of_nat (length text)) in *.
  destruct (Z.ltb_spec start len); [|lia].
  assert (Hskip : length (skipn (Z.to_nat start) text)
                  = Z.to_nat (len - start))
    by (rewrite length_skipn; unfold len; lia).
  destruct (Z.geb_spec (Z.min (start + chunkSize) len - overlap)
                       (len - overlap)) as [Hend|Hend].
  - replace (Z.min (start + chunkSize) len) with len by lia.
    rewrite slice_inside by (unfold len in *; lia).
    rewrite firstn_all2 by lia.
    assert (Hne : skipn (Z.to_nat start) text <> []).
    { intros E. rewrite E in Hskip. cbn in Hskip. lia. }
    split; [discriminate|]. split; [reflexivity|].
    constructor; [|constructor]. split; [exact Hne|]. rewrite Hskip. lia.
  - replace (Z.min (start + chunkSize) len) with (start + chunkSize)%Z by lia.
    destruct (IH (start + chunkSize - overlap)%Z) as (Hne & Hst & Hall);
      [lia|lia|].
    rewrite slice_inside by (unfold len in *; lia).
    replace (start + chunkSize - start)%Z with chunkSize by lia.
    assert (Hchunk : length (firstn (Z.to_nat chunkSize)
                               (skipn (Z.to_nat start) text))
                     = Z.to_nat chunkSize)
      by (rewrite length_firstn, Hskip; lia).
    split; [discriminate|]. split.
    + rewrite stitch_cons by exact Hne. rewrite Hst, firstn_firstn.
      replace (Nat.min (Z.to_nat (chunkSize - overlap)) (Z.to_nat chunkSize))
        with (Z.to_nat (chunkSize - overlap)) by lia.
      replace (Z.to_nat (start + chunkSize - overlap))
        with (Z.to_nat (chunkSize - overlap) + Z.to_nat start) by lia.
      rewrite <- skipn_skipn. apply firstn_skipn.
    + constructor; [|exact Hall]. split; [|lia].
      intros E. rewrite E in Hchunk. cbn in Hchunk. lia.
Qed.

(** Extra X16.  With [0 <= overlap < chunkSize], [chunkBySize] loses no
    text: the first [chunkSize - overlap] characters of every chunk but
    the last, followed by the last chunk, are the text.  No chunk is
    empty or longer than [chunkSize], and a non-empty text gives at
    least one chunk. *)
Theorem chunkBySize_covers_text (text : jsstring) (chunkSize overlap : Z) :
  (0 <= overlap < chunkSize)%Z ->
  stitch (Z.to_nat (chunkSize - overlap)) (chunkBySize text chunkSize overlap)
  = text
  /\ Forall (fun c => c <> [] /\ (Z.of_nat (length c) <= chunkSize)%Z)
            (chunkBySize text chunkSize overlap)
  /\ (text <> [] -> chunkBySize text chunkSize overlap <> []).
Proof.
  intros Hov. unfold chunkBySize. destruct text as [|c text].
  - cbn. repeat split; [constructor|easy].
  - destruct (@chunk_loop_stitch (c :: text) chunkSize overlap Hov
                (S (length (c :: text))) 0%Z) as (Hne & Hst & Hall).
    + cbn [length]. lia.
    + lia.
    + repeat split; auto.
Qed.

(** Extra X16 on a text of 3000 characters, cut as [extractAndChunk]
    does. *)
Lemma chunkBySize_covers_text_witness :
  stitch 1300 (chunkBySize longText 1500 200) = longText
  /\ Forall (fun c => c <> [] /\ (Z.of_nat (length c) <= 1500)%Z)
            (chunkBySize longText 1500 200)
  /\ (longText <> [] -> chunkBySize longText 1500 200 <> []).
Proof.
  apply (@chunkBySize_covers_text longText 1500 200). lia.
Defined.

Lemma star_loop_sound {R} (p : N -> bool)
      (k : option N -> jsstring -> option R) (s : jsstring) (x : R) :
  forall prev,
    star_loop p k prev s = Some x ->
    exists m rest prev',
      s = m ++ rest /\ Forall (fun c => p c = true) m /\ k prev' rest = Some x.
Proof.
  induction s as [|c s IH]; intros prev H.
  - exists [], [], prev. now repeat split.
  - cbn [star_loop] in H. destruct (p c) eqn:Ec.
    + destruct (star_loop p k (Some c) s) as [y|] eqn:E.
      * injection H as ->. destruct (IH _ E) as (m & rest & prev' & -> & Hm & Hk).
        exists (c :: m), rest, prev'. repeat split; auto.
      * exists [], (c :: s), prev. now repeat split.
    + exists [], (c :: s), prev. now repeat split.
Qed.

(** A match consumes a prefix made of characters of the expression and
    hands the rest to its continuation. *)
Lemma exec_sound (r : regex) :
  forall R (k : option N -> jsstring -> option R) prev s x,
    exec r prev s k = Some x ->
    exists m rest prev',
      s = m ++ rest /\ Forall (consumes r) m /\ k prev' rest = Some x.
Proof.
  induction r as [|p|a IHa b IHb|a IHa b IHb|p|a IHa|]; intros R k prev s x H;
    cbn [exec] in H.
  - exists [], s, prev. now repeat split.
  - destruct s as [|c s]; [discriminate|]. destruct (p c) eqn:Ec; [|discriminate].
    exists [c], s, (Some c). repeat split; auto.
  - apply IHa in H as (m1 & r1 & p1 & -> & Hm1 & H).
    apply IHb in H as (m2 & r2 & p2 & -> & Hm2 & H).
    exists (m1 ++ m2), r2, p2. rewrite <- app_assoc.
    split; [reflexivity|]. split; [|exact H].
    apply Forall_app. split.
    + refine (Forall_impl _ _ Hm1). intros c Hc. now left.
    + refine (Forall_impl _ _ Hm2). intros c Hc. now right.
  - destruct (exec a prev s k) as [y|] eqn:E.
    + injection H as ->. apply IHa in E as (m & rest & p' & -> & Hm & Hk).
      exists m, rest, p'. split; [reflexivity|]. split; [|exact Hk].
      refine (Forall_impl _ _ Hm). intros c Hc. now left.
    + apply IHb in H as (m & rest & p' & -> & Hm & Hk).
      exists m, rest, p'. split; [reflexivity|]. split; [|exact Hk].
      refine (Forall_impl _ _ Hm). intros c Hc. now right.
  - now apply star_loop_sound in H.
  - destruct (exec a prev s (fun _ _ => Some tt)); [|discriminate].
    exists [], s, prev. now repeat split.
  - destruct (xorb _ _); [|discriminate]. exists [], s, prev. now repeat split.
Qed.

Lemma star_loop_longest {R} (p : N -> bool) (f : jsstring -> R) (s : jsstring) :
  forall prev,
    star_loop p (fun _ rest => Some (f rest)) prev s = Some (f (dropWhile p s)).
Proof.
  induction s as [|c s IH]; intros prev; [reflexivity|].
  cbn [star_loop dropWhile]. destruct (p c); [|reflexivity].
  now rewrite IH.
Qed.


Lemma isIdChar_not_space (c : N) : isIdChar c = true -> isSpace c = false.
Proof.
  unfold isIdChar, isDigit, oneOf, enDash, isSpace, between. cbn [existsb].
  repeat match goal with
         | |- context [(?a <=? ?b)%N] => destruct (N.leb_spec a b); try lia
         | |- context [(?a =? ?b)%N] => destruct (N.eqb_spec a b); try lia
         end; cbn; congruence.
Qed.

Lemma dropWhile_none (p : N -> bool) (s : jsstring) :
  Forall (fun c => p c = false) s -> dropWhile p s = s.
Proof. destruct 1 as [|c s Hc _]; [reflexivity|]. cbn. now rewrite Hc. Qed.

Lemma trim_no_space (s : jsstring) :
  Forall (fun c => isSpace c = false) s -> trim s = s.
Proof.
  intros H. unfold trim, trimStart, trimEnd.
  rewrite (@dropWhile_none isSpace s H).
  rewrite (@dropWhile_none isSpace (rev s)); [apply rev_involutive|].
  now apply Forall_rev.
Qed.

(** What [sectionMatch] recovers: the longest run of identifier
    characters after an optional section sign and white space. *)
Lemma sectionMatch_sound (content g : jsstring) :
  sectionMatch content = Some g ->
  g <> []
  /\ Forall (fun c => isIdChar c = true) g
  /\ exists pre rest,
       content = pre ++ g ++ rest
       /\ Forall (fun c => c = sectionSign \/ isSpace c = true) pre
       /\ match rest with
          | c :: _ => isIdChar c = false
          | [] => True
          end.
Proof.
  unfold sectionMatch. intros H.
  apply exec_sound in H as (pre & s & prev & -> & Hpre & H).
  unfold Plus in H. cbn [exec] in H.
  destruct s as [|c s]; [discriminate|].
  change (fun c0 : N => isDigit c0 || oneOf [45%N; enDash; 46%N] c0)
    with isIdChar in H.
  change (isDigit c || oneOf [45%N; enDash; 46%N] c) with (isIdChar c) in H.
  destruct (isIdChar c) eqn:Ec; [|discriminate].
  rewrite (star_loop_longest isIdChar
             (fun rest' => firstn (length (c :: s) - length rest') (c :: s)))
    in H.
  assert (Hg : g = firstn (length (c :: s) - length (dropWhile isIdChar s))
                      (c :: s)) by (injection H as <-; reflexivity).
  clear H. rewrite Hg. clear Hg.
  destruct (longest_run isIdChar s) as (Hcat & Hrun & Hnext).
  pose proof (dropWhile_length isIdChar s).
  replace (length (c :: s) - length (dropWhile isIdChar s))
    with (S (length s - length (dropWhile isIdChar s))) by (cbn [length]; lia).
  cbn [firstn]. split; [discriminate|]. split; [now constructor|].
  exists pre, (dropWhile isIdChar s). split; [|split].
  - cbn [app]. now rewrite Hcat.
  - eapply Forall_impl; [|exact Hpre]. cbn. intros ch [[Hc|[]]|Hc].
    + left. unfold chr in Hc. now apply N.eqb_eq in Hc.
    + now right.
  - exact Hnext.
Qed.

Lemma splitChar_go_first (sep : N) (s : jsstring) :
  forall cur,
    exists first rest,
      splitChar_go sep cur s = first :: rest
      /\ forall x, In x first -> In x cur \/ x <> sep.
Proof.
  induction s as [|c s IH]; intros cur.
  - exists (rev cur), []. split; [reflexivity|].
    intros x Hx. left. now apply in_rev.
  - cbn [splitChar_go]. destruct (N.eqb_spec c sep) as [->|Hc].
    + exists (rev cur), (splitChar_go sep [] s). split; [reflexivity|].
      intros x Hx. left. now apply in_rev.
    + destruct (IH (c :: cur)) as (first & rest & -> & H).
      exists first, rest. split; [reflexivity|].
      intros x Hx. destruct (H x Hx) as [[<-|Hin]|Hne]; auto.
Qed.

Section ProvisionFields.

Variable toLowerCase : jsstring -> jsstring.
Variables (src chap chapterTitle pdfUrl : jsstring).

#[local] Abbreviation provisionAt :=
  (toProvision toLowerCase src chap chapterTitle pdfUrl).

(** Extra X17.  When the start of a segment gives a section identifier,
    the identifier is not empty and made of digits, hyphens, en dashes
    and dots only; it is the longest such run after an optional section
    sign and white space, and the reference of the provision is the
    chapter, a hyphen and this identifier. *)
Theorem recovered_reference_form (i : nat) (content g : jsstring) :
  sectionMatch content = Some g ->
  p_section (provisionAt i content) = Some (recoveredReference chap g)
  /\ g <> []
  /\ forallb isIdChar g = true
  /\ exists pre rest,
       content = pre ++ g ++ rest
       /\ Forall (fun c => c = sectionSign \/ isSpace c = true) pre
       /\ match rest with
          | c :: _ => isIdChar c = false
          | [] => True
          end.
Proof.
  intros H. destruct (sectionMatch_sound _ H) as (Hne & Hid & Hwhere).
  assert (Htrim : trim g = g).
  { apply trim_no_space. eapply Forall_impl; [|exact Hid].
    apply isIdChar_not_space. }
  split; [|split; [exact Hne|split; [|exact Hwhere]]].
  - rewrite provision_section, H, Htrim. now destruct g.
  - apply forallb_forall. now rewrite Forall_forall in Hid.
Qed.

(** Extra X18.  The section title of a provision, when there is one, is
    not empty, is shorter than 120 characters and holds no line
    break. *)
Theorem section_title_is_one_short_line (i : nat) (content l : jsstring) :
  p_section_title (provisionAt i content) = Some l ->
  l <> [] /\ length l < 120 /\ ~ In 10%N l.
Proof.
  unfold toProvision. cbn [p_section_title]. unfold splitChar.
  destruct (splitChar_go_first 10 (trim content) []) as (first & rest & -> & Hf).
  destruct (truthy (Some (trim first))) eqn:Et; [|discriminate].
  cbn [andb]. destruct (Nat.ltb_spec (length (trim first)) 120); [|discriminate].
  intros E. injection E as <-. split; [|split; [assumption|]].
  - now destruct (trim first).
  - intros Hin.
    assert (Hall : Forall (fun x => x <> 10%N) (trim first)).
    { apply Forall_trim. apply Forall_forall. intros x Hx.
      destruct (Hf x Hx) as [[]|Hne]. exact Hne. }
    rewrite Forall_forall in Hall. now apply (Hall _ Hin).
Qed.

End ProvisionFields.

(** Extra X17 on the first section of the noise chapter. *)
Lemma recovered_reference_form_witness :
  sectionMatch (sectionSign :: js " 591-2.1 No person shall make noise.")
  = Some (js "591-2.1")
  /\ p_section (animalsProvision asciiLower 0
                  (sectionSign :: js " 591-2.1 No person shall make noise."))
     = Some (js "Chapter 349-591-2.1").
Proof.
  split; [vm_compute; reflexivity|].
  apply (proj1 (@recovered_reference_form asciiLower (js "municipal_code")
                  (js "Chapter 349") (js "Animals")
                  (js "https://www.toronto.ca/legdocs/municode/1184_349.pdf")
                  0 (sectionSign :: js " 591-2.1 No person shall make noise.")
                  (js "591-2.1") eq_refl)).
Defined.

(** Extra X18 on the first article of [articleChapter]. *)
Lemma section_title_is_one_short_line_witness :
  exists l,
    p_section_title (animalsProvision asciiLower 0
                       (nth 0 (segment articleChapter) [])) = Some l
    /\ l <> [] /\ length l < 120 /\ ~ In 10%N l.
Proof.
  eexists. split; [vm_compute; reflexivity|].
  apply (@section_title_is_one_short_line asciiLower (js "municipal_code")
           (js "Chapter 349") (js "Animals")
           (js "https://www.toronto.ca/legdocs/municode/1184_349.pdf")
           0 (nth 0 (segment articleChapter) [])).
  vm_compute. reflexivity.
Defined.

(* ================================================================== *)
(** * Patterns of phrases: keywords and search terms *)

Lemma upperAscii_lowerAscii (c : N) : upperAscii (lowerAscii c) = upperAscii c.
Proof.
  unfold lowerAscii. destruct (isUpper c) eqn:E; [|reflexivity].
  unfold upperAscii, isUpper, isLower, between in *.
  apply andb_true_iff in E as [E1 E2]. apply N.leb_le in E1, E2.
  repeat match goal with
         | |- context [(?a <=? ?b)%N] =>
             destruct (N.leb_spec a b); cbn [andb]
         end; lia.
Qed.

Lemma sameLetters_lowered (w : jsstring) : sameLetters (map lowerAscii w) w.
Proof.
  unfold sameLetters. rewrite map_map. apply map_ext.
  apply upperAscii_lowerAscii.
Qed.

(** A phrase under the [i] flag consumes the same letters, in any case. *)
Lemma exec_lit_i_sound {R} (w : jsstring) :
  forall (k : option N -> jsstring -> option R) prev s x,
    exec (lit_i w) prev s k = Some x ->
    exists m rest prev',
      s = m ++ rest /\ sameLetters m w /\ k prev' rest = Some x.
Proof.
  unfold lit_i, sameLetters. induction w as [|c w IH]; intros k prev s x H.
  - exists [], s, prev. now repeat split.
  - cbn [map seqs exec] in H. destruct s as [|d s]; [discriminate|].
    destruct (chr_i c d) eqn:Ed; [|discriminate].
    apply IH in H as (m & rest & prev' & -> & Hm & Hk).
    exists (d :: m), rest, prev'. split; [reflexivity|]. split; [|exact Hk].
    cbn [map]. unfold chr_i in Ed. apply N.eqb_eq in Ed. now rewrite Ed, Hm.
Qed.

Lemma exec_lit_i_any_case {R} (w : jsstring) :
  forall w' rest (k : option N -> jsstring -> option R) prev,
    sameLetters w' w ->
    exists prev', exec (lit_i w) prev (w' ++ rest) k = k prev' rest.
Proof.
  unfold lit_i, sameLetters. induction w as [|c w IH]; intros w' rest k prev H.
  - destruct w'; [|discriminate]. now exists prev.
  - destruct w' as [|d w']; [discriminate|]. cbn [map] in H.
    injection H as Hd Hw. cbn [map seqs app exec].
    replace (chr_i c d) with true
      by (unfold chr_i; now rewrite Hd, N.eqb_refl).
    now apply IH.
Qed.

Lemma matchesAt_alts_sound (l : list regex) (prev : option N) (s : jsstring) :
  l <> [] ->
  matchesAt (alts l) prev s = true ->
  exists r, In r l /\ matchesAt r prev s = true.
Proof.
  induction l as [|r1 l IH]; intros Hne H; [easy|].
  destruct l as [|r2 l].
  - exists r1. split; [now left|exact H].
  - change (alts (r1 :: r2 :: l)) with (Alt r1 (alts (r2 :: l))) in H.
    unfold matchesAt, matchAt in H. cbn [exec] in H.
    destruct (exec r1 prev s (fun _ rest => Some rest)) eqn:E1.
    + exists r1. split; [now left|]. unfold matchesAt, matchAt. now rewrite E1.
    + destruct IH as (r & Hr & Hm); [discriminate|exact H|].
      exists r. split; [now right|exact Hm].
Qed.

Lemma test_from_sound (r : regex) (s : jsstring) :
  forall prev,
    test_from r prev s = true ->
    exists a s' prev', s = a ++ s' /\ matchesAt r prev' s' = true.
Proof.
  induction s as [|c s IH]; intros prev H; cbn [test_from] in H;
    apply orb_true_iff in H as [H|H].
  - now exists [], [], prev.
  - discriminate.
  - now exists [], (c :: s), prev.
  - apply IH in H as (a & s' & prev' & -> & H). now exists (c :: a), s', prev'.
Qed.

Lemma splitChar_nonempty (sep : N) (s : jsstring) : splitChar sep s <> [].
Proof.
  unfold splitChar.
  destruct (splitChar_go_first sep s []) as (first & rest & -> & _).
  discriminate.
Qed.

(** A pattern of phrases under the [i] flag tests whether one of its
    phrases stands in the text, in any letter case. *)
Lemma RegExp_i_test (patterns s : jsstring) :
  Regex.test (RegExp_i patterns) s = true
  <-> exists phrase, In phrase (splitChar 124 patterns) /\ occursIn phrase s.
Proof.
  split.
  - unfold Regex.test, RegExp_i. intros H.
    apply test_from_sound in H as (a & s' & prev' & -> & H).
    apply matchesAt_alts_sound in H as (r & Hr & H).
    + apply in_map_iff in Hr as (phrase & <- & Hin).
      exists phrase. split; [exact Hin|].
      unfold matchesAt, matchAt in H.
      destruct (exec (lit_i phrase) prev' s' (fun _ rest => Some rest))
        as [x|] eqn:E; [|discriminate].
      apply exec_lit_i_sound in E as (m & rest & _ & -> & Hm & _).
      now exists a, m, rest.
    + intros E. apply map_eq_nil in E. now apply splitChar_nonempty in E.
  - intros (phrase & Hin & a & w & b & -> & Hw).
    unfold Regex.test. apply test_from_at. intros prev.
    unfold RegExp_i. apply matchesAt_alts with (r := lit_i phrase).
    + now apply in_map.
    + unfold matchesAt, matchAt.
      destruct (exec_lit_i_any_case b (fun _ r => Some r) prev Hw)
        as (prev' & ->).
      reflexivity.
Qed.

Lemma setAdd_fresh (t : jsstring) (set : list jsstring) :
  ~ In t set -> setAdd t set = set ++ [t].
Proof.
  intros H. unfold setAdd. destruct (existsb (eqb t) set) eqn:E; [|reflexivity].
  apply existsb_exists in E as (x & Hx & Ex). apply eqb_true in Ex.
  now subst.
Qed.

Lemma In_setAdd_inv (t x : jsstring) (set : list jsstring) :
  In x (setAdd t set) -> x = t \/ In x set.
Proof.
  unfold setAdd. destruct (existsb (eqb t) set); [now right|].
  intros H. apply in_app_or in H as [H|[<-|[]]]; auto.
Qed.

Lemma setAdd_NoDup (t : jsstring) (set : list jsstring) :
  NoDup set -> NoDup (setAdd t set).
Proof.
  intros H. unfold setAdd. destruct (existsb (eqb t) set) eqn:E; [exact H|].
  apply NoDup_app; [exact H|repeat constructor; easy|].
  intros x Hx [Et|[]]. subst x.
  assert (existsb (eqb t) set = true); [|congruence].
  apply existsb_exists. exists t. split; [exact Hx|apply eqb_refl].
Qed.

(** Adding the keys of the selected entries of a table with distinct
    keys to a set that holds none of them appends them in order. *)
Lemma fold_setAdd_filter {K} (key : K -> jsstring) (f : K -> bool)
      (l : list K) :
  forall acc,
    NoDup (map key l) ->
    (forall x, In x l -> ~ In (key x) acc) ->
    fold_left (fun ks x => if f x then setAdd (key x) ks else ks) l acc
    = acc ++ map key (filter f l).
Proof.
  induction l as [|x l IH]; intros acc Hnd Hacc;
    [now rewrite app_nil_r|].
  cbn [fold_left filter]. cbn [map] in Hnd. inversion_clear Hnd as [|? ? Hx Hl].
  destruct (f x).
  - rewrite setAdd_fresh by (apply Hacc; now left).
    rewrite IH; [cbn [map]; now rewrite <- app_assoc|exact Hl|].
    intros y Hy Hin. apply in_app_or in Hin as [Hin|[E|[]]].
    + apply (Hacc y); [now right|exact Hin].
    + apply Hx. rewrite E. now apply in_map.
  - apply IH; [exact Hl|]. intros y Hy. apply Hacc. now right.
Qed.

Lemma distinct_NoDup (l : list jsstring) : distinct l = true -> NoDup l.
Proof.
  induction l as [|x l IH]; cbn [distinct]; intros H; constructor;
    apply andb_true_iff in H as [Hx Hl]; [|now apply IH].
  intros Hin. apply negb_true_iff in Hx.
  assert (existsb (eqb x) l = true); [|congruence].
  apply existsb_exists. exists x. split; [exact Hin|apply eqb_refl].
Qed.

Lemma keywordPatterns_NoDup : NoDup (map fst keywordPatterns).
Proof. apply distinct_NoDup. vm_compute. reflexivity. Qed.

Lemma keywordSet_filter (toLowerCase : jsstring -> jsstring) (text : jsstring) :
  keywordSet toLowerCase text = matchingKeywords toLowerCase text.
Proof.
  unfold keywordSet, matchingKeywords.
  rewrite (fold_setAdd_filter fst
             (fun kp => Regex.test (RegExp_i (snd kp)) (toLowerCase text))).
  - reflexivity.
  - exact keywordPatterns_NoDup.
  - now intros x _.
Qed.

Lemma extractKeywords_keywordSet (toLowerCase : jsstring -> jsstring)
      (text : jsstring) :
  extractKeywords toLowerCase text
  = join (js ", ") (keywordSet toLowerCase text).
Proof. unfold extractKeywords, keywordSet. reflexivity. Qed.

Section KeywordProperties.

Variable toLowerCase : jsstring -> jsstring.

(** Extra X19.  The keyword string of a text is the vocabulary keywords
    whose pattern matches the lowered text, each once, in the order of
    the vocabulary, joined by a comma and a space. *)
Theorem keywords_in_vocabulary_order (text : jsstring) :
  extractKeywords toLowerCase text
  = join (js ", ") (matchingKeywords toLowerCase text)
  /\ NoDup (matchingKeywords toLowerCase text)
  /\ incl (matchingKeywords toLowerCase text) (map fst keywordPatterns).
Proof.
  split; [|split].
  - now rewrite extractKeywords_keywordSet, keywordSet_filter.
  - unfold matchingKeywords. apply NoDup_map_filter.
    exact keywordPatterns_NoDup.
  - unfold matchingKeywords. intros k Hk.
    apply in_map_iff in Hk as (kp & <- & Hkp). apply filter_In in Hkp as [Hkp _].
    now apply in_map.
Qed.

(** Extra X20.  A keyword of the vocabulary is given to a text exactly
    when one of the phrases of its pattern stands in the lowered text,
    in any letter case and anywhere, inside a longer word too. *)
Theorem keyword_iff_phrase_occurs (kp : jsstring * jsstring) (text : jsstring) :
  In kp keywordPatterns ->
  In (fst kp) (keywordSet toLowerCase text)
  <-> exists phrase,
        In phrase (splitChar 124 (snd kp))
        /\ occursIn phrase (toLowerCase text).
Proof.
  intros Hkp. rewrite keywordSet_filter, <- RegExp_i_test.
  unfold matchingKeywords. split.
  - intros H. apply in_map_iff in H as (kp' & E & H).
    apply filter_In in H as [Hin Ht].
    assert (kp' = kp); [|now subst].
    pose proof keywordPatterns_NoDup as Hnd.
    clear Ht. revert Hnd Hin Hkp E. generalize keywordPatterns as l.
    induction l as [|x l IH]; [easy|]. cbn [map]. intros Hnd Hin Hkp E.
    inversion_clear Hnd as [|? ? Hx Hl].
    destruct Hin as [->|Hin]; destruct Hkp as [->|Hkp]; auto.
    + exfalso. apply Hx. rewrite E. now apply in_map.
    + exfalso. apply Hx. rewrite <- E. now apply in_map.
  - intros Ht. apply in_map. apply filter_In. now split.
Qed.

Hypothesis toLowerCase_ascii : lowersAsciiRuns toLowerCase.

(** Extra X21.  A text in which a phrase of a vocabulary pattern is
    written, in any mix of upper and lower case, gets the keyword of
    this pattern, and the keyword string contains it. *)
Theorem keyword_found_in_any_case
        (kp : jsstring * jsstring) (phrase text a w b : jsstring) :
  In kp keywordPatterns ->
  In phrase (splitChar 124 (snd kp)) ->
  text = a ++ w ++ b ->
  forallb isAscii w = true ->
  sameLetters w phrase ->
  In (fst kp) (keywordSet toLowerCase text)
  /\ exists x y, extractKeywords toLowerCase text = x ++ fst kp ++ y.
Proof.
  intros Hkp Hphrase -> Hascii Hw.
  assert (Hin : In (fst kp) (keywordSet toLowerCase (a ++ w ++ b))).
  { rewrite keywordSet_filter. unfold matchingKeywords.
    apply in_map. apply filter_In. split; [exact Hkp|].
    apply RegExp_i_test. exists phrase. split; [exact Hphrase|].
    destruct (toLowerCase_ascii a w b Hascii) as (a' & b' & ->).
    exists a', (map lowerAscii w), b'. split; [reflexivity|].
    unfold sameLetters in *. now rewrite <- Hw, sameLetters_lowered. }
  split; [exact Hin|].
  rewrite extractKeywords_keywordSet. apply join_contains. exact Hin.
Qed.

End KeywordProperties.

(** Extra X20 on the keyword [transit] and a notice about the TTC. *)
Lemma keyword_iff_phrase_occurs_witness :
  let kp := nth 4 keywordPatterns ([], []) in
  In (fst kp) (keywordSet asciiLower transitNotice)
  <-> exists phrase,
        In phrase (splitChar 124 (snd kp))
        /\ occursIn phrase (asciiLower transitNotice).
Proof.
  cbn zeta.
  apply (@keyword_iff_phrase_occurs asciiLower (nth 4 keywordPatterns ([], []))
           transitNotice).
  vm_compute. do 4 right. left. reflexivity.
Defined.

(** Extra X21 on the phrase [TTC] of the keyword [transit]. *)
Lemma keyword_found_in_any_case_witness :
  let kp := nth 4 keywordPatterns ([], []) in
  In (fst kp) (keywordSet asciiLower transitNotice)
  /\ exists x y, extractKeywords asciiLower transitNotice = x ++ fst kp ++ y.
Proof.
  cbn zeta.
  apply (@keyword_found_in_any_case asciiLower asciiLower_lowersAsciiRuns
           (nth 4 keywordPatterns ([], [])) (js "TTC") transitNotice
           (js "The ") (js "TTC")
           (js " runs a shuttle Bus while the Subway is closed")).
  - vm_compute. do 4 right. left. reflexivity.
  - vm_compute. right. left. reflexivity.
  - vm_compute. reflexivity.
  - vm_compute. reflexivity.
  - vm_compute. reflexivity.
Defined.

Lemma addAll_inv (searchTerms x : jsstring) (terms : list jsstring) :
  In x (addAll searchTerms terms) ->
  In x (splitChar 32 searchTerms) \/ In x terms.
Proof.
  unfold addAll. generalize (splitChar 32 searchTerms) as l. intros l.
  revert terms. induction l as [|t l IH]; intros terms H; [now right|].
  cbn [fold_left] in H. apply IH in H as [H|H]; [left; now right|].
  apply In_setAdd_inv in H as [->|H]; [left; now left|now right].
Qed.

Lemma expandMappings_inv (s x : jsstring) (table : list (jsstring * jsstring)) :
  forall terms,
    In x (expandMappings s table terms) ->
    In x terms
    \/ exists m, In m table
                 /\ Regex.test (RegExp_i (fst m)) s = true
                 /\ In x (expansionTerms m).
Proof.
  unfold expandMappings. induction table as [|m table IH]; intros terms H;
    [now left|].
  cbn [fold_left] in H. apply IH in H as [H|(m' & Hm' & Ht & Hx)].
  - destruct (Regex.test (RegExp_i (fst m)) s) eqn:Et; [|now left].
    apply addAll_inv in H as [H|H]; [|now left].
    right. exists m. split; [now left|]. now split.
  - right. exists m'. split; [now right|]. now split.
Qed.

Lemma addLocations_inv (f : jsstring -> jsstring) (x : jsstring)
      (l : list jsstring) :
  forall terms,
    In x (fold_left (fun ts l0 => setAdd (f l0) ts) l terms) ->
    In x terms \/ exists l0, In l0 l /\ x = f l0.
Proof.
  induction l as [|l1 l IH]; intros terms H; [now left|].
  cbn [fold_left] in H. apply IH in H as [H|(l0 & Hl0 & ->)].
  - apply In_setAdd_inv in H as [->|H]; [|now left].
    right. exists l1. split; [now left|reflexivity].
  - right. exists l0. split; [now right|reflexivity].
Qed.

Lemma searchTermSet_unfold (toLowerCase : jsstring -> jsstring)
      (story : jsstring) :
  searchTermSet toLowerCase story
  = fold_left (fun ts l => setAdd (toLowerCase l) ts)
              (matchAll locationPattern (toLowerCase story))
              (expandMappings (toLowerCase story) mappings []).
Proof. reflexivity. Qed.

Section SearchTermProperties.

Variable toLowerCase : jsstring -> jsstring.

(** Extra X22.  Every term of the expanded query has a cause in the
    story: it is an expansion term of an entry of the table one of
    whose trigger phrases stands in the lowered story, in any letter
    case and anywhere, or it is the lowered text of a place name found
    in the lowered story. *)
Theorem search_terms_have_a_cause (story t : jsstring) :
  In t (searchTermSet toLowerCase story) ->
  (exists m phrase,
      In m mappings
      /\ In phrase (triggerPhrases m)
      /\ occursIn phrase (toLowerCase story)
      /\ In t (expansionTerms m))
  \/ (exists l, In l (matchAll locationPattern (toLowerCase story))
                /\ t = toLowerCase l).
Proof.
  intros H. rewrite searchTermSet_unfold in H.
  apply addLocations_inv in H as [H|H]; [left|now right].
  apply expandMappings_inv in H as [[]|(m & Hm & Ht & Hx)].
  apply RegExp_i_test in Ht as (phrase & Hp & Hocc).
  now exists m, phrase.
Qed.

(** Extra X23.  A story in whose lowered text no trigger phrase of the
    table stands and no place name is found gives the empty query. *)
Theorem story_without_triggers_gives_empty_query (story : jsstring) :
  (forall m phrase,
      In m mappings -> In phrase (triggerPhrases m) ->
      ~ occursIn phrase (toLowerCase story)) ->
  matchAll locationPattern (toLowerCase story) = [] ->
  searchTermSet toLowerCase story = []
  /\ extractSearchTerms toLowerCase story = [].
Proof.
  intros Hnone Hloc.
  assert (E : searchTermSet toLowerCase story = []).
  { destruct (searchTermSet toLowerCase story) as [|t l] eqn:E; [reflexivity|].
    exfalso.
    assert (H : In t (searchTermSet toLowerCase story)) by (rewrite E; now left).
    rewrite searchTermSet_unfold in H.
    apply addLocations_inv in H as [H|(l0 & Hl0 & _)].
    - apply expandMappings_inv in H as [[]|(m & Hm & Ht & _)].
      apply RegExp_i_test in Ht as (p & Hp & Ho).
      exact (Hnone m p Hm Hp Ho).
    - rewrite Hloc in Hl0. destruct Hl0. }
  split; [exact E|]. unfold extractSearchTerms. now rewrite E.
Qed.

End SearchTermProperties.

(** Extra X22 on the term [transit] of the streetcar story. *)
Lemma search_terms_have_a_cause_witness :
  In (js "transit") (searchTermSet asciiLower streetcarStory)
  /\ ((exists m phrase,
          In m mappings
          /\ In phrase (triggerPhrases m)
          /\ occursIn phrase (asciiLower streetcarStory)
          /\ In (js "transit") (expansionTerms m))
      \/ (exists l, In l (matchAll locationPattern (asciiLower streetcarStory))
                    /\ js "transit" = asciiLower l)).
Proof.
  assert (H : In (js "transit") (searchTermSet asciiLower streetcarStory))
    by (vm_compute; now left).
  split; [exact H|].
  exact (@search_terms_have_a_cause asciiLower streetcarStory (js "transit") H).
Defined.

(** Extra X23 on a story about the weather. *)
Lemma story_without_triggers_gives_empty_query_witness :
  searchTermSet asciiLower weatherStory = []
  /\ extractSearchTerms asciiLower weatherStory = [].
Proof.
  apply (@story_without_triggers_gives_empty_query asciiLower weatherStory).
  - intros m phrase Hm Hp Hocc.
    assert (Ht : Regex.test (RegExp_i (fst m)) (asciiLower weatherStory) = true)
      by (apply RegExp_i_test; now exists phrase).
    assert (Hall : forallb (fun m0 => negb (Regex.test (RegExp_i (fst m0))
                                              (asciiLower weatherStory)))
                           mappings = true)
      by (vm_compute; reflexivity).
    rewrite forallb_forall in Hall. specialize (Hall m Hm).
    now rewrite Ht in Hall.
  - vm_compute. reflexivity.
Defined.
